(** * VaultDAO: the SDK's types, error parsing, contract bindings and CSV
      export, and the authorization engine they talk to.

    Sources embedded here:
    - [sdk/src/types.ts]      enums [Role], [ProposalStatus], [VaultErrorCode],
                              class [VaultError];
    - [sdk/src/utils.ts]      [buildOptions], [parseError], the converters,
                              [getContract], [buildTransaction],
                              [signAndSubmit];
    - [sdk/src/contract.ts]   the sixteen contract bindings;
    - [frontend/src/utils/export.ts]  [escapeCsvCell], [toCSV], [toCsv] and
                              the helpers around them;
    - [frontend/src/utils/exportHistory.ts], [ExportModal.tsx].

    JavaScript strings are modelled as [string]: one [ascii] per code unit,
    which covers the code units below 256.  A call that may throw returns a
    [Completion], or a [Built] value where what is thrown is the refusal of
    one of stellar-sdk's constructors. *)

From Stdlib Require Import ZArith List String Ascii Lia Bool DecimalString.
From stdpp Require Import base option list strings gmap.

Local Open Scope Z_scope.
Local Open Scope string_scope.

#[local] Set Warnings "-register-all".

(* ===================================================================== *)
(** * Part I: definitions                                                 *)
(* ===================================================================== *)

(** ** sdk/src/types.ts *)
Module Types.

(** [export enum Role]. *)
Inductive Role : Set := Member | Treasurer | Admin.

(** The numeric encoding written in the enum declaration. *)
Definition Role_value (r : Role) : Z :=
  match r with
  | Member => 0
  | Treasurer => 1
  | Admin => 2
  end.

(** The reverse mapping a numeric TypeScript enum carries ([Role[n]]),
    also what [raw as Role] reads a decoded number as. *)
Definition Role_of_value (n : Z) : option Role :=
  match n with
  | 0 => Some Member
  | 1 => Some Treasurer
  | 2 => Some Admin
  | _ => None
  end.

(** What the doc comments of the enum grant each role: [Member] reads,
    [Treasurer] also creates and approves proposals, [Admin] also manages
    roles, signers and configuration. *)
Inductive Permission : Set := Read | ProposeApprove | Manage.

Definition Role_grants (r : Role) (p : Permission) : bool :=
  match r, p with
  | _, Read => true
  | Member, _ => false
  | Treasurer, ProposeApprove => true
  | Treasurer, Manage => false
  | Admin, _ => true
  end.

(** [r1] is strictly less privileged than [r2]: everything [r1] may do
    [r2] may do, and [r2] may do something [r1] may not. *)
Definition less_privileged (r1 r2 : Role) : Prop :=
  (forall p, Role_grants r1 p = true -> Role_grants r2 p = true) /\
  (exists p, Role_grants r2 p = true /\ Role_grants r1 p = false).

(** The role the enum's doc comment marks "(default)". *)
Definition Role_default : Role := Member.

(** [export enum ProposalStatus]. *)
Inductive ProposalStatus : Set :=
  Pending | Approved | Executed | Rejected | Expired.

Definition ProposalStatus_value (s : ProposalStatus) : Z :=
  match s with
  | Pending => 0
  | Approved => 1
  | Executed => 2
  | Rejected => 3
  | Expired => 4
  end.

(** [export enum VaultErrorCode]. *)
Inductive VaultErrorCode : Set :=
| AlreadyInitialized | NotInitialized
| Unauthorized | NotASigner | InsufficientRole
| ProposalNotFound | ProposalNotPending | AlreadyApproved
| ProposalExpired | ProposalNotApproved | ProposalAlreadyExecuted
| ExceedsProposalLimit | ExceedsDailyLimit | ExceedsWeeklyLimit
| InvalidAmount | TimelockNotExpired | IntervalTooShort
| ThresholdTooLow | ThresholdTooHigh | SignerAlreadyExists
| SignerNotFound | CannotRemoveSigner | NoSigners
| TransferFailed | InsufficientBalance.

Definition code_value (c : VaultErrorCode) : Z :=
  match c with
  | AlreadyInitialized => 100
  | NotInitialized => 101
  | Unauthorized => 200
  | NotASigner => 201
  | InsufficientRole => 202
  | ProposalNotFound => 300
  | ProposalNotPending => 301
  | AlreadyApproved => 302
  | ProposalExpired => 303
  | ProposalNotApproved => 304
  | ProposalAlreadyExecuted => 305
  | ExceedsProposalLimit => 400
  | ExceedsDailyLimit => 401
  | ExceedsWeeklyLimit => 402
  | InvalidAmount => 403
  | TimelockNotExpired => 404
  | IntervalTooShort => 405
  | ThresholdTooLow => 500
  | ThresholdTooHigh => 501
  | SignerAlreadyExists => 502
  | SignerNotFound => 503
  | CannotRemoveSigner => 504
  | NoSigners => 505
  | TransferFailed => 600
  | InsufficientBalance => 601
  end.

(** The member's name, i.e. the reverse mapping [VaultErrorCode[code]]. *)
Definition code_name (c : VaultErrorCode) : string :=
  match c with
  | AlreadyInitialized => "AlreadyInitialized"
  | NotInitialized => "NotInitialized"
  | Unauthorized => "Unauthorized"
  | NotASigner => "NotASigner"
  | InsufficientRole => "InsufficientRole"
  | ProposalNotFound => "ProposalNotFound"
  | ProposalNotPending => "ProposalNotPending"
  | AlreadyApproved => "AlreadyApproved"
  | ProposalExpired => "ProposalExpired"
  | ProposalNotApproved => "ProposalNotApproved"
  | ProposalAlreadyExecuted => "ProposalAlreadyExecuted"
  | ExceedsProposalLimit => "ExceedsProposalLimit"
  | ExceedsDailyLimit => "ExceedsDailyLimit"
  | ExceedsWeeklyLimit => "ExceedsWeeklyLimit"
  | InvalidAmount => "InvalidAmount"
  | TimelockNotExpired => "TimelockNotExpired"
  | IntervalTooShort => "IntervalTooShort"
  | ThresholdTooLow => "ThresholdTooLow"
  | ThresholdTooHigh => "ThresholdTooHigh"
  | SignerAlreadyExists => "SignerAlreadyExists"
  | SignerNotFound => "SignerNotFound"
  | CannotRemoveSigner => "CannotRemoveSigner"
  | NoSigners => "NoSigners"
  | TransferFailed => "TransferFailed"
  | InsufficientBalance => "InsufficientBalance"
  end.

(** The members in declaration order ([Object.keys] of the enum, names
    only). *)
Definition VaultErrorCode_members : list VaultErrorCode :=
  [ AlreadyInitialized; NotInitialized;
    Unauthorized; NotASigner; InsufficientRole;
    ProposalNotFound; ProposalNotPending; AlreadyApproved;
    ProposalExpired; ProposalNotApproved; ProposalAlreadyExecuted;
    ExceedsProposalLimit; ExceedsDailyLimit; ExceedsWeeklyLimit;
    InvalidAmount; TimelockNotExpired; IntervalTooShort;
    ThresholdTooLow; ThresholdTooHigh; SignerAlreadyExists;
    SignerNotFound; CannotRemoveSigner; NoSigners;
    TransferFailed; InsufficientBalance ].

(** The section comments of the enum ([// 1xx — Initialization], ...). *)
Inductive Family : Set :=
  Initialization | Authorization | ProposalLifecycle
| SpendingLimits | Configuration | Token.

(** The family a member is declared under, by its place in the source. *)
Definition code_family (c : VaultErrorCode) : Family :=
  match c with
  | AlreadyInitialized | NotInitialized => Initialization
  | Unauthorized | NotASigner | InsufficientRole => Authorization
  | ProposalNotFound | ProposalNotPending | AlreadyApproved
  | ProposalExpired | ProposalNotApproved | ProposalAlreadyExecuted =>
      ProposalLifecycle
  | ExceedsProposalLimit | ExceedsDailyLimit | ExceedsWeeklyLimit
  | InvalidAmount | TimelockNotExpired | IntervalTooShort => SpendingLimits
  | ThresholdTooLow | ThresholdTooHigh | SignerAlreadyExists
  | SignerNotFound | CannotRemoveSigner | NoSigners => Configuration
  | TransferFailed | InsufficientBalance => Token
  end.

(** The hundreds digit of a family's band. *)
Definition family_hundreds (f : Family) : Z :=
  match f with
  | Initialization => 1
  | Authorization => 2
  | ProposalLifecycle => 3
  | SpendingLimits => 4
  | Configuration => 5
  | Token => 6
  end.

(** [code in VaultErrorCode] for a number: the reverse-mapping lookup. *)
Definition code_of_value (n : Z) : option VaultErrorCode :=
  List.find (fun c => Z.eqb (code_value c) n) VaultErrorCode_members.

(** Decimal rendering of a non-negative integer, as a template literal
    renders a number. *)
Definition decimal (n : Z) : string :=
  DecimalString.NilZero.string_of_uint (N.to_uint (Z.to_N n)).

(** [class VaultError extends Error]: the constructor's default message. *)
Definition VaultError_default_message (c : VaultErrorCode) : string :=
  "VaultError(" ++ decimal (code_value c) ++ "): " ++ code_name c.

End Types.

(** ** sdk/src/utils.ts *)
Module Utils.
Import Types.

(** [Exclude<Network, "custom">]: the presets with a known endpoint. *)
Inductive NetworkPreset : Set := testnet | mainnet | futurenet.

(** [type Network]. *)
Inductive Network : Set := preset (p : NetworkPreset) | custom.

(** [interface SdkOptions]. *)
Record SdkOptions : Set := mkSdkOptions {
  contractId : string;
  rpcUrl : string;
  networkPassphrase : string
}.

(** The [Networks] object imported from stellar-sdk: the three passphrases
    the SDK reads from it. *)
Record StellarNetworks : Set := mkNetworks {
  TESTNET : string;
  PUBLIC : string;
  FUTURENET : string
}.

(** [DEFAULT_RPC_URLS]. *)
Definition DEFAULT_RPC_URLS (n : NetworkPreset) : string :=
  match n with
  | testnet => "https://soroban-testnet.stellar.org"
  | mainnet => "https://mainnet.stellar.validationcloud.io/v1/REPLACE_ME"
  | futurenet => "https://rpc-futurenet.stellar.org"
  end.

Section WithNetworks.
Variable Networks : StellarNetworks.

(** [NETWORK_PASSPHRASES]. *)
Definition NETWORK_PASSPHRASES (n : NetworkPreset) : string :=
  match n with
  | testnet => TESTNET Networks
  | mainnet => PUBLIC Networks
  | futurenet => FUTURENET Networks
  end.

(** [buildOptions(network, contractId)]. *)
Definition buildOptions (network : NetworkPreset) (contractId : string)
  : SdkOptions :=
  {| contractId := contractId;
     rpcUrl := DEFAULT_RPC_URLS network;
     networkPassphrase := NETWORK_PASSPHRASES network |}.
End WithNetworks.

(** *** The regular expression [/Error\(Contract,\s*(\d+)\)/] *)

Definition code_unit (a : ascii) : N := N_of_ascii a.

(** [\s] on code units below 256: TAB, LF, VT, FF, CR, SPACE, NBSP. *)
Definition is_space (a : ascii) : bool :=
  let n := code_unit a in
  ((9 <=? n) && (n <=? 13) || (n =? 32) || (n =? 160))%N.

(** [\d]. *)
Definition is_digit (a : ascii) : bool :=
  let n := code_unit a in ((48 <=? n) && (n <=? 57))%N.

(** Does [s] start with [p]; on success the remainder of [s]. *)
Fixpoint strip_prefix (p s : string) : option string :=
  match p with
  | EmptyString => Some s
  | String a p' =>
      match s with
      | EmptyString => None
      | String b s' => if Ascii.eqb a b then strip_prefix p' s' else None
      end
  end.

(** [\s*], greedy. *)
Fixpoint skip_spaces (s : string) : string :=
  match s with
  | String a s' => if is_space a then skip_spaces s' else s
  | EmptyString => s
  end.

(** The digits a greedy [\d+] reads (possibly none) and what follows. *)
Fixpoint take_digits (s : string) : string * string :=
  match s with
  | String a s' =>
      if is_digit a
      then let '(ds, r) := take_digits s' in (String a ds, r)
      else (EmptyString, s)
  | EmptyString => (EmptyString, EmptyString)
  end.

(** A match of the whole pattern that starts at the first code unit of
    [s]; the result is capture group 1.  Whitespace, digits and [")"] are
    disjoint classes, so the greedy reading is the only one a backtracking
    matcher can succeed with. *)
Definition match_here (s : string) : option string :=
  match strip_prefix "Error(Contract," s with
  | None => None
  | Some r =>
      let '(ds, r') := take_digits (skip_spaces r) in
      match ds, r' with
      | String _ _, String ")" _ => Some ds
      | _, _ => None
      end
  end.

(** [message.match(re)] for a non-global pattern: the leftmost match, as
    its index and capture group 1; [None] is JavaScript's [null]. *)
Fixpoint regex_match (s : string) : option (nat * string) :=
  match match_here s with
  | Some ds => Some (O, ds)
  | None =>
      match s with
      | EmptyString => None
      | String _ s' =>
          match regex_match s' with
          | Some (i, ds) => Some (S i, ds)
          | None => None
          end
      end
  end.

Definition digit_value (a : ascii) : Z := Z.of_N (code_unit a) - 48.

(** [parseInt(ds, 10)] on a non-empty string of decimal digits.  The
    result is kept exact: a double holds every integer below 2^53
    exactly, and rounding a larger one never yields a value below 2^53,
    so membership in the enum is decided by the exact value. *)
Definition parseInt10 (ds : string) : Z :=
  fold_left (fun acc a => 10 * acc + digit_value a)
            (list_ascii_of_string ds) 0.

(** *** Values [parseError] can be handed ([err: unknown]) *)
Inductive JsValue : Set :=
| JsUndefined
| JsNull
| JsString (s : string)
| JsOther (rendered : string)
    (**r any other value that is not an [Error] and that [String(err)]
        converts, by the string the conversion gives *)
| JsUnprintable (thrown : JsValue)
    (**r a value that is not an [Error] and on which [String(err)] throws
        [thrown]: an object without a prototype (a TypeError), an object
        whose [toString] throws *)
| JsError (message : string)
    (**r an [Error] that is not a [VaultError], with a string message *)
| JsErrorUnreadable (thrown : JsValue)
    (**r an [Error] that is not a [VaultError] and on which
        [err.message.match] throws [thrown]: a message that is not a string
        (a TypeError), a message getter that throws *)
| JsVaultError (code : VaultErrorCode) (message : string).
    (**r a [VaultError] *)

(** How a call ends: it returns a value or throws one. *)
Inductive Completion (A : Type) : Type :=
| Returned (a : A)
| Thrown (e : JsValue).
Arguments Returned {A} a.
Arguments Thrown {A} e.

(** [throw e], where evaluating [e] may itself throw. *)
Definition throw {A : Type} (e : Completion JsValue) : Completion A :=
  match e with
  | Returned v => Thrown v
  | Thrown v => Thrown v
  end.

(** [new VaultError(code)], the message defaulted by the constructor. *)
Definition new_VaultError (c : VaultErrorCode) : JsValue :=
  JsVaultError c (VaultError_default_message c).

(** [err instanceof Error ? err.message : String(err)], read as the string
    [match] is then called on. *)
Definition message_of (err : JsValue) : Completion string :=
  match err with
  | JsUndefined => Returned "undefined"
  | JsNull => Returned "null"
  | JsString s => Returned s
  | JsOther r => Returned r
  | JsUnprintable thrown => Thrown thrown
  | JsError m => Returned m
  | JsErrorUnreadable thrown => Thrown thrown
  | JsVaultError _ m => Returned m
  end.

(** [err instanceof VaultError]. *)
Definition is_VaultError (err : JsValue) : bool :=
  match err with
  | JsVaultError _ _ => true
  | _ => false
  end.

Definition instanceof_Error (err : JsValue) : bool :=
  match err with
  | JsError _ | JsErrorUnreadable _ | JsVaultError _ _ => true
  | _ => false
  end.

(** The message of [err] can be read: neither the conversion to a string
    nor the call of [match] throws. *)
Definition readable (err : JsValue) : bool :=
  match message_of err with
  | Returned _ => true
  | Thrown _ => false
  end.

(** The known contract error the message carries, if any: the leftmost
    match of the pattern, read as a number, looked up in the enum. *)
Definition contract_code (message : string) : option VaultErrorCode :=
  match regex_match message with
  | Some (_, ds) => code_of_value (parseInt10 ds)
  | None => None
  end.

(** [parseError(err)]. *)
Definition parseError (err : JsValue) : Completion JsValue :=
  if is_VaultError err then Returned err
  else
    match message_of err with
    | Thrown e => Thrown e
    | Returned message =>
        match contract_code message with
        | Some code => Returned (new_VaultError code)
        | None =>
            Returned (if instanceof_Error err then err else JsError message)
        end
    end.

(** [s] occurs in [t]. *)
Definition contains (t s : string) : Prop :=
  exists pre post, t = pre ++ s ++ post.

(** The text a simulation reports for contract error [c]. *)
Definition contract_error_text (c : VaultErrorCode) : string :=
  "Error(Contract, " ++ decimal (code_value c) ++ ")".

End Utils.

(** ** Strkeys

    The checks stellar-sdk's [Contract] and [Address] constructors run on
    the strings the bindings hand them (strkey.js of stellar-base): a
    strkey is the base32 text of a version byte, a payload and the two bytes
    of the payload's CRC16-XModem checksum, low byte first. *)
Module StrKey.
Local Open Scope Z_scope.

(** The value of a character of the base32 alphabet (A to Z, 2 to 7). *)
Definition char_value (a : ascii) : option Z :=
  let n := Z.of_N (N_of_ascii a) in
  if (65 <=? n) && (n <=? 90) then Some (n - 65)
  else if (50 <=? n) && (n <=? 55) then Some (n - 24)
  else None.

Definition value_char (v : Z) : ascii :=
  ascii_of_N (Z.to_N (if v <? 26 then v + 65 else v + 24)).

(** The [width] low bits of [v], most significant first. *)
Fixpoint to_bits (width : nat) (v : Z) : list bool :=
  match width with
  | O => []
  | S w => Z.testbit v (Z.of_nat w) :: to_bits w v
  end.

Definition of_bits (bs : list bool) : Z :=
  fold_left (fun acc (b : bool) => 2 * acc + (if b then 1 else 0)) bs 0.

Fixpoint char_values (s : string) : option (list Z) :=
  match s with
  | EmptyString => Some []
  | String a s' =>
      match char_value a, char_values s' with
      | Some v, Some vs => Some (v :: vs)
      | _, _ => None
      end
  end.

(** Whole bytes of a bit string; bits left over are dropped. *)
Fixpoint bytes_of_bits (bs : list bool) : list Z :=
  match bs with
  | b7 :: b6 :: b5 :: b4 :: b3 :: b2 :: b1 :: b0 :: rest =>
      of_bits [b7; b6; b5; b4; b3; b2; b1; b0] :: bytes_of_bits rest
  | _ => []
  end.

(** Characters of a bit string; the last group is filled with zeros. *)
Fixpoint chars_of_bits (bs : list bool) : string :=
  match bs with
  | [] => EmptyString
  | b4 :: b3 :: b2 :: b1 :: b0 :: rest =>
      String (value_char (of_bits [b4; b3; b2; b1; b0])) (chars_of_bits rest)
  | _ =>
      String (value_char
                (of_bits (firstn 5 (bs ++ [false; false; false; false]))))
             EmptyString
  end.

(** [base32.decode], on text of the alphabet; any other text fails the
    comparison with the re-encoded bytes that [decodeCheck] makes. *)
Definition base32_decode (encoded : string) : option (list Z) :=
  match char_values encoded with
  | Some vs => Some (bytes_of_bits (flat_map (to_bits 5) vs))
  | None => None
  end.

(** [base32.encode]. *)
Definition base32_encode (bytes : list Z) : string :=
  chars_of_bits (flat_map (to_bits 8) bytes).

(** One bit of CRC16-XModem (polynomial 0x1021), the checksum whose table
    strkey.js carries. *)
Definition crc_shift (crc : Z) : Z :=
  if Z.testbit crc 15
  then Z.land (Z.lxor (Z.shiftl crc 1) 4129) 65535
  else Z.land (Z.shiftl crc 1) 65535.

Definition crc_byte (crc byte : Z) : Z :=
  Nat.iter 8 crc_shift (Z.lxor crc (Z.shiftl byte 8)).

(** [calculateChecksum(payload)]: low byte first. *)
Definition calculateChecksum (payload : list Z) : list Z :=
  let crc16 := fold_left crc_byte payload 0 in
  [Z.land crc16 255; Z.land (Z.shiftr crc16 8) 255].

Definition bytes_eqb (x y : list Z) : bool :=
  (length x =? length y)%nat && forallb (fun p => fst p =? snd p) (combine x y).

(** [decodeCheck(versionByteName, encoded)]: the data, or [None] where it
    throws. *)
Definition decodeCheck (expectedVersion : Z) (encoded : string)
  : option (list Z) :=
  match base32_decode encoded with
  | None => None
  | Some decoded =>
      let payload := firstn (length decoded - 2) decoded in
      let data := skipn 1 payload in
      let checksum := skipn (length decoded - 2) decoded in
      if negb (String.eqb encoded (base32_encode decoded)) then None
      else
        match decoded with
        | versionByte :: _ =>
            if negb (versionByte =? expectedVersion) then None
            else if bytes_eqb (calculateChecksum payload) checksum
                 then Some data
                 else None
        | [] => None
        end
  end.

(** [versionBytes]: [6 << 3] for an account's public key, [2 << 3] for a
    contract. *)
Definition ed25519PublicKey : Z := 48.
Definition contract : Z := 16.

Definition decodeContract (encoded : string) : option (list Z) :=
  decodeCheck contract encoded.

(** [isValid(versionByteName, encoded)] for the two kinds used here. *)
Definition isValid (version : Z) (encoded : string) : bool :=
  (String.length encoded =? 56)%nat &&
  match decodeCheck version encoded with
  | Some data => (length data =? 32)%nat
  | None => false
  end.

Definition isValidEd25519PublicKey : string -> bool :=
  isValid ed25519PublicKey.
Definition isValidContract : string -> bool := isValid contract.

End StrKey.

(** ** sdk/src/contract.ts *)
Module Contract.
Import Types Utils.
Local Open Scope Z_scope.

(** The Soroban values the converters of utils.ts build. *)
Inductive ScVal : Set :=
| ScvAddress (a : string)
| ScvI128 (v : Z)
| ScvU64 (v : Z)
| ScvU32 (v : Z)
| ScvSymbol (s : string)
| ScvVec (items : list ScVal)
| ScvMap (entries : list (ScVal * ScVal)).

(** Why a binding throws before it has built its request: the checks of
    stellar-sdk's constructors on what the binding hands them. *)
Inductive Rejection : Set :=
| InvalidContractId (contractId : string)
    (**r [new Contract(id)]: the id does not decode as a contract strkey *)
| UnsupportedAddress (address : string)
    (**r [new Address(a)]: neither an account nor a contract strkey *)
| NegativeUnsigned (value : Z).
    (**r [new ScInt(v, { type: "u64" })]: a negative value *)

(** A value built, or the rejection thrown instead. *)
Inductive Built (A : Type) : Type :=
| Ready (a : A)
| Rejected (r : Rejection).
Arguments Ready {A} a.
Arguments Rejected {A} r.

Definition and_then {A B : Type} (b : Built A) (k : A -> Built B)
  : Built B :=
  match b with
  | Ready a => k a
  | Rejected r => Rejected r
  end.

Local Notation "'do' x <- r ; k" := (and_then r (fun x => k))
  (at level 10, x name, r at level 100, k at level 200).

(** [array.map(f)] for an [f] that may throw: the first rejection wins. *)
Fixpoint map_built {A B : Type} (f : A -> Built B) (l : list A)
  : Built (list B) :=
  match l with
  | [] => Ready []
  | a :: l' =>
      do b <- f a;
      do bs <- map_built f l';
      Ready (b :: bs)
  end.

(** [nativeToScVal(address, { type: "address" })]:
    [new Address(address).toScVal()]. *)
Definition addressToScVal (address : string) : Built ScVal :=
  if StrKey.isValidEd25519PublicKey address
     || StrKey.isValidContract address
  then Ready (ScvAddress address)
  else Rejected (UnsupportedAddress address).

(** [BigInt.asIntN(128, value)]. *)
Definition asIntN128 (value : Z) : Z :=
  (value + 2 ^ 127) mod 2 ^ 128 - 2 ^ 127.

(** [nativeToScVal(value, { type: "i128" })] on a bigint: the value is
    taken into the signed 128-bit range. *)
Definition i128ToScVal (value : Z) : ScVal := ScvI128 (asIntN128 value).

(** [nativeToScVal(value, { type: "u64" })] on a bigint: a negative value
    is refused, any other is taken modulo 2^64. *)
Definition u64ToScVal (value : Z) : Built ScVal :=
  if value <? 0 then Rejected (NegativeUnsigned value)
  else Ready (ScvU64 (value mod 2 ^ 64)).

(** [nativeToScVal(value, { type: "u32" })] on a number:
    [xdr.ScVal.scvU32(value)], which keeps the number as it is; its range
    is checked only when the transaction is serialized. *)
Definition u32ToScVal (value : Z) : ScVal := ScvU32 value.

(** [xdr.ScVal.scvSymbol(value)]. *)
Definition symbolToScVal (value : string) : ScVal := ScvSymbol value.

(** [interface InitConfig]. *)
Record InitConfig : Set := mkInitConfig {
  signers : list string;
  threshold : Z;
  spendingLimit : Z;
  dailyLimit : Z;
  weeklyLimit : Z;
  timelockThreshold : Z;
  timelockDelay : Z
}.

(** What [contract.call(name, ...args)] builds: an invocation of function
    [op_function] of contract [op_contract] with arguments [op_args]. *)
Record Operation : Set := mkOperation {
  op_contract : string;
  op_function : string;
  op_args : list ScVal
}.

(** [getContract(opts)]: [new Contract(opts.contractId)], by the id it
    holds. *)
Definition getContract (opts : SdkOptions) : Built string :=
  match StrKey.decodeContract (contractId opts) with
  | Some _ => Ready (contractId opts)
  | None => Rejected (InvalidContractId (contractId opts))
  end.

(** [contract.call(name, ...args)]. *)
Definition call (contract : string) (name : string) (args : list ScVal)
  : Operation :=
  {| op_contract := contract; op_function := name; op_args := args |}.

(** The request a binding ends in: [buildTransaction(source, op, opts)]
    prepares a transaction to be signed and submitted, and
    [simulateReadOnly(op, opts, sourceKey)] only simulates and decodes. *)
Inductive Request : Set :=
| BuildTransaction (sourcePublicKey : string) (operation : Operation)
                   (opts : SdkOptions)
| SimulateReadOnly (operation : Operation) (opts : SdkOptions)
                   (sourceKey : string).

Definition initialize (adminPublicKey : string) (config : InitConfig)
                      (opts : SdkOptions) : Built Request :=
  do contract <- getContract opts;
  do signerScVals <- map_built addressToScVal (signers config);
  let signersScVal := ScvVec signerScVals in
  do timelockDelayScVal <- u64ToScVal (timelockDelay config);
  let configScVal :=
    ScvMap
      [ (ScvSymbol "signers", signersScVal);
        (ScvSymbol "threshold", u32ToScVal (threshold config));
        (ScvSymbol "spending_limit", i128ToScVal (spendingLimit config));
        (ScvSymbol "daily_limit", i128ToScVal (dailyLimit config));
        (ScvSymbol "weekly_limit", i128ToScVal (weeklyLimit config));
        (ScvSymbol "timelock_threshold",
           i128ToScVal (timelockThreshold config));
        (ScvSymbol "timelock_delay", timelockDelayScVal) ] in
  do admin <- addressToScVal adminPublicKey;
  let op := call contract "initialize" [ admin; configScVal ] in
  Ready (BuildTransaction adminPublicKey op opts).

Definition proposeTransfer (proposerPublicKey recipient tokenAddress : string)
    (amount : Z) (memo : string) (opts : SdkOptions) : Built Request :=
  do contract <- getContract opts;
  do proposer <- addressToScVal proposerPublicKey;
  do to <- addressToScVal recipient;
  do token <- addressToScVal tokenAddress;
  let op := call contract "propose_transfer"
              [ proposer; to; token; i128ToScVal amount;
                symbolToScVal memo ] in
  Ready (BuildTransaction proposerPublicKey op opts).

Definition approveProposal (signerPublicKey : string) (proposalId : Z)
    (opts : SdkOptions) : Built Request :=
  do contract <- getContract opts;
  do signer <- addressToScVal signerPublicKey;
  do id <- u64ToScVal proposalId;
  let op := call contract "approve_proposal" [ signer; id ] in
  Ready (BuildTransaction signerPublicKey op opts).

Definition executeProposal (executorPublicKey : string) (proposalId : Z)
    (opts : SdkOptions) : Built Request :=
  do contract <- getContract opts;
  do executor <- addressToScVal executorPublicKey;
  do id <- u64ToScVal proposalId;
  let op := call contract "execute_proposal" [ executor; id ] in
  Ready (BuildTransaction executorPublicKey op opts).

Definition rejectProposal (rejectorPublicKey : string) (proposalId : Z)
    (opts : SdkOptions) : Built Request :=
  do contract <- getContract opts;
  do rejector <- addressToScVal rejectorPublicKey;
  do id <- u64ToScVal proposalId;
  let op := call contract "reject_proposal" [ rejector; id ] in
  Ready (BuildTransaction rejectorPublicKey op opts).

Definition setRole (adminPublicKey targetAddress : string) (role : Role)
    (opts : SdkOptions) : Built Request :=
  do contract <- getContract opts;
  do admin <- addressToScVal adminPublicKey;
  do target <- addressToScVal targetAddress;
  let op := call contract "set_role"
              [ admin; target; u32ToScVal (Role_value role) ] in
  Ready (BuildTransaction adminPublicKey op opts).

Definition addSigner (adminPublicKey newSignerAddress : string)
    (opts : SdkOptions) : Built Request :=
  do contract <- getContract opts;
  do admin <- addressToScVal adminPublicKey;
  do newSigner <- addressToScVal newSignerAddress;
  let op := call contract "add_signer" [ admin; newSigner ] in
  Ready (BuildTransaction adminPublicKey op opts).

Definition removeSigner (adminPublicKey signerAddress : string)
    (opts : SdkOptions) : Built Request :=
  do contract <- getContract opts;
  do admin <- addressToScVal adminPublicKey;
  do signer <- addressToScVal signerAddress;
  let op := call contract "remove_signer" [ admin; signer ] in
  Ready (BuildTransaction adminPublicKey op opts).

Definition updateLimits (adminPublicKey : string)
    (spendingLimit dailyLimit : Z) (opts : SdkOptions) : Built Request :=
  do contract <- getContract opts;
  do admin <- addressToScVal adminPublicKey;
  let op := call contract "update_limits"
              [ admin; i128ToScVal spendingLimit; i128ToScVal dailyLimit ] in
  Ready (BuildTransaction adminPublicKey op opts).

Definition updateThreshold (adminPublicKey : string) (threshold : Z)
    (opts : SdkOptions) : Built Request :=
  do contract <- getContract opts;
  do admin <- addressToScVal adminPublicKey;
  let op := call contract "update_threshold"
              [ admin; u32ToScVal threshold ] in
  Ready (BuildTransaction adminPublicKey op opts).

Definition schedulePayment (proposerPublicKey recipient tokenAddress : string)
    (amount : Z) (memo : string) (intervalLedgers : Z) (opts : SdkOptions)
  : Built Request :=
  do contract <- getContract opts;
  do proposer <- addressToScVal proposerPublicKey;
  do to <- addressToScVal recipient;
  do token <- addressToScVal tokenAddress;
  do interval <- u64ToScVal intervalLedgers;
  let op := call contract "schedule_payment"
              [ proposer; to; token; i128ToScVal amount;
                symbolToScVal memo; interval ] in
  Ready (BuildTransaction proposerPublicKey op opts).

Definition executeRecurringPayment (callerPublicKey : string) (paymentId : Z)
    (opts : SdkOptions) : Built Request :=
  do contract <- getContract opts;
  do id <- u64ToScVal paymentId;
  let op := call contract "execute_recurring_payment" [ id ] in
  Ready (BuildTransaction callerPublicKey op opts).

(** The read-only bindings; the decoding of the simulated value
    ([decodeProposal], the casts) happens after the request and is not
    part of it. *)
Definition getProposal (proposalId : Z) (callerPublicKey : string)
    (opts : SdkOptions) : Built Request :=
  do contract <- getContract opts;
  do id <- u64ToScVal proposalId;
  let op := call contract "get_proposal" [ id ] in
  Ready (SimulateReadOnly op opts callerPublicKey).

Definition getRole (address callerPublicKey : string) (opts : SdkOptions)
  : Built Request :=
  do contract <- getContract opts;
  do a <- addressToScVal address;
  let op := call contract "get_role" [ a ] in
  Ready (SimulateReadOnly op opts callerPublicKey).

Definition getTodaySpent (callerPublicKey : string) (opts : SdkOptions)
  : Built Request :=
  do contract <- getContract opts;
  let op := call contract "get_today_spent" [] in
  Ready (SimulateReadOnly op opts callerPublicKey).

Definition isSigner (address callerPublicKey : string) (opts : SdkOptions)
  : Built Request :=
  do contract <- getContract opts;
  do a <- addressToScVal address;
  let op := call contract "is_signer" [ a ] in
  Ready (SimulateReadOnly op opts callerPublicKey).

(** The functions contract.ts exports, in source order. *)
Inductive Binding : Set :=
| B_initialize
| B_proposeTransfer | B_approveProposal | B_executeProposal
| B_rejectProposal
| B_setRole | B_addSigner | B_removeSigner | B_updateLimits
| B_updateThreshold
| B_schedulePayment | B_executeRecurringPayment
| B_getProposal | B_getRole | B_getTodaySpent | B_isSigner.

Definition Binding_name (b : Binding) : string :=
  match b with
  | B_initialize => "initialize"
  | B_proposeTransfer => "proposeTransfer"
  | B_approveProposal => "approveProposal"
  | B_executeProposal => "executeProposal"
  | B_rejectProposal => "rejectProposal"
  | B_setRole => "setRole"
  | B_addSigner => "addSigner"
  | B_removeSigner => "removeSigner"
  | B_updateLimits => "updateLimits"
  | B_updateThreshold => "updateThreshold"
  | B_schedulePayment => "schedulePayment"
  | B_executeRecurringPayment => "executeRecurringPayment"
  | B_getProposal => "getProposal"
  | B_getRole => "getRole"
  | B_getTodaySpent => "getTodaySpent"
  | B_isSigner => "isSigner"
  end.

Definition all_bindings : list Binding :=
  [ B_initialize;
    B_proposeTransfer; B_approveProposal; B_executeProposal;
    B_rejectProposal;
    B_setRole; B_addSigner; B_removeSigner; B_updateLimits;
    B_updateThreshold;
    B_schedulePayment; B_executeRecurringPayment;
    B_getProposal; B_getRole; B_getTodaySpent; B_isSigner ].

(** A binding together with the arguments of one call of it. *)
Inductive Invocation : Set :=
| I_initialize (adminPublicKey : string) (config : InitConfig)
| I_proposeTransfer (proposerPublicKey recipient tokenAddress : string)
                    (amount : Z) (memo : string)
| I_approveProposal (signerPublicKey : string) (proposalId : Z)
| I_executeProposal (executorPublicKey : string) (proposalId : Z)
| I_rejectProposal (rejectorPublicKey : string) (proposalId : Z)
| I_setRole (adminPublicKey targetAddress : string) (role : Role)
| I_addSigner (adminPublicKey newSignerAddress : string)
| I_removeSigner (adminPublicKey signerAddress : string)
| I_updateLimits (adminPublicKey : string) (spendingLimit dailyLimit : Z)
| I_updateThreshold (adminPublicKey : string) (threshold : Z)
| I_schedulePayment (proposerPublicKey recipient tokenAddress : string)
                    (amount : Z) (memo : string) (intervalLedgers : Z)
| I_executeRecurringPayment (callerPublicKey : string) (paymentId : Z)
| I_getProposal (proposalId : Z) (callerPublicKey : string)
| I_getRole (address callerPublicKey : string)
| I_getTodaySpent (callerPublicKey : string)
| I_isSigner (address callerPublicKey : string).

Definition binding_of (i : Invocation) : Binding :=
  match i with
  | I_initialize _ _ => B_initialize
  | I_proposeTransfer _ _ _ _ _ => B_proposeTransfer
  | I_approveProposal _ _ => B_approveProposal
  | I_executeProposal _ _ => B_executeProposal
  | I_rejectProposal _ _ => B_rejectProposal
  | I_setRole _ _ _ => B_setRole
  | I_addSigner _ _ => B_addSigner
  | I_removeSigner _ _ => B_removeSigner
  | I_updateLimits _ _ _ => B_updateLimits
  | I_updateThreshold _ _ => B_updateThreshold
  | I_schedulePayment _ _ _ _ _ _ => B_schedulePayment
  | I_executeRecurringPayment _ _ => B_executeRecurringPayment
  | I_getProposal _ _ => B_getProposal
  | I_getRole _ _ => B_getRole
  | I_getTodaySpent _ => B_getTodaySpent
  | I_isSigner _ _ => B_isSigner
  end.

(** Running an invocation: the exported function applied to its
    arguments. *)
Definition perform (opts : SdkOptions) (i : Invocation) : Built Request :=
  match i with
  | I_initialize a c => initialize a c opts
  | I_proposeTransfer p r t a m => proposeTransfer p r t a m opts
  | I_approveProposal s id => approveProposal s id opts
  | I_executeProposal e id => executeProposal e id opts
  | I_rejectProposal r id => rejectProposal r id opts
  | I_setRole a t r => setRole a t r opts
  | I_addSigner a s => addSigner a s opts
  | I_removeSigner a s => removeSigner a s opts
  | I_updateLimits a sl dl => updateLimits a sl dl opts
  | I_updateThreshold a t => updateThreshold a t opts
  | I_schedulePayment p r t a m i => schedulePayment p r t a m i opts
  | I_executeRecurringPayment c id => executeRecurringPayment c id opts
  | I_getProposal id c => getProposal id c opts
  | I_getRole a c => getRole a c opts
  | I_getTodaySpent c => getTodaySpent c opts
  | I_isSigner a c => isSigner a c opts
  end.

(** A request that prepares a transaction for signing can change
    on-chain state; a simulation cannot. *)
Definition is_mutating (r : Request) : bool :=
  match r with
  | BuildTransaction _ _ _ => true
  | SimulateReadOnly _ _ _ => false
  end.

Definition request_operation (r : Request) : Operation :=
  match r with
  | BuildTransaction _ op _ => op
  | SimulateReadOnly op _ _ => op
  end.

(** The names index.ts re-exports from "./contract", in source order. *)
Definition index_contract_exports : list string :=
  [ "initialize";
    "proposeTransfer"; "approveProposal"; "executeProposal";
    "rejectProposal";
    "setRole"; "addSigner"; "removeSigner"; "updateLimits";
    "updateThreshold";
    "schedulePayment"; "executeRecurringPayment";
    "getProposal"; "getRole"; "getTodaySpent"; "isSigner" ].

(** The partition of the call surface the specification counts: one
    initialization, eleven further mutating operations, four reads. *)
Definition initialization_bindings : list Binding := [ B_initialize ].

Definition mutating_bindings : list Binding :=
  [ B_proposeTransfer; B_approveProposal; B_executeProposal;
    B_rejectProposal; B_setRole; B_addSigner; B_removeSigner;
    B_updateLimits; B_updateThreshold; B_schedulePayment;
    B_executeRecurringPayment ].

Definition read_bindings : list Binding :=
  [ B_getProposal; B_getRole; B_getTodaySpent; B_isSigner ].

(** Strkeys and arguments used to exercise the bindings: the contract of
    the native asset on the test network, and the account whose key is all
    zeros. *)
Definition sample_contract : string :=
  "CDLZFC3SYJYDZT7K67VZ75HPJVIEUVNIXF47ZG2FB2RMQQVU2HHGCYSC".

Definition sample_account : string :=
  "GAAAAAAAAAAAAAAAAAAAAAAAAAAAAAAAAAAAAAAAAAAAAAAAAAAAAWHF".

Definition sample_opts : SdkOptions :=
  {| contractId := sample_contract;
     rpcUrl := "https://soroban-testnet.stellar.org";
     networkPassphrase := "Test SDF Network ; September 2015" |}.

Definition sample_config : InitConfig :=
  {| signers := [ sample_account ];
     threshold := 1;
     spendingLimit := 1000;
     dailyLimit := 5000;
     weeklyLimit := 20000;
     timelockThreshold := 500;
     timelockDelay := 100 |}.

(** One call of each binding with arguments the constructors accept. *)
Definition sample_invocation (b : Binding) : Invocation :=
  match b with
  | B_initialize => I_initialize sample_account sample_config
  | B_proposeTransfer =>
      I_proposeTransfer sample_account sample_account sample_contract
                        250 "rent"
  | B_approveProposal => I_approveProposal sample_account 4
  | B_executeProposal => I_executeProposal sample_account 4
  | B_rejectProposal => I_rejectProposal sample_account 4
  | B_setRole => I_setRole sample_account sample_account Treasurer
  | B_addSigner => I_addSigner sample_account sample_account
  | B_removeSigner => I_removeSigner sample_account sample_account
  | B_updateLimits => I_updateLimits sample_account 1000 5000
  | B_updateThreshold => I_updateThreshold sample_account 2
  | B_schedulePayment =>
      I_schedulePayment sample_account sample_account sample_contract
                        250 "rent" 17280
  | B_executeRecurringPayment => I_executeRecurringPayment sample_account 7
  | B_getProposal => I_getProposal 4 sample_account
  | B_getRole => I_getRole sample_account sample_account
  | B_getTodaySpent => I_getTodaySpent sample_account
  | B_isSigner => I_isSigner sample_account sample_account
  end.

End Contract.

(** ** frontend/src/utils/export.ts *)
Module ExportUtils.

(** A cell value ([string | number | boolean | null | undefined], or
    anything else a [TabularRow] holds that [String] converts).  A number,
    or any other value, is carried by the string [String(value)] gives for
    it. *)
Inductive Cell : Set :=
| CUndefined
| CNull
| CString (s : string)
| CBoolean (b : bool)
| COther (rendered : string).

(** [String(value ?? '')]. *)
Definition cell_string (value : Cell) : string :=
  match value with
  | CUndefined | CNull => ""
  | CString s => s
  | CBoolean true => "true"
  | CBoolean false => "false"
  | COther r => r
  end.

(** A row object: its own keys as [Object.keys] lists them, and what
    [row[k]] evaluates to for any key. *)
Record Row : Set := mkRow {
  own_keys : list string;
  get : string -> Cell
}.

Definition quote : ascii := "034"%char.
Definition comma : ascii := ","%char.
Definition CR : ascii := "013"%char.
Definition LF : ascii := "010"%char.
Definition CRLF : string := String CR (String LF EmptyString).

(** The character class of the test in [escapeCsvCell]: double quote,
    comma, LF, CR. *)
Definition is_special (a : ascii) : bool :=
  Ascii.eqb a quote || Ascii.eqb a comma || Ascii.eqb a LF || Ascii.eqb a CR.

(** The regular-expression test of [escapeCsvCell]: some code unit of [s]
    is in the class. *)
Fixpoint needs_quoting (s : string) : bool :=
  match s with
  | EmptyString => false
  | String a s' => is_special a || needs_quoting s'
  end.

(** The global replace of [escapeCsvCell]: every double quote becomes two. *)
Fixpoint double_quotes (s : string) : string :=
  match s with
  | EmptyString => EmptyString
  | String a s' =>
      if Ascii.eqb a quote
      then String quote (String quote (double_quotes s'))
      else String a (double_quotes s')
  end.

(** [escapeCsvCell] on the string form. *)
Definition escape_string (s : string) : string :=
  if needs_quoting s
  then String quote (double_quotes s ++ String quote EmptyString)
  else s.

(** [escapeCsvCell(value)]. *)
Definition escapeCsvCell (value : Cell) : string :=
  escape_string (cell_string value).

(** [Array.prototype.join(sep)] on strings. *)
Fixpoint join (sep : string) (parts : list string) : string :=
  match parts with
  | [] => EmptyString
  | [p] => p
  | p :: ps => p ++ sep ++ join sep ps
  end.

Definition comma_sep : string := String comma EmptyString.

(** [keys.map(escapeCsvCell).join(',')]: the keys are strings. *)
Definition header_line (keys : list string) : string :=
  join comma_sep (map (fun k => escapeCsvCell (CString k)) keys).

(** [keys.map((k) => escapeCsvCell(row[k])).join(',')]. *)
Definition data_line (keys : list string) (row : Row) : string :=
  join comma_sep (map (fun k => escapeCsvCell (get row k)) keys).

(** [toCSV(rows, headers?)]. *)
Definition toCSV (rows : list Row) (headers : option (list string))
  : string :=
  match rows with
  | [] =>
      let h := default [] headers in
      header_line h ++ CRLF
  | row0 :: _ =>
      let keys := default (own_keys row0) headers in
      let lines := header_line keys :: map (data_line keys) rows in
      join CRLF lines
  end.

(** [toCsv(headers, rows)]. *)
Definition toCsv (headers : list string) (rows : list Row) : string :=
  let headerRow := header_line headers in
  let dataRows := map (data_line headers) rows in
  join CRLF (headerRow :: dataRows).

(** The cell strings of a table, as the exporters read them. *)
Definition header_cells (keys : list string) : list string := keys.

Definition data_cells (keys : list string) (row : Row) : list string :=
  map (fun k => cell_string (get row k)) keys.

Definition table_cells (keys : list string) (rows : list Row)
  : list (list string) :=
  header_cells keys :: map (data_cells keys) rows.

(** *** Standard CSV reading (RFC 4180)

    Not part of the exporter: the reader its output is meant for.
    Records are separated by CR LF and fields by commas; a field is either
    bare (no quote, comma, CR or LF in it) or enclosed in quotes, where a
    doubled quote stands for one quote.  The last record may or may not be
    followed by a line break (section 2, rule 2): a CR LF at the very end
    of the text ends the last record and starts no further one.  An empty
    line anywhere else is a record of one empty field.  Ill-formed input
    gives [None]. *)
Inductive Scan : Set :=
| FieldStart   (**r nothing of the field read yet *)
| Bare         (**r inside a bare field *)
| Quoted       (**r inside a quoted field *)
| QuoteSeen    (**r just after a quote inside a quoted field *)
| CRSeen.      (**r just after the CR that ends a record *)

(** [csv_scan st s = Some (f, fs, rs)]: reading [s] from state [st]
    completes the field being read with [f], the record being read with
    the fields [fs], and the table with the records [rs]. *)
Fixpoint csv_scan (st : Scan) (s : string)
  : option (string * list string * list (list string)) :=
  let end_field s' :=
    match csv_scan FieldStart s' with
    | Some (f, fs, rs) => Some (EmptyString, f :: fs, rs)
    | None => None
    end in
  let keep a st' s' :=
    match csv_scan st' s' with
    | Some (f, fs, rs) => Some (String a f, fs, rs)
    | None => None
    end in
  match s with
  | EmptyString =>
      match st with
      | FieldStart | Bare | QuoteSeen => Some (EmptyString, [], [])
      | Quoted | CRSeen => None
      end
  | String a s' =>
      match st with
      | FieldStart =>
          if Ascii.eqb a quote then csv_scan Quoted s'
          else if Ascii.eqb a comma then end_field s'
          else if Ascii.eqb a CR then csv_scan CRSeen s'
          else if Ascii.eqb a LF then None
          else keep a Bare s'
      | Bare =>
          if Ascii.eqb a quote then None
          else if Ascii.eqb a comma then end_field s'
          else if Ascii.eqb a CR then csv_scan CRSeen s'
          else if Ascii.eqb a LF then None
          else keep a Bare s'
      | Quoted =>
          if Ascii.eqb a quote then csv_scan QuoteSeen s'
          else keep a Quoted s'
      | QuoteSeen =>
          if Ascii.eqb a quote then keep a Quoted s'
          else if Ascii.eqb a comma then end_field s'
          else if Ascii.eqb a CR then csv_scan CRSeen s'
          else None
      | CRSeen =>
          if Ascii.eqb a LF then
            match s' with
            | EmptyString => Some (EmptyString, [], [])
            | String _ _ =>
                match csv_scan FieldStart s' with
                | Some (f, fs, rs) => Some (EmptyString, [], (f :: fs) :: rs)
                | None => None
                end
            end
          else None
      end
  end.

(** The table a CSV text denotes. *)
Definition csv_parse (s : string) : option (list (list string)) :=
  match csv_scan FieldStart s with
  | Some (f, fs, rs) => Some ((f :: fs) :: rs)
  | None => None
  end.

(** A single field read back. *)
Definition csv_unescape (s : string) : option string :=
  match csv_parse s with
  | Some [[f]] => Some f
  | _ => None
  end.


(** *** Notions used to state and prove the read-back property *)

(** What may follow a field: the end of the text, a comma, or the CR of a
    record separator. *)
Definition terminator (rest : string) : Prop :=
  rest = EmptyString \/
  (exists r, rest = String comma r) \/
  (exists r, rest = String CR r).

(** The fields and records that follow the field being read. *)
Definition tail_of (rest : string)
  : option (list string * list (list string)) :=
  match csv_scan Bare rest with
  | Some (_, fs, rs) => Some (fs, rs)
  | None => None
  end.

Definition with_field (f : string)
    (t : option (list string * list (list string)))
  : option (string * list string * list (list string)) :=
  match t with
  | Some (fs, rs) => Some (f, fs, rs)
  | None => None
  end.

Definition push (a : ascii)
    (r : option (string * list string * list (list string)))
  : option (string * list string * list (list string)) :=
  match r with
  | Some (f, fs, rs) => Some (String a f, fs, rs)
  | None => None
  end.

(** A line: the escaped cells joined by commas. *)
Definition escaped_line (cells : list string) : string :=
  join comma_sep (map escape_string cells).

(** The last record of the table is not a single empty cell, that is, the
    last line written for it is not empty. *)
Definition ends_with_text (keys : list string) (rows : list Row) : Prop :=
  List.last (table_cells keys rows) [] <> [EmptyString].

(** A row used to exercise the exporters. *)
Definition sample_row : Row :=
  {| own_keys := ["memo"; "amount"];
     get := fun k =>
              if String.eqb k "memo" then CString "rent, March"
              else if String.eqb k "amount" then COther "500"
              else CUndefined |}.

(** A row whose every cell is the empty string. *)
Definition blank_row : Row :=
  {| own_keys := ["h"]; get := fun _ => CString EmptyString |}.

End ExportUtils.

(** ** The authorization engine

    Modelled from the spec: the Soroban contract the SDK mirrors
    (contracts/vault) is not among this repository's files; the engine below
    follows the specification's data model (section 3) and component design
    (section 4). *)
Module Engine.
Import Types.
Local Open Scope Z_scope.

Definition Address : Set := string.

(** Modelled from the spec: the contract's result type is missing; every
    operation returns a value or one error code, and an error leaves the
    state as it was. *)
Inductive Result (A : Type) : Type :=
| Ok (a : A)
| Err (e : VaultErrorCode).
Arguments Ok {A} a.
Arguments Err {A} e.

Definition bind {A B : Type} (r : Result A) (k : A -> Result B) : Result B :=
  match r with
  | Ok a => k a
  | Err e => Err e
  end.

(** [require c e]: go on when [c] holds, fail with [e] otherwise. *)
Definition require (c : bool) (e : VaultErrorCode) : Result unit :=
  if c then Ok tt else Err e.

Definition from_option {A : Type} (o : option A) (e : VaultErrorCode)
  : Result A :=
  match o with
  | Some a => Ok a
  | None => Err e
  end.

Notation "'do' x <- r ; k" := (bind r (fun x => k))
  (at level 10, x name, r at level 100, k at level 200).
Notation "'check' c 'else' e ; k" := (bind (require c e) (fun _ => k))
  (at level 10, c at level 100, e at level 100, k at level 200).

(** Modelled from the spec: the contract's VaultConfiguration record
    (data model, section 3). *)
Record VaultConfiguration : Type := mkConfig {
  signers : list Address;
  threshold : Z;
  perProposalLimit : Z;
  dailyLimit : Z;
  weeklyLimit : Z;
  timelockThreshold : Z;
  timelockDelay : Z
}.

(** Modelled from the spec: the contract's Proposal record; [approvals] is
    a set of signer identities. *)
Record Proposal : Type := mkProposal {
  id : nat;
  proposer : Address;
  recipient : Address;
  token : Address;
  amount : Z;
  memo : string;
  approvals : gset Address;
  status : ProposalStatus;
  createdAt : Z;
  expiresAt : Z;
  unlockLedger : Z
}.

(** Modelled from the spec: the contract's RecurringPayment record. *)
Record RecurringPayment : Type := mkPayment {
  pay_id : nat;
  pay_proposer : Address;
  pay_recipient : Address;
  pay_token : Address;
  pay_amount : Z;
  pay_memo : string;
  interval : Z;
  nextDueAt : Z;
  executionCount : Z;
  active : bool
}.

(** Modelled from the spec: the contract's storage.  [config] is absent
    until initialization; proposals and payments live in arenas indexed by
    their sequential id; the spending records are keyed by period index. *)
Record State : Type := mkState {
  config : option VaultConfiguration;
  roles : gmap Address Role;
  proposals : list Proposal;
  payments : list RecurringPayment;
  dailySpent : gmap Z Z;
  weeklySpent : gmap Z Z
}.

Definition empty_state : State :=
  {| config := None; roles := ∅; proposals := []; payments := [];
     dailySpent := ∅; weeklySpent := ∅ |}.

Definition set_config (c : VaultConfiguration) (s : State) : State :=
  {| config := Some c; roles := roles s; proposals := proposals s;
     payments := payments s; dailySpent := dailySpent s;
     weeklySpent := weeklySpent s |}.

Definition set_roles (r : gmap Address Role) (s : State) : State :=
  {| config := config s; roles := r; proposals := proposals s;
     payments := payments s; dailySpent := dailySpent s;
     weeklySpent := weeklySpent s |}.

Definition set_proposals (ps : list Proposal) (s : State) : State :=
  {| config := config s; roles := roles s; proposals := ps;
     payments := payments s; dailySpent := dailySpent s;
     weeklySpent := weeklySpent s |}.

Definition set_payments (ps : list RecurringPayment) (s : State) : State :=
  {| config := config s; roles := roles s; proposals := proposals s;
     payments := ps; dailySpent := dailySpent s;
     weeklySpent := weeklySpent s |}.

Definition set_spent (d w : gmap Z Z) (s : State) : State :=
  {| config := config s; roles := roles s; proposals := proposals s;
     payments := payments s; dailySpent := d; weeklySpent := w |}.

Definition with_signers (l : list Address) (c : VaultConfiguration)
  : VaultConfiguration :=
  {| signers := l; threshold := threshold c;
     perProposalLimit := perProposalLimit c; dailyLimit := dailyLimit c;
     weeklyLimit := weeklyLimit c; timelockThreshold := timelockThreshold c;
     timelockDelay := timelockDelay c |}.

Definition with_threshold (n : Z) (c : VaultConfiguration)
  : VaultConfiguration :=
  {| signers := signers c; threshold := n;
     perProposalLimit := perProposalLimit c; dailyLimit := dailyLimit c;
     weeklyLimit := weeklyLimit c; timelockThreshold := timelockThreshold c;
     timelockDelay := timelockDelay c |}.

Definition with_limits (perProposal daily : Z) (c : VaultConfiguration)
  : VaultConfiguration :=
  {| signers := signers c; threshold := threshold c;
     perProposalLimit := perProposal; dailyLimit := daily;
     weeklyLimit := weeklyLimit c; timelockThreshold := timelockThreshold c;
     timelockDelay := timelockDelay c |}.

Definition with_approval (a : Address) (st : ProposalStatus) (p : Proposal)
  : Proposal :=
  {| id := id p; proposer := proposer p; recipient := recipient p;
     token := token p; amount := amount p; memo := memo p;
     approvals := {[ a ]} ∪ approvals p; status := st;
     createdAt := createdAt p; expiresAt := expiresAt p;
     unlockLedger := unlockLedger p |}.

Definition with_status (st : ProposalStatus) (p : Proposal) : Proposal :=
  {| id := id p; proposer := proposer p; recipient := recipient p;
     token := token p; amount := amount p; memo := memo p;
     approvals := approvals p; status := st;
     createdAt := createdAt p; expiresAt := expiresAt p;
     unlockLedger := unlockLedger p |}.

(** Modelled from the spec: the Transfer Executor wraps an external
    value-transfer interface; only its outcome is visible to the engine. *)
Inductive TransferOutcome : Set := Transferred | Insufficient | Refused.

(** What a call finds around it: the ledger sequence counter and the
    token interface. *)
Record Env : Type := mkEnv {
  now : Z;
  transfer : Address -> Address -> Z -> TransferOutcome
}.

Section Components.
(** Modelled from the spec: the contract's constants are missing; the
    spec names them without fixing all their values. *)
Variables dayLength weekLength expiryWindow minimumInterval : Z.

(** *** 4.1 Role Registry *)

(** Modelled from the spec: [getRole], default Member if absent. *)
Definition getRole (s : State) (a : Address) : Role :=
  default Member (roles s !! a).

(** Modelled from the spec: [isSigner]. *)
Definition isSigner (s : State) (a : Address) : bool :=
  match config s with
  | Some c => bool_decide (a ∈ signers c)
  | None => false
  end.

Definition is_admin (s : State) (a : Address) : bool :=
  match getRole s a with Admin => true | _ => false end.

(** Role at least Treasurer. *)
Definition can_propose (s : State) (a : Address) : bool :=
  match getRole s a with Member => false | _ => true end.

(** Modelled from the spec: [setRole(caller, target, role)]. *)
Definition setRole (caller target : Address) (role : Role) (s : State)
  : Result State :=
  check is_admin s caller else Unauthorized;
  Ok (set_roles (<[target := role]> (roles s)) s).

(** *** 4.2 Vault Configuration Store *)

Definition the_config (s : State) : Result VaultConfiguration :=
  from_option (config s) NotInitialized.

Definition size_of {A} (l : list A) : Z := Z.of_nat (length l).

(** Modelled from the spec: [initialize(admin, config)]. *)
Definition initialize (admin : Address) (c : VaultConfiguration)
    (s : State) : Result State :=
  match config s with
  | Some _ => Err AlreadyInitialized
  | None =>
      check negb (size_of (signers c) =? 0) else NoSigners;
      check 1 <=? threshold c else ThresholdTooLow;
      check threshold c <=? size_of (signers c) else ThresholdTooHigh;
      check (0 <=? perProposalLimit c) && (0 <=? dailyLimit c)
            && (0 <=? weeklyLimit c) && (0 <=? timelockThreshold c)
        else InvalidAmount;
      Ok (set_roles (<[admin := Admin]> (roles s)) (set_config c s))
  end.

(** Modelled from the spec: [addSigner]. *)
Definition addSigner (caller a : Address) (s : State) : Result State :=
  check is_admin s caller else Unauthorized;
  do c <- the_config s;
  check negb (bool_decide (a ∈ signers c)) else SignerAlreadyExists;
  Ok (set_config (with_signers (signers c ++ [a]) c) s).

(** No proposal holds an approval of [a]. *)
Definition has_not_approved (a : Address) (s : State) : bool :=
  forallb (fun p => negb (bool_decide (a ∈ approvals p))) (proposals s).

(** Modelled from the spec: [removeSigner].  Section 3 requires at all
    times that the approvals of every proposal are signers, that approvals
    never shrink and that a proposal in a terminal status is never mutated;
    together these leave one outcome for the removal of a signer whose
    approval some proposal holds: it is refused.  The spec names no code
    for that refusal; [CannotRemoveSigner], the code of the other refused
    removal, is used. *)
Definition removeSigner (caller a : Address) (s : State) : Result State :=
  check is_admin s caller else Unauthorized;
  do c <- the_config s;
  check bool_decide (a ∈ signers c) else SignerNotFound;
  let remaining := filter (fun x => x ≠ a) (signers c) in
  check threshold c <=? size_of remaining else CannotRemoveSigner;
  check has_not_approved a s else CannotRemoveSigner;
  Ok (set_config (with_signers remaining c) s).

(** Modelled from the spec: [updateThreshold]. *)
Definition updateThreshold (caller : Address) (n : Z) (s : State)
  : Result State :=
  check is_admin s caller else Unauthorized;
  do c <- the_config s;
  check 1 <=? n else ThresholdTooLow;
  check n <=? size_of (signers c) else ThresholdTooHigh;
  Ok (set_config (with_threshold n c) s).

(** Modelled from the spec: [updateLimits]. *)
Definition updateLimits (caller : Address) (perProposal daily : Z)
    (s : State) : Result State :=
  check is_admin s caller else Unauthorized;
  do c <- the_config s;
  check (0 <=? perProposal) && (0 <=? daily) else InvalidAmount;
  Ok (set_config (with_limits perProposal daily c) s).

(** *** 4.3 Spending Limit Tracker *)

Definition dayKey (t : Z) : Z := t / dayLength.
Definition weekKey (t : Z) : Z := t / weekLength.

Definition spent (m : gmap Z Z) (k : Z) : Z := default 0 (m !! k).

(** Modelled from the spec: [checkAndReserve(amount, now)], the check. *)
Definition checkAndReserve (c : VaultConfiguration) (s : State)
    (amount t : Z) : Result unit :=
  check spent (dailySpent s) (dayKey t) + amount <=? dailyLimit c
    else ExceedsDailyLimit;
  check spent (weeklySpent s) (weekKey t) + amount <=? weeklyLimit c
    else ExceedsWeeklyLimit;
  Ok tt.

(** Modelled from the spec: the commit after a successful transfer. *)
Definition commit_spent (s : State) (amount t : Z) : State :=
  set_spent
    (<[dayKey t := spent (dailySpent s) (dayKey t) + amount]>
       (dailySpent s))
    (<[weekKey t := spent (weeklySpent s) (weekKey t) + amount]>
       (weeklySpent s))
    s.

(** *** 4.4 Timelock Gate *)

(** Modelled from the spec: [computeUnlock]. *)
Definition computeUnlock (c : VaultConfiguration) (amount t : Z) : Z :=
  if amount <=? timelockThreshold c then 0 else t + timelockDelay c.

(** Modelled from the spec: [isUnlocked]. *)
Definition isUnlocked (unlock t : Z) : bool :=
  (unlock =? 0) || (unlock <=? t).

(** *** 4.7 Transfer Executor *)

(** Modelled from the spec: one call to the token interface, failures
    surfaced as error codes. *)
Definition execute_transfer (env : Env) (tok rcpt : Address) (amt : Z)
  : Result unit :=
  match transfer env tok rcpt amt with
  | Transferred => Ok tt
  | Insufficient => Err InsufficientBalance
  | Refused => Err TransferFailed
  end.

(** *** 4.5 Proposal Engine *)

Definition status_is (st : ProposalStatus) (p : Proposal) : bool :=
  ProposalStatus_value (status p) =? ProposalStatus_value st.

(** Modelled from the spec: [proposeTransfer]; the result is the new
    state and the id allocated. *)
Definition proposeTransfer (env : Env)
    (caller rcpt tok : Address) (amt : Z) (mm : string) (s : State)
  : Result (State * nat) :=
  do c <- the_config s;
  check can_propose s caller else InsufficientRole;
  check 0 <? amt else InvalidAmount;
  check amt <=? perProposalLimit c else ExceedsProposalLimit;
  let new_id := length (proposals s) in
  let p := {| id := new_id; proposer := caller; recipient := rcpt;
              token := tok; amount := amt; memo := mm;
              approvals := ∅; status := Pending;
              createdAt := now env;
              expiresAt := now env + expiryWindow;
              unlockLedger := computeUnlock c amt (now env) |} in
  Ok (set_proposals (proposals s ++ [p]) s, new_id).

(** Modelled from the spec: [approveProposal]. *)
Definition approveProposal (env : Env) (signer : Address) (pid : nat)
    (s : State) : Result State :=
  do c <- the_config s;
  do p <- from_option (proposals s !! pid) ProposalNotFound;
  check bool_decide (signer ∈ signers c) else NotASigner;
  check can_propose s signer else InsufficientRole;
  check status_is Pending p else ProposalNotPending;
  check now env <=? expiresAt p else ProposalExpired;
  check negb (bool_decide (signer ∈ approvals p)) else AlreadyApproved;
  let votes := {[ signer ]} ∪ approvals p in
  let st := if threshold c <=? Z.of_nat (size votes)
            then Approved else Pending in
  Ok (set_proposals (<[pid := with_approval signer st p]> (proposals s)) s).

(** Modelled from the spec: [rejectProposal]. *)
Definition rejectProposal (caller : Address) (pid : nat) (s : State)
  : Result State :=
  do p <- from_option (proposals s !! pid) ProposalNotFound;
  check String.eqb caller (proposer p) || is_admin s caller
    else Unauthorized;
  check status_is Pending p else ProposalNotPending;
  Ok (set_proposals (<[pid := with_status Rejected p]> (proposals s)) s).

(** Modelled from the spec: [executeProposal]. *)
Definition executeProposal (env : Env) (executor : Address) (pid : nat)
    (s : State) : Result State :=
  do c <- the_config s;
  do p <- from_option (proposals s !! pid) ProposalNotFound;
  check negb (status_is Executed p) else ProposalAlreadyExecuted;
  check status_is Approved p else ProposalNotApproved;
  check now env <=? expiresAt p else ProposalExpired;
  check isUnlocked (unlockLedger p) (now env) else TimelockNotExpired;
  do _ <- checkAndReserve c s (amount p) (now env);
  do _ <- execute_transfer env (token p) (recipient p) (amount p);
  let s' := commit_spent s (amount p) (now env) in
  Ok (set_proposals (<[pid := with_status Executed p]> (proposals s')) s').

(** *** 4.6 Recurring Payment Scheduler *)

(** Modelled from the spec: [schedulePayment]. *)
Definition schedulePayment (env : Env)
    (caller rcpt tok : Address) (amt : Z) (mm : string) (ival : Z)
    (s : State) : Result (State * nat) :=
  do _ <- the_config s;
  check can_propose s caller else InsufficientRole;
  check 0 <? amt else InvalidAmount;
  check minimumInterval <=? ival else IntervalTooShort;
  let new_id := length (payments s) in
  let p := {| pay_id := new_id; pay_proposer := caller;
              pay_recipient := rcpt; pay_token := tok;
              pay_amount := amt; pay_memo := mm; interval := ival;
              nextDueAt := now env + ival; executionCount := 0;
              active := true |} in
  Ok (set_payments (payments s ++ [p]) s, new_id).

Definition after_execution (p : RecurringPayment) : RecurringPayment :=
  {| pay_id := pay_id p; pay_proposer := pay_proposer p;
     pay_recipient := pay_recipient p; pay_token := pay_token p;
     pay_amount := pay_amount p; pay_memo := pay_memo p;
     interval := interval p; nextDueAt := nextDueAt p + interval p;
     executionCount := executionCount p + 1; active := active p |}.

(** Modelled from the spec: [executeRecurringPayment].  The spec names
    no error code for an unknown or inactive schedule; the code of a
    missing record is used for both. *)
Definition executeRecurringPayment (env : Env) (caller : Address)
    (pid : nat) (s : State) : Result State :=
  do c <- the_config s;
  do p <- from_option (payments s !! pid) ProposalNotFound;
  check active p else ProposalNotFound;
  check nextDueAt p <=? now env else TimelockNotExpired;
  do _ <- checkAndReserve c s (pay_amount p) (now env);
  do _ <- execute_transfer env (pay_token p) (pay_recipient p)
                           (pay_amount p);
  let s' := commit_spent s (pay_amount p) (now env) in
  Ok (set_payments (<[pid := after_execution p]> (payments s')) s').

(** *** The call surface *)

(** Modelled from the spec: the one-time initialization and the eleven
    mutating operations of section 6. *)
Inductive Call : Type :=
| Initialize (admin : Address) (c : VaultConfiguration)
| SetRole (caller target : Address) (role : Role)
| AddSigner (caller a : Address)
| RemoveSigner (caller a : Address)
| UpdateThreshold (caller : Address) (n : Z)
| UpdateLimits (caller : Address) (perProposal daily : Z)
| ProposeTransfer (caller rcpt tok : Address) (amt : Z) (mm : string)
| ApproveProposal (signer : Address) (pid : nat)
| RejectProposal (caller : Address) (pid : nat)
| ExecuteProposal (executor : Address) (pid : nat)
| SchedulePayment (caller rcpt tok : Address) (amt : Z) (mm : string)
                  (ival : Z)
| ExecuteRecurringPayment (caller : Address) (pid : nat).

Definition fst_result {A B} (r : Result (A * B)) : Result A :=
  do x <- r; Ok (fst x).

(** One invocation: the new state, or the error that aborted it. *)
Definition step (env : Env) (s : State) (call : Call) : Result State :=
  match call with
  | Initialize admin c => initialize admin c s
  | SetRole caller target role => setRole caller target role s
  | AddSigner caller a => addSigner caller a s
  | RemoveSigner caller a => removeSigner caller a s
  | UpdateThreshold caller n => updateThreshold caller n s
  | UpdateLimits caller pp d => updateLimits caller pp d s
  | ProposeTransfer caller r t a m =>
      fst_result (proposeTransfer env caller r t a m s)
  | ApproveProposal signer pid => approveProposal env signer pid s
  | RejectProposal caller pid => rejectProposal caller pid s
  | ExecuteProposal ex pid => executeProposal env ex pid s
  | SchedulePayment caller r t a m i =>
      fst_result (schedulePayment env caller r t a m i s)
  | ExecuteRecurringPayment caller pid =>
      executeRecurringPayment env caller pid s
  end.

(** The state after a call: an error commits nothing. *)
Definition apply_call (env : Env) (s : State) (call : Call) : State :=
  match step env s call with
  | Ok s' => s'
  | Err _ => s
  end.

(** A sequence of calls, each with the environment it runs in. *)
Definition run (s : State) (calls : list (Env * Call)) : State :=
  fold_left (fun acc ec => apply_call (fst ec) acc (snd ec)) calls s.

(** The configured threshold; 0 before initialization. *)
Definition current_threshold (s : State) : Z :=
  match config s with
  | Some c => threshold c
  | None => 0
  end.

(** The number of distinct approvals of a proposal. *)
Definition approval_count (p : Proposal) : Z :=
  Z.of_nat (size (approvals p)).

(** The property of section 8, as a predicate on states. *)
Definition approved_meets_threshold (s : State) : Prop :=
  forall pid p, proposals s !! pid = Some p -> status p = Approved ->
                current_threshold s <= approval_count p.

(** The approvals of a proposal meet the configured threshold. *)
Definition meets_threshold (s : State) (p : Proposal) : Prop :=
  current_threshold s <= approval_count p.

(** A call that raises the configured threshold: an [updateThreshold]
    after which the threshold is higher than it was before; an attempt that
    is refused changes nothing and raises nothing. *)
Definition raises_threshold (env : Env) (s : State) (call : Call) : bool :=
  match call with
  | UpdateThreshold _ _ =>
      current_threshold s <? current_threshold (apply_call env s call)
  | _ => false
  end.

(** A state that has no configuration has no proposals either. *)
Definition uninitialized_empty (s : State) : Prop :=
  config s = None -> proposals s = [].

(** The invariant of section 3: the approvals of every proposal are
    signers. *)
Definition approvals_are_signers (s : State) : Prop :=
  forall pid p a,
    proposals s !! pid = Some p -> a ∈ approvals p -> isSigner s a = true.

(** No call of the sequence raises the threshold at the state it runs
    in. *)
Fixpoint never_raises (s : State) (calls : list (Env * Call)) : Prop :=
  match calls with
  | [] => True
  | (env, call) :: rest =>
      raises_threshold env s call = false /\
      never_raises (apply_call env s call) rest
  end.

End Components.

(** *** A scenario: the threshold is raised after an approval

    Three signers, threshold 2; A proposes, B and C approve, and the
    administrator then sets the threshold to 3.  The constants are a day of
    17280 ledgers, a week and an expiry window of 120960, and a minimum
    interval of 720. *)
Definition scenario_config : VaultConfiguration :=
  {| signers := ["A"; "B"; "C"]; threshold := 2;
     perProposalLimit := 1000; dailyLimit := 1000; weeklyLimit := 5000;
     timelockThreshold := 800; timelockDelay := 100 |}.

Definition scenario_env : Env :=
  {| now := 10; transfer := fun _ _ _ => Transferred |}.

Definition scenario_approved : list (Env * Call) :=
  [ (scenario_env, Initialize "A" scenario_config);
    (scenario_env, SetRole "A" "B" Treasurer);
    (scenario_env, SetRole "A" "C" Treasurer);
    (scenario_env, ProposeTransfer "A" "R" "T" 500 "memo");
    (scenario_env, ApproveProposal "B" 0);
    (scenario_env, ApproveProposal "C" 0) ].

Definition scenario_raised : list (Env * Call) :=
  scenario_approved ++ [ (scenario_env, UpdateThreshold "A" 3) ].

Definition scenario_run (calls : list (Env * Call)) : State :=
  run 17280 120960 120960 720 empty_state calls.

Definition scenario_step (env : Env) (s : State) (call : Call)
  : Result State :=
  step 17280 120960 120960 720 env s call.

(** The error a call fails with, if it fails. *)
Definition error_of {A : Type} (r : Result A) : option VaultErrorCode :=
  match r with
  | Ok _ => None
  | Err e => Some e
  end.

(** The scenarios of section 8: the approved proposal is executed, then a
    second one of 600 is proposed and approved on the same day; and a
    payment is scheduled every 720 ledgers. *)
Definition scenario_executed : list (Env * Call) :=
  scenario_approved ++ [ (scenario_env, ExecuteProposal "B" 0) ].

Definition scenario_second : list (Env * Call) :=
  scenario_executed ++
  [ (scenario_env, ProposeTransfer "A" "R" "T" 600 "second");
    (scenario_env, ApproveProposal "B" 1);
    (scenario_env, ApproveProposal "C" 1) ].

Definition scenario_scheduled : list (Env * Call) :=
  scenario_approved ++
  [ (scenario_env, SchedulePayment "A" "R" "T" 5 "rent" 720) ].

Definition scenario_env_at (t : Z) : Env :=
  {| now := t; transfer := fun _ _ _ => Transferred |}.

(** The vault right after its initialization, before any proposal. *)
Definition scenario_initialized : list (Env * Call) :=
  [ (scenario_env, Initialize "A" scenario_config) ].

End Engine.

(** Every code unit of [s] satisfies [p]. *)
Fixpoint string_forall (p : ascii -> bool) (s : string) : bool :=
  match s with
  | EmptyString => true
  | String a s' => p a && string_forall p s'
  end.

(** ** sdk/src/utils.ts and contract.ts: simulation, signing, submission *)
Module Transport.
Import Types Utils Contract.

(** [function parseSimulationError(errorMessage)]. *)
Definition parseSimulationError (errorMessage : string)
  : Completion JsValue :=
  parseError (JsError errorMessage).

(** What [server.simulateTransaction] answers: an error with its text, a
    success with the prepared transaction it lets assemble and the value the
    call returned (if any), or a response that is neither, with the message
    of the [Error] that [assembleTransaction] throws for it. *)
Inductive SimulationResponse : Type :=
| SimulationError (error : string)
| SimulationSuccess (preparedXdr : string) (retval : option ScVal)
| SimulationOther (assemblyError : string).

(** [buildTransaction(sourcePublicKey, operation, opts)] from the
    simulation's answer on: the account lookup and the assembly are the
    server's and the SDK's. *)
Definition buildTransaction (sim : SimulationResponse) : Completion string :=
  match sim with
  | SimulationError error => throw (parseSimulationError error)
  | SimulationSuccess prepared _ => Returned prepared
  | SimulationOther assemblyError => Thrown (JsError assemblyError)
  end.

(** [simulateReadOnly(operation, opts, sourceKey)] from the simulation's
    answer on; [decodeScVal] is stellar-sdk's and left as it is. *)
Definition simulateReadOnly (sim : SimulationResponse) : Completion ScVal :=
  match sim with
  | SimulationError error => throw (parseError (JsError error))
  | SimulationSuccess _ (Some retval) => Returned retval
  | SimulationSuccess _ None | SimulationOther _ =>
      Thrown (JsError "Simulation returned no result")
  end.

(** What a binding hands back: the prepared transaction, or the decoded
    value. *)
Inductive Outcome : Type :=
| PreparedXdr (xdr : string)
| Decoded (value : ScVal).

(** A request carried out against the server's answer to its simulation. *)
Definition fulfil (sim : SimulationResponse) (r : Request)
  : Completion Outcome :=
  match r with
  | BuildTransaction _ _ _ =>
      match buildTransaction sim with
      | Returned x => Returned (PreparedXdr x)
      | Thrown e => Thrown e
      end
  | SimulateReadOnly _ _ _ =>
      match simulateReadOnly sim with
      | Returned v => Returned (Decoded v)
      | Thrown e => Thrown e
      end
  end.

(** [sendResult.status] of [server.sendTransaction]. *)
Inductive SendStatus : Set :=
  SEND_PENDING | SEND_DUPLICATE | SEND_TRY_AGAIN_LATER | SEND_ERROR.

Record SendTransactionResponse : Set := mkSend {
  send_status : SendStatus;
  send_hash : string;
  send_errorResult : string   (**r as the template literal renders it *)
}.

(** [SorobanRpc.Api.GetTransactionStatus]. *)
Inductive GetTransactionStatus : Set := SUCCESS | NOT_FOUND | FAILED.

(** The wallet and the server, as [signAndSubmit] talks to them:
    [getTransaction k hash] is the answer to the poll number [k]. *)
Record Network : Type := mkNetwork {
  signTransaction : string -> Completion string;
  sendTransaction : string -> Completion SendTransactionResponse;
  getTransaction : nat -> string -> Completion GetTransactionStatus
}.

(** The polling loop of [signAndSubmit]: [remaining] iterations are left
    and [i] polls were made; each poll follows a sleep of 2000 ms.  The
    result comes with the number of polls made. *)
Fixpoint poll (net : Network) (hash : string) (remaining i : nat)
  : Completion string * nat :=
  match remaining with
  | O =>
      (Thrown (JsError ("Transaction not confirmed after 60 seconds: "
                        ++ hash)), i)
  | S r =>
      match getTransaction net i hash with
      | Thrown e => (Thrown e, S i)
      | Returned SUCCESS => (Returned hash, S i)
      | Returned FAILED =>
          (Thrown (JsError ("Transaction reverted: " ++ hash)), S i)
      | Returned NOT_FOUND => poll net hash r (S i)
      end
  end.

(** [signAndSubmit(txXdr, opts)], with the number of polls it made. *)
Definition signAndSubmit (net : Network) (txXdr : string)
  : Completion string * nat :=
  match signTransaction net txXdr with
  | Thrown e => (Thrown e, O)
  | Returned signedXdr =>
      match sendTransaction net signedXdr with
      | Thrown e => (Thrown e, O)
      | Returned sendResult =>
          match send_status sendResult with
          | SEND_ERROR =>
              (Thrown (JsError ("Transaction failed: "
                                ++ send_errorResult sendResult)), O)
          | _ => poll net (send_hash sendResult) 30 O
          end
      end
  end.

(** The time slept, in milliseconds, for a number of polls. *)
Definition slept_ms (polls : nat) : Z := 2000 * Z.of_nat polls.

End Transport.

(** ** Naming of the contract functions *)
Module Naming.
Import Types Utils.

Definition is_upper (a : ascii) : bool :=
  let n := N_of_ascii a in ((65 <=? n) && (n <=? 90))%N.

Definition is_lower (a : ascii) : bool :=
  let n := N_of_ascii a in ((97 <=? n) && (n <=? 122))%N.

(** An ASCII capital as the small letter; other code units unchanged. *)
Definition lower_ascii (a : ascii) : ascii :=
  if is_upper a then ascii_of_N (N_of_ascii a + 32) else a.

(** A camelCase name written in snake_case: every capital becomes an
    underscore followed by the small letter. *)
Fixpoint snake_case (s : string) : string :=
  match s with
  | EmptyString => EmptyString
  | String a s' =>
      if is_upper a
      then String "_" (String (lower_ascii a) (snake_case s'))
      else String a (snake_case s')
  end.

End Naming.

(** ** frontend/src/utils/export.ts, continued *)
Module ExportTools.
Import Types Utils ExportUtils.

(** [Array.prototype.slice(0, end)] on an array of [len] elements, for an
    integer [end]: how many elements it keeps.  A negative [end] counts from
    the end of the array. *)
Definition slice_count (len : nat) (end_ : Z) : nat :=
  if (end_ <? 0)%Z
  then Z.to_nat (Z.max (Z.of_nat len + end_) 0)
  else Z.to_nat (Z.min end_ (Z.of_nat len)).

(** [previewRows(rows, limit = 10)]: [None] is an omitted limit. *)
Definition previewRows {T : Type} (rows : list T) (limit : option Z) : list T :=
  take (slice_count (length rows) (default 10%Z limit)) rows.

End ExportTools.

(** ** frontend/src/utils/export.ts: [timestampedFilename] *)
Module Filename.
Import Types Utils Naming.

(** [extension: 'csv' | 'json' | 'pdf']. *)
Inductive Extension : Set := ext_csv | ext_json | ext_pdf.

Definition Extension_text (e : Extension) : string :=
  match e with
  | ext_csv => "csv"
  | ext_json => "json"
  | ext_pdf => "pdf"
  end.

(** [str.replace(/[-:]/g, '')]. *)
Fixpoint remove_dash_colon (s : string) : string :=
  match s with
  | EmptyString => EmptyString
  | String a s' =>
      if Ascii.eqb a "-" || Ascii.eqb a ":"
      then remove_dash_colon s'
      else String a (remove_dash_colon s')
  end.

(** The code units the regular expression dot does not match (LF and CR,
    among the code units below 256). *)
Definition is_line_terminator (a : ascii) : bool :=
  Ascii.eqb a "010" || Ascii.eqb a "013".

(** What is left of [s] from its first line terminator on. *)
Fixpoint rest_of_line (s : string) : string :=
  match s with
  | EmptyString => EmptyString
  | String a s' => if is_line_terminator a then s else rest_of_line s'
  end.

(** [str.replace(/\..+/, '')]: the leftmost full stop that is followed by
    at least one code unit of the same line goes, with the rest of that
    line. *)
Fixpoint cut_fraction (s : string) : string :=
  match s with
  | EmptyString => EmptyString
  | String a s' =>
      if Ascii.eqb a "."
      then match s' with
           | EmptyString => String a EmptyString
           | String b s'' =>
               if is_line_terminator b
               then String a (cut_fraction s')
               else rest_of_line s''
           end
      else String a (cut_fraction s')
  end.

(** [str.replace('T', '_')]: the first T only. *)
Fixpoint replace_first_T (s : string) : string :=
  match s with
  | EmptyString => EmptyString
  | String a s' =>
      if Ascii.eqb a "T" then String "_" s' else String a (replace_first_T s')
  end.

(** The class [[a-z0-9]] under the flag [i]: the ASCII letters of either
    case and the digits. *)
Definition is_alnum (a : ascii) : bool :=
  is_lower a || is_upper a || is_digit a.

(** [prefix.replace(/[^a-z0-9]/gi, '_')]. *)
Fixpoint replace_non_alnum (s : string) : string :=
  match s with
  | EmptyString => EmptyString
  | String a s' =>
      String (if is_alnum a then a else "_"%char) (replace_non_alnum s')
  end.

(** [toLowerCase] of one code unit below 256: the ASCII capitals and the
    Latin-1 capitals (192 to 222 but 215) move up by 32. *)
Definition toLowerCase_unit (a : ascii) : ascii :=
  let n := N_of_ascii a in
  if ((65 <=? n) && (n <=? 90)
      || (192 <=? n) && (n <=? 222) && negb (n =? 215))%N
  then ascii_of_N (n + 32)
  else a.

Fixpoint toLowerCase (s : string) : string :=
  match s with
  | EmptyString => EmptyString
  | String a s' => String (toLowerCase_unit a) (toLowerCase s')
  end.

(** The [safe] part of the file name. *)
Definition safe_prefix (prefix : string) : string :=
  toLowerCase (replace_non_alnum prefix).

(** The [ts] part, from what [now.toISOString()] gave. *)
Definition timestamp_text (iso : string) : string :=
  replace_first_T (cut_fraction (remove_dash_colon iso)).

(** [timestampedFilename(prefix, extension)]; [iso] is what
    [new Date().toISOString()] gives at the call. *)
Definition timestampedFilename (iso prefix : string) (extension : Extension)
  : string :=
  safe_prefix prefix ++ "_" ++ timestamp_text iso ++ "."
    ++ Extension_text extension.

(** A code unit a file name's [safe] part may hold. *)
Definition is_safe_unit (a : ascii) : bool :=
  is_lower a || is_digit a || Ascii.eqb a "_".

End Filename.

(** ** frontend/src/utils/export.ts: [filterByDateRange] *)
Module DateFilter.
Import Types Utils.

(** A bound of the range ([start] or [end]): absent (null, undefined or the
    empty string), present but not a date ([getTime()] is NaN), or present
    with its time in milliseconds. *)
Inductive Bound : Set :=
| NoBound
| InvalidBound
| BoundAt (ms : Z).

(** [!bound]. *)
Definition is_absent (b : Bound) : bool :=
  match b with
  | NoBound => true
  | _ => false
  end.

(** [start && ms < startMs]; a comparison with NaN is false. *)
Definition before_start (start : Bound) (ms : Z) : bool :=
  match start with
  | BoundAt startMs => (ms <? startMs)%Z
  | _ => false
  end.

(** [end && ms > endMs]. *)
Definition after_end (end_ : Bound) (ms : Z) : bool :=
  match end_ with
  | BoundAt endMs => (endMs <? ms)%Z
  | _ => false
  end.

Section Rows.
(** The rows, and the time read off the field [dateKey] of a row: [None]
    when the field is null or undefined or does not give a date (NaN). *)
Variable T : Type.
Variable time_of : T -> option Z.

(** The predicate handed to [rows.filter]. *)
Definition in_range (start end_ : Bound) (row : T) : bool :=
  match time_of row with
  | None => false
  | Some ms => negb (before_start start ms) && negb (after_end end_ ms)
  end.

(** [filterByDateRange(rows, dateKey, start, end)]. *)
Definition filterByDateRange (rows : list T) (start end_ : Bound) : list T :=
  if is_absent start && is_absent end_
  then rows
  else List.filter (in_range start end_) rows.

End Rows.

(** The later of two starts and the earlier of two ends; an absent or
    invalid bound does not bind. *)
Definition later_start (a b : Bound) : Bound :=
  match a, b with
  | BoundAt x, BoundAt y => BoundAt (Z.max x y)
  | BoundAt x, _ => BoundAt x
  | _, BoundAt y => BoundAt y
  | InvalidBound, _ | _, InvalidBound => InvalidBound
  | NoBound, NoBound => NoBound
  end.

Definition earlier_end (a b : Bound) : Bound :=
  match a, b with
  | BoundAt x, BoundAt y => BoundAt (Z.min x y)
  | BoundAt x, _ => BoundAt x
  | _, BoundAt y => BoundAt y
  | InvalidBound, _ | _, InvalidBound => InvalidBound
  | NoBound, NoBound => NoBound
  end.

End DateFilter.

(** ** frontend/src/utils/export.ts: [sanitizeForPdf]

    The code units this function looks for lie above 255, so here a string
    is the list of its 16-bit code units. *)
Module PdfText.
Import Types Utils.

Definition ustring : Set := list N.

(** The class of the first replace: U+200B to U+200D, and U+FEFF. *)
Definition is_zero_width (u : N) : bool :=
  ((8203 <=? u) && (u <=? 8205) || (u =? 65279))%N.

Definition NBSP : N := 160%N.
Definition SPACE : N := 32%N.

(** What [trim] removes: white space and line terminators. *)
Definition is_trimmed_unit (u : N) : bool :=
  ((9 <=? u) && (u <=? 13) || (u =? 32) || (u =? 160) || (u =? 5760)
   || (8192 <=? u) && (u <=? 8202) || (u =? 8232) || (u =? 8233)
   || (u =? 8239) || (u =? 8287) || (u =? 12288) || (u =? 65279))%N.

(** The first replace: every zero-width code unit goes. *)
Definition strip_zero_width (s : ustring) : ustring :=
  List.filter (fun u => negb (is_zero_width u)) s.

(** The second replace: every no-break space becomes a space. *)
Definition nbsp_to_space (s : ustring) : ustring :=
  map (fun u => if (u =? NBSP)%N then SPACE else u) s.

Fixpoint trimStart (s : ustring) : ustring :=
  match s with
  | [] => []
  | u :: s' => if is_trimmed_unit u then trimStart s' else s
  end.

Definition trimEnd (s : ustring) : ustring := rev (trimStart (rev s)).

(** [.trim()]. *)
Definition trim (s : ustring) : ustring := trimEnd (trimStart s).

(** [sanitizeForPdf(text)]; [None] is a null or undefined [text], which
    [String(text ?? '')] reads as the empty string. *)
Definition sanitizeForPdf (text : option ustring) : ustring :=
  trim (nbsp_to_space (strip_zero_width (default [] text))).

(** No zero-width code unit and no no-break space. *)
Definition is_clean_unit (u : N) : bool :=
  negb (is_zero_width u) && negb (u =? NBSP)%N.

End PdfText.

(** ** frontend/src/utils/exportHistory.ts *)
Module ExportHistory.
Import Types Utils.

(** [MAX_ITEMS]. *)
Definition MAX_ITEMS : nat := 50.

Section Items.
(** The fields of an item this module only carries along (filename,
    dataType, format, vaultName, ...). *)
Variable Payload : Type.

(** An item as it is stored or returned: the fields the module reads or
    writes may be missing (or null) in what was stored. *)
Record Item : Type := mkItem {
  id : option string;
  exportedAt : option string;
  timestamp : option string;
  payload : Payload
}.

(** The argument of [saveExportHistoryItem]: an item without id and
    timestamp, [exportedAt] optional. *)
Record NewItem : Type := mkNewItem {
  new_exportedAt : option string;
  new_payload : Payload
}.

(** What sits under [STORAGE_KEY]: nothing (null or the empty string), a
    text [JSON.parse] rejects or a store that cannot be read, a value that
    is not an array, or an array.  A stored text is taken by the value it
    parses to.  An element of a stored array is [None] when it is null, and
    otherwise the item whose fields are the properties read from it (for an
    element that is no object, none of the three fields the module reads is
    set). *)
Inductive Stored : Type :=
| Missing
| Unreadable
| NotAnArray
| Saved (elements : list (option Item)).

(** [localStorage]: what is stored, and whether a write goes through (a
    full or disabled store throws). *)
Record Storage : Type := mkStorage {
  stored : Stored;
  writable : bool
}.

(** The callback of [arr.map] in [getExportHistory]; [now] is what
    [new Date().toISOString()] gives. *)
Definition normalize (now : string) (item : Item) : Item :=
  let e := default (default now (timestamp item)) (exportedAt item) in
  {| id := id item; exportedAt := Some e; timestamp := Some e;
     payload := payload item |}.

(** The callback applied to an element of the parsed array: reading a
    property of null throws a TypeError ([None]). *)
Definition normalize_element (now : string) (element : option Item)
  : option Item :=
  match element with
  | Some item => Some (normalize now item)
  | None => None
  end.

(** [arr.map(f)] for a callback that may throw: the first throw ends
    it. *)
Fixpoint map_or_throw {A B : Type} (f : A -> option B) (l : list A)
  : option (list B) :=
  match l with
  | [] => Some []
  | a :: l' =>
      match f a with
      | None => None
      | Some b =>
          match map_or_throw f l' with
          | None => None
          | Some bs => Some (b :: bs)
          end
      end
  end.

(** [getExportHistory()]: whatever is thrown inside is caught and gives
    the empty history. *)
Definition getExportHistory (now : string) (st : Storage) : list Item :=
  match stored st with
  | Saved elements =>
      match map_or_throw (normalize_element now) elements with
      | Some items => items
      | None => []
      end
  | Missing | Unreadable | NotAnArray => []
  end.

(** The item [saveExportHistoryItem] builds; [fresh_id] is the id made of
    the clock and a random number. *)
Definition new_item (now fresh_id : string) (item : NewItem) : Item :=
  let e := default now (new_exportedAt item) in
  {| id := Some fresh_id; exportedAt := Some e; timestamp := Some e;
     payload := new_payload item |}.

(** [saveExportHistoryItem(item)]: the store after the call.  [now_read]
    is the clock when the history is read, [now] the clock when the item is
    built. *)
Definition saveExportHistoryItem
    (now_read now fresh_id : string) (item : NewItem) (st : Storage)
  : Storage :=
  let list := getExportHistory now_read st in
  let updated := take MAX_ITEMS (new_item now fresh_id item :: list) in
  if writable st
  then {| stored := Saved (map Some updated); writable := writable st |}
  else st.

(** [clearExportHistory()]. *)
Definition clearExportHistory (st : Storage) : Storage :=
  if writable st
  then {| stored := Missing; writable := writable st |}
  else st.

End Items.

Arguments mkItem {Payload}.
Arguments id {Payload}.
Arguments exportedAt {Payload}.
Arguments timestamp {Payload}.
Arguments payload {Payload}.
Arguments mkNewItem {Payload}.
Arguments new_exportedAt {Payload}.
Arguments new_payload {Payload}.
Arguments Missing {Payload}.
Arguments Unreadable {Payload}.
Arguments NotAnArray {Payload}.
Arguments Saved {Payload}.
Arguments mkStorage {Payload}.
Arguments stored {Payload}.
Arguments writable {Payload}.
Arguments normalize {Payload}.
Arguments normalize_element {Payload}.
Arguments getExportHistory {Payload}.
Arguments new_item {Payload}.
Arguments saveExportHistoryItem {Payload}.
Arguments clearExportHistory {Payload}.

End ExportHistory.

(** ** frontend/src/components/ExportModal.tsx *)
Module ExportModal.
Import Types Utils ExportUtils.

(** [type DataType]. *)
Inductive DataType : Set :=
  proposals | activity | transactions | financial_summary.

(** [getDateKeyForDataType(dataType)]. *)
Definition getDateKeyForDataType (dataType : DataType) : string :=
  match dataType with
  | proposals => "createdAt"
  | activity | transactions => "timestamp"
  | financial_summary => "timestamp"
  end.

(** The object literal with the fields label and value that
    [getHeadersAndRows] builds from a summary entry. *)
Definition summary_row (s : string * string) : Row :=
  {| own_keys := ["label"; "value"];
     get := fun k =>
              if String.eqb k "label" then CString (fst s)
              else if String.eqb k "value" then CString (snd s)
              else CUndefined |}.

Section WithSummary.
(** [deriveFinancialSummary] of export.ts, which computes with floating
    point numbers and locale formatting: its labels and values, taken as
    given. *)
Variable deriveFinancialSummary : list Row -> list (string * string).

(** [getHeadersAndRows(rows, _dataType, isFinancialSummary)]. *)
Definition getHeadersAndRows (rows : list Row) (isFinancialSummary : bool)
  : list string * list Row :=
  match rows with
  | [] => ([], [])
  | row0 :: _ =>
      if isFinancialSummary
      then (["label"; "value"], map summary_row (deriveFinancialSummary rows))
      else (own_keys row0, rows)
  end.

(** The CSV branch of [handleExport], for the rows that passed the date
    filter: [None] when it returns without exporting, otherwise the text
    handed to the download. *)
Definition export_csv (filteredRows : list Row) (dataType : DataType)
  : option string :=
  let isFinancialSummary :=
    match dataType with financial_summary => true | _ => false end in
  let '(headers, rows) := getHeadersAndRows filteredRows isFinancialSummary in
  if (length headers =? 0)%nat && (length rows =? 0)%nat
  then None
  else Some (toCsv headers rows).

End WithSummary.
End ExportModal.

(** ** Decidable equality of the enums *)

#[local] Instance Role_eq_dec : EqDecision Types.Role.
Proof. solve_decision. Defined.

#[local] Instance VaultErrorCode_eq_dec : EqDecision Types.VaultErrorCode.
Proof. solve_decision. Defined.

#[local] Instance Binding_eq_dec : EqDecision Contract.Binding.
Proof. solve_decision. Defined.

(* ===================================================================== *)
(** * Part II: properties                                                 *)
(* ===================================================================== *)

Import Types Utils.

(** From here on [++] appends lists and [+:+] appends strings. *)
Local Open Scope list_scope.

(** ** The enums of types.ts *)

Lemma Role_value_lt_privilege (r1 r2 : Role) :
  less_privileged r1 r2 <-> Role_value r1 < Role_value r2.
Proof.
  split.
  - intros [Hsub [p [H2 H1]]].
    destruct r1, r2; simpl; try lia; exfalso.
    + destruct p; discriminate.
    + specialize (Hsub ProposeApprove eq_refl); discriminate.
    + destruct p; discriminate.
    + specialize (Hsub ProposeApprove eq_refl); discriminate.
    + specialize (Hsub Manage eq_refl); discriminate.
    + destruct p; discriminate.
  - intros Hlt; destruct r1, r2; simpl in Hlt; try lia; split.
    all: try (intros p; destruct p; simpl; congruence).
    + exists ProposeApprove; auto.
    + exists Manage; auto.
    + exists Manage; auto.
Qed.

(** C7: the numeric encoding of [Role] is Member = 0, Treasurer = 1,
    Admin = 2; the values are pairwise distinct; a role is strictly less
    privileged than another exactly when its value is smaller; and the role
    marked as default is Member, the one encoded as 0 and below every other
    role. *)
Theorem Role_encoding_ordered_by_privilege :
  Role_value Member = 0 /\ Role_value Treasurer = 1 /\ Role_value Admin = 2 /\
  Role_value Member < Role_value Treasurer < Role_value Admin /\
  (forall r1 r2 : Role, Role_value r1 = Role_value r2 -> r1 = r2) /\
  (forall r1 r2 : Role, less_privileged r1 r2 <-> Role_value r1 < Role_value r2) /\
  Role_default = Member /\
  Role_of_value 0 = Some Role_default /\
  (forall r : Role, r <> Role_default -> less_privileged Role_default r).
Proof.
  do 3 (split; [reflexivity|]).
  split; [simpl; lia|].
  split; [intros r1 r2; destruct r1, r2; simpl; intros; congruence || lia|].
  split; [apply Role_value_lt_privilege|].
  do 2 (split; [reflexivity|]).
  intros r Hr. apply Role_value_lt_privilege. unfold Role_default in *.
  destruct r; simpl; try lia. congruence.
Qed.

(** C4: every member of [VaultErrorCode] lies in the hundreds band of the
    family it is declared under: initialization in 100..199, authorization
    in 200..299, proposal lifecycle in 300..399, spending limits and time in
    400..499, configuration in 500..599, token transfer in 600..699. *)
Theorem VaultErrorCode_in_family_band (c : VaultErrorCode) :
  match code_family c with
  | Initialization => 100 <= code_value c <= 199
  | Authorization => 200 <= code_value c <= 299
  | ProposalLifecycle => 300 <= code_value c <= 399
  | SpendingLimits => 400 <= code_value c <= 499
  | Configuration => 500 <= code_value c <= 599
  | Token => 600 <= code_value c <= 699
  end /\
  code_value c / 100 = family_hundreds (code_family c).
Proof. destruct c; simpl; split; (lia || reflexivity). Qed.

Lemma VaultErrorCode_members_complete (c : VaultErrorCode) :
  In c VaultErrorCode_members.
Proof. destruct c; simpl; tauto. Qed.

Lemma code_value_injective (c1 c2 : VaultErrorCode) :
  code_value c1 = code_value c2 -> c1 = c2.
Proof. destruct c1, c2; simpl; intros H; (reflexivity || discriminate H). Qed.

(** C5: the enum [VaultErrorCode] has exactly 25 members, each listed once,
    and no two members share a numeric value. *)
Theorem VaultErrorCode_25_distinct :
  length VaultErrorCode_members = 25%nat /\
  NoDup VaultErrorCode_members /\
  (forall c : VaultErrorCode, In c VaultErrorCode_members) /\
  NoDup (map code_value VaultErrorCode_members) /\
  (forall c1 c2 : VaultErrorCode, code_value c1 = code_value c2 -> c1 = c2).
Proof.
  split; [reflexivity|].
  split; [apply (bool_decide_unpack _); vm_compute; exact I|].
  split; [apply VaultErrorCode_members_complete|].
  split; [apply (bool_decide_unpack _); vm_compute; exact I|].
  apply code_value_injective.
Qed.

(** ** utils.ts: [buildOptions] *)

(** C9: for each preset, [buildOptions] returns the contract id it was
    given, the preset's entry of [DEFAULT_RPC_URLS] and the preset's entry of
    [NETWORK_PASSPHRASES], and nothing else; the mainnet endpoint is the
    placeholder URL ending in REPLACE_ME. *)
Theorem buildOptions_presets
    (Networks : StellarNetworks) (network : NetworkPreset) (cid : string) :
  buildOptions Networks network cid =
    {| contractId := cid;
       rpcUrl := DEFAULT_RPC_URLS network;
       networkPassphrase := NETWORK_PASSPHRASES Networks network |} /\
  contractId (buildOptions Networks network cid) = cid /\
  rpcUrl (buildOptions Networks testnet cid) =
    "https://soroban-testnet.stellar.org" /\
  rpcUrl (buildOptions Networks mainnet cid) =
    "https://mainnet.stellar.validationcloud.io/v1/REPLACE_ME" /\
  rpcUrl (buildOptions Networks futurenet cid) =
    "https://rpc-futurenet.stellar.org" /\
  networkPassphrase (buildOptions Networks testnet cid) = TESTNET Networks /\
  networkPassphrase (buildOptions Networks mainnet cid) = PUBLIC Networks /\
  networkPassphrase (buildOptions Networks futurenet cid) = FUTURENET Networks.
Proof. repeat split. Qed.

(** ** contract.ts: the bindings *)

Lemma all_bindings_complete (b : Contract.Binding) : In b Contract.all_bindings.
Proof. destruct b; simpl; tauto. Qed.

(** *** What a binding has checked once its request is built *)

Lemma and_then_Ready {A B : Type} (b : Contract.Built A)
    (k : A -> Contract.Built B) (r : B) :
  Contract.and_then b k = Contract.Ready r ->
  exists a, b = Contract.Ready a /\ k a = Contract.Ready r.
Proof. destruct b as [a|x]; [eauto|discriminate]. Qed.

Lemma getContract_Ready (opts : SdkOptions) (c : string) :
  Contract.getContract opts = Contract.Ready c ->
  c = contractId opts /\ StrKey.decodeContract (contractId opts) <> None.
Proof.
  unfold Contract.getContract.
  destruct (StrKey.decodeContract (contractId opts)); [|discriminate].
  intros [= <-]. split; [reflexivity|discriminate].
Qed.

Lemma addressToScVal_Ready (address : string) (v : Contract.ScVal) :
  Contract.addressToScVal address = Contract.Ready v ->
  v = Contract.ScvAddress address.
Proof.
  unfold Contract.addressToScVal.
  destruct (_ || _); [|discriminate]. intros [= <-]. reflexivity.
Qed.

Lemma u64ToScVal_Ready (value : Z) (v : Contract.ScVal) :
  Contract.u64ToScVal value = Contract.Ready v ->
  (0 <= value)%Z /\ v = Contract.ScvU64 (value mod 2 ^ 64)%Z.
Proof.
  unfold Contract.u64ToScVal. destruct (value <? 0)%Z eqn:E; [discriminate|].
  intros [= <-]. apply Z.ltb_ge in E. auto.
Qed.

Lemma isValidContract_decodes (encoded : string) :
  StrKey.isValidContract encoded = true ->
  StrKey.decodeContract encoded <> None.
Proof.
  unfold StrKey.isValidContract, StrKey.isValid, StrKey.decodeContract.
  intros [_ H]%andb_true_iff.
  destruct (StrKey.decodeCheck StrKey.contract encoded); discriminate.
Qed.

Lemma getContract_valid (opts : SdkOptions) :
  StrKey.isValidContract (contractId opts) = true ->
  Contract.getContract opts = Contract.Ready (contractId opts).
Proof.
  intros H%isValidContract_decodes. unfold Contract.getContract.
  destruct (StrKey.decodeContract (contractId opts)); congruence.
Qed.

Lemma u64ToScVal_in_range (value : Z) :
  (0 <= value < 2 ^ 64)%Z ->
  Contract.u64ToScVal value = Contract.Ready (Contract.ScvU64 value).
Proof.
  intros H. unfold Contract.u64ToScVal.
  destruct (value <? 0)%Z eqn:E; [apply Z.ltb_lt in E; lia|].
  rewrite Z.mod_small by exact H. reflexivity.
Qed.

(** Takes the equation [H] of a built request apart, step by step. *)
Ltac unbuild H :=
  repeat
    (let a := fresh "v" in
     let E := fresh "E" in
     apply and_then_Ready in H as (a & E & H);
     first [ apply getContract_Ready in E as [-> _]
           | apply addressToScVal_Ready in E as ->
           | apply u64ToScVal_Ready in E as [_ ->]
           | idtac ]);
  injection H as <-.

(** A request that was built names the contract of the options and the
    function that is the binding's own name in snake_case, and it prepares a
    transaction exactly for the twelve bindings that are no reads. *)
Lemma perform_Ready (opts : SdkOptions) (i : Contract.Invocation)
    (r : Contract.Request) :
  Contract.perform opts i = Contract.Ready r ->
  Contract.op_contract (Contract.request_operation r) = contractId opts /\
  Contract.op_function (Contract.request_operation r)
    = Naming.snake_case (Contract.Binding_name (Contract.binding_of i)) /\
  Contract.is_mutating r
    = negb (bool_decide (In (Contract.binding_of i) Contract.read_bindings)).
Proof.
  intros H.
  destruct i; cbn [Contract.perform] in H;
    unfold Contract.initialize, Contract.proposeTransfer,
      Contract.approveProposal, Contract.executeProposal,
      Contract.rejectProposal, Contract.setRole, Contract.addSigner,
      Contract.removeSigner, Contract.updateLimits,
      Contract.updateThreshold, Contract.schedulePayment,
      Contract.executeRecurringPayment, Contract.getProposal,
      Contract.getRole, Contract.getTodaySpent, Contract.isSigner in H;
    unbuild H; repeat split; vm_compute; reflexivity.
Qed.

Lemma perform_sample (b : Contract.Binding) :
  Contract.binding_of (Contract.sample_invocation b) = b /\
  exists r,
    Contract.perform Contract.sample_opts (Contract.sample_invocation b)
      = Contract.Ready r.
Proof.
  split; [destruct b; reflexivity|].
  destruct b; vm_compute; eexists; reflexivity.
Qed.

Lemma read_bindings_decide (b : Contract.Binding) :
  (negb (bool_decide (In b Contract.read_bindings)) = true <->
   In b (Contract.initialization_bindings ++ Contract.mutating_bindings)) /\
  (negb (bool_decide (In b Contract.read_bindings)) = false <->
   In b Contract.read_bindings).
Proof.
  split.
  - destruct b; vm_compute; split; intros H; try reflexivity;
      try discriminate H; try tauto;
      repeat (destruct H as [H|H]; [discriminate H|]); destruct H.
  - rewrite negb_false_iff, bool_decide_eq_true. reflexivity.
Qed.

(** C6: the bindings index.ts re-exports are the sixteen functions of
    contract.ts, each once.  Every request a binding builds calls, on the
    contract of the options, the contract function that is the binding's own
    name in snake_case.  Exactly one binding calls the contract's
    [initialize]; the bindings that prepare a transaction are that one and
    exactly eleven others (proposeTransfer, approveProposal, executeProposal,
    rejectProposal, setRole, addSigner, removeSigner, updateLimits,
    updateThreshold, schedulePayment, executeRecurringPayment), which call
    propose_transfer, approve_proposal, execute_proposal, reject_proposal,
    set_role, add_signer, remove_signer, update_limits, update_threshold,
    schedule_payment and execute_recurring_payment; the bindings that only
    simulate are exactly four (getProposal, getRole, getTodaySpent,
    isSigner), which call get_proposal, get_role, get_today_spent and
    is_signer.  Each of the sixteen builds its request for arguments the
    constructors accept. *)
Theorem binding_surface_1_11_4 :
  map Contract.Binding_name Contract.all_bindings
    = Contract.index_contract_exports /\
  NoDup Contract.index_contract_exports /\
  (forall b : Contract.Binding, In b Contract.all_bindings) /\
  Contract.all_bindings =
    Contract.initialization_bindings ++ Contract.mutating_bindings
      ++ Contract.read_bindings /\
  length Contract.initialization_bindings = 1%nat /\
  length Contract.mutating_bindings = 11%nat /\
  length Contract.read_bindings = 4%nat /\
  map Contract.Binding_name Contract.initialization_bindings
    = ["initialize"] /\
  map Contract.Binding_name Contract.mutating_bindings
    = ["proposeTransfer"; "approveProposal"; "executeProposal";
       "rejectProposal"; "setRole"; "addSigner"; "removeSigner";
       "updateLimits"; "updateThreshold"; "schedulePayment";
       "executeRecurringPayment"] /\
  map Contract.Binding_name Contract.read_bindings
    = ["getProposal"; "getRole"; "getTodaySpent"; "isSigner"] /\
  map (fun b => Naming.snake_case (Contract.Binding_name b))
      Contract.initialization_bindings
    = ["initialize"] /\
  map (fun b => Naming.snake_case (Contract.Binding_name b))
      Contract.mutating_bindings
    = ["propose_transfer"; "approve_proposal"; "execute_proposal";
       "reject_proposal"; "set_role"; "add_signer"; "remove_signer";
       "update_limits"; "update_threshold"; "schedule_payment";
       "execute_recurring_payment"] /\
  map (fun b => Naming.snake_case (Contract.Binding_name b))
      Contract.read_bindings
    = ["get_proposal"; "get_role"; "get_today_spent"; "is_signer"] /\
  (forall opts i r,
      Contract.perform opts i = Contract.Ready r ->
      Contract.op_contract (Contract.request_operation r)
        = contractId opts /\
      Contract.op_function (Contract.request_operation r)
        = Naming.snake_case (Contract.Binding_name (Contract.binding_of i)) /\
      (Contract.op_function (Contract.request_operation r) = "initialize"
       <-> In (Contract.binding_of i) Contract.initialization_bindings) /\
      (Contract.is_mutating r = true
       <-> In (Contract.binding_of i)
              (Contract.initialization_bindings
                 ++ Contract.mutating_bindings)) /\
      (Contract.is_mutating r = false
       <-> In (Contract.binding_of i) Contract.read_bindings)) /\
  (forall b : Contract.Binding,
      Contract.binding_of (Contract.sample_invocation b) = b /\
      exists r,
        Contract.perform Contract.sample_opts (Contract.sample_invocation b)
          = Contract.Ready r).
Proof.
  split; [reflexivity|].
  split; [apply (bool_decide_unpack _); vm_compute; exact I|].
  split; [apply all_bindings_complete|].
  do 10 (split; [reflexivity|]).
  split; [|apply perform_sample].
  intros opts i r (Hc & Hf & Hm)%perform_Ready.
  split; [exact Hc|]. split; [exact Hf|]. rewrite Hf, Hm.
  split; [|apply read_bindings_decide].
  destruct (Contract.binding_of i); vm_compute; split; intros H;
    try reflexivity; try discriminate H; try tauto;
    repeat (destruct H as [H|H]; [discriminate H|]); destruct H.
Qed.

(** C2 fails as stated: for the contract of the native asset on the test
    network, the account whose key is all zeros as the keeper, and payment
    7, the binding accepts its arguments and the operation it hands to
    [buildTransaction] has the payment id as its only argument; the
    caller's address, although a valid one, is not among the arguments. *)
Lemma executeRecurringPayment_omits_caller :
  let opts :=
    {| contractId :=
         "CDLZFC3SYJYDZT7K67VZ75HPJVIEUVNIXF47ZG2FB2RMQQVU2HHGCYSC";
       rpcUrl := "https://soroban-testnet.stellar.org";
       networkPassphrase := "Test SDF Network ; September 2015" |} in
  let caller :=
    "GAAAAAAAAAAAAAAAAAAAAAAAAAAAAAAAAAAAAAAAAAAAAAAAAAAAAWHF" in
  StrKey.isValidContract (contractId opts) = true /\
  Contract.addressToScVal caller
    = Contract.Ready (Contract.ScvAddress caller) /\
  exists op,
    Contract.executeRecurringPayment caller 7 opts
      = Contract.Ready (Contract.BuildTransaction caller op opts) /\
    Contract.op_function op = "execute_recurring_payment" /\
    Contract.op_args op = [Contract.ScvU64 7] /\
    ~ In (Contract.ScvAddress caller) (Contract.op_args op).
Proof.
  intros opts caller.
  split; [vm_compute; reflexivity|]. split; [vm_compute; reflexivity|].
  eexists. split; [vm_compute; reflexivity|]. simpl.
  repeat split. intros [H|[]]. discriminate H.
Qed.

(** C2, amended: [executeRecurringPayment] takes the caller's key and the
    payment id.  For a contract id that is a valid strkey and a payment id
    that fits 64 bits, it calls the contract's [execute_recurring_payment]
    with the payment id as the only argument, and the caller's key is the
    source account of the transaction it prepares.  It throws, before any
    call is built, for a contract id that does not decode and for a negative
    payment id; a payment id of 2^64 or more is sent modulo 2^64. *)
Theorem executeRecurringPayment_request
    (callerPublicKey : string) (paymentId : Z) (opts : SdkOptions)
    (Hcontract : StrKey.isValidContract (contractId opts) = true)
    (Hid : (0 <= paymentId < 2 ^ 64)%Z) :
  Contract.executeRecurringPayment callerPublicKey paymentId opts =
    Contract.Ready
      (Contract.BuildTransaction callerPublicKey
         {| Contract.op_contract := contractId opts;
            Contract.op_function := "execute_recurring_payment";
            Contract.op_args := [Contract.ScvU64 paymentId] |}
         opts) /\
  Contract.perform opts
    (Contract.I_executeRecurringPayment callerPublicKey paymentId)
    = Contract.executeRecurringPayment callerPublicKey paymentId opts /\
  (forall (caller : string) (id : Z) (r : Contract.Request),
      Contract.executeRecurringPayment caller id opts = Contract.Ready r ->
      (0 <= id)%Z /\
      r = Contract.BuildTransaction caller
            {| Contract.op_contract := contractId opts;
               Contract.op_function := "execute_recurring_payment";
               Contract.op_args := [Contract.ScvU64 (id mod 2 ^ 64)%Z] |}
            opts) /\
  (forall (caller : string) (id : Z),
      (id < 0)%Z ->
      Contract.executeRecurringPayment caller id opts
        = Contract.Rejected (Contract.NegativeUnsigned id)) /\
  (forall (caller : string) (id : Z) (opts' : SdkOptions),
      StrKey.decodeContract (contractId opts') = None ->
      Contract.executeRecurringPayment caller id opts'
        = Contract.Rejected (Contract.InvalidContractId (contractId opts'))).
Proof.
  unfold Contract.executeRecurringPayment.
  rewrite (getContract_valid opts Hcontract).
  split; [|split; [|split; [|split]]].
  - cbn [Contract.and_then]. rewrite u64ToScVal_in_range by exact Hid.
    reflexivity.
  - cbn [Contract.perform]. unfold Contract.executeRecurringPayment.
    rewrite (getContract_valid opts Hcontract). reflexivity.
  - intros caller id r H. cbn [Contract.and_then] in H.
    apply and_then_Ready in H as (v & [Hid' ->]%u64ToScVal_Ready & H).
    injection H as <-. split; [exact Hid'|reflexivity].
  - intros caller id Hneg. cbn [Contract.and_then].
    unfold Contract.u64ToScVal.
    destruct (id <? 0)%Z eqn:E; [reflexivity|apply Z.ltb_ge in E; lia].
  - intros caller id opts' Hbad. unfold Contract.getContract.
    rewrite Hbad. reflexivity.
Qed.

Lemma executeRecurringPayment_request_witness :
  Contract.executeRecurringPayment Contract.sample_account 7
    Contract.sample_opts =
    Contract.Ready
      (Contract.BuildTransaction Contract.sample_account
         {| Contract.op_contract := Contract.sample_contract;
            Contract.op_function := "execute_recurring_payment";
            Contract.op_args := [Contract.ScvU64 7] |}
         Contract.sample_opts).
Proof.
  exact (proj1 (executeRecurringPayment_request
                  Contract.sample_account 7 Contract.sample_opts
                  ltac:(vm_compute; reflexivity) ltac:(lia))).
Defined.

(** ** utils.ts: [parseError] *)

Lemma match_here_contract_error_text (c : VaultErrorCode) (post : string) :
  match_here (contract_error_text c +:+ post) = Some (decimal (code_value c)).
Proof. destruct c; reflexivity. Qed.

Lemma parseInt10_decimal (c : VaultErrorCode) :
  parseInt10 (decimal (code_value c)) = code_value c.
Proof. destruct c; reflexivity. Qed.

Lemma code_of_value_code_value (c : VaultErrorCode) :
  code_of_value (code_value c) = Some c.
Proof. destruct c; reflexivity. Qed.

(** The leftmost match found at index [length pre] is a match of what
    follows [pre]. *)
Lemma regex_match_at_index (pre rest ds : string) :
  regex_match (pre +:+ rest) = Some (String.length pre, ds) ->
  match_here rest = Some ds.
Proof.
  induction pre as [|a pre IH]; simpl.
  - destruct rest as [|b rest]; simpl.
    + destruct (match_here EmptyString); [congruence|discriminate].
    + destruct (match_here (String b rest)) as [ds'|]; [congruence|].
      destruct (regex_match rest) as [[i ds']|]; discriminate.
  - destruct (match_here (String a (pre +:+ rest))); [discriminate|].
    destruct (regex_match (pre +:+ rest)) as [[i ds']|] eqn:E; [|discriminate].
    intros H. apply IH. congruence.
Qed.

Lemma contract_code_leftmost (c : VaultErrorCode) (pre post ds : string) :
  regex_match (pre +:+ contract_error_text c +:+ post)
    = Some (String.length pre, ds) ->
  contract_code (pre +:+ contract_error_text c +:+ post) = Some c.
Proof.
  intros H. unfold contract_code. rewrite H.
  apply regex_match_at_index in H.
  rewrite match_here_contract_error_text in H.
  injection H as <-.
  rewrite parseInt10_decimal. apply code_of_value_code_value.
Qed.

(** A message that starts with the report of code [c] is parsed to [c]. *)
Lemma parseError_at_start (c : VaultErrorCode) (post : string) :
  parseError (JsError (contract_error_text c +:+ post))
    = Returned (new_VaultError c).
Proof.
  unfold parseError, message_of, contract_code. cbn [is_VaultError].
  assert (regex_match (contract_error_text c +:+ post)
          = Some (O, decimal (code_value c))) as ->.
  { destruct c; reflexivity. }
  rewrite parseInt10_decimal, code_of_value_code_value. reflexivity.
Qed.

Lemma default_message_contains_code (c : VaultErrorCode) :
  contains (VaultError_default_message c) (decimal (code_value c)).
Proof. exists "VaultError(", ("): " +:+ code_name c). reflexivity. Qed.

Lemma default_message_contains_name (c : VaultErrorCode) :
  contains (VaultError_default_message c) (code_name c).
Proof.
  exists ("VaultError(" +:+ decimal (code_value c) +:+ "): "), "".
  destruct c; reflexivity.
Qed.

Lemma parseError_VaultError (c : VaultErrorCode) (m : string) :
  parseError (JsVaultError c m) = Returned (JsVaultError c m).
Proof. reflexivity. Qed.

(** [parseError] on a value that is not a [VaultError], by its message. *)
Lemma parseError_fresh (x : JsValue) :
  is_VaultError x = false ->
  parseError x =
    match message_of x with
    | Thrown e => Thrown e
    | Returned message =>
        match contract_code message with
        | Some c => Returned (new_VaultError c)
        | None =>
            Returned (if instanceof_Error x then x else JsError message)
        end
    end.
Proof. unfold parseError. intros ->. reflexivity. Qed.

Lemma parseError_unknown (err : JsValue) (message : string) :
  message_of err = Returned message ->
  is_VaultError err = true \/ contract_code message = None ->
  parseError err
    = Returned (if instanceof_Error err then err else JsError message).
Proof.
  intros Hm [H|H].
  - destruct err; try discriminate H. reflexivity.
  - destruct (is_VaultError err) eqn:E.
    + destruct err; try discriminate E. reflexivity.
    + rewrite parseError_fresh, Hm, H by exact E. reflexivity.
Qed.

Lemma parseError_is_Error (err r : JsValue) :
  parseError err = Returned r -> instanceof_Error r = true.
Proof.
  unfold parseError. destruct (is_VaultError err) eqn:E.
  - intros [= <-]. destruct err; try discriminate E. reflexivity.
  - destruct (message_of err) as [message|e]; [|discriminate].
    destruct (contract_code message); intros [= <-]; [reflexivity|].
    destruct (instanceof_Error err) eqn:Ei; [exact Ei|reflexivity].
Qed.

(** [parseError] returns exactly on the values whose message can be read,
    and throws what reading the message throws on the others. *)
Lemma parseError_returns_iff (err : JsValue) :
  (exists r, parseError err = Returned r) <-> readable err = true.
Proof.
  unfold readable, parseError. destruct err; cbn [is_VaultError message_of];
    try (split; [reflexivity|]; intros _);
    try (split; [intros [r H]; discriminate H|discriminate]).
  all: try match goal with
    | |- context [contract_code ?m] => destruct (contract_code m)
    end; eauto.
Qed.

Lemma parseError_throws_iff (err thrown : JsValue) :
  parseError err = Thrown thrown <->
  is_VaultError err = false /\ message_of err = Thrown thrown.
Proof.
  unfold parseError. destruct (is_VaultError err) eqn:E.
  - split; [discriminate|]. intros [H _]. discriminate H.
  - destruct (message_of err) as [message|e].
    + split; [|intros [_ H]; discriminate H].
      destruct (contract_code message); discriminate.
    + split; [intros [= ->]; auto|intros [_ [= ->]]; reflexivity].
Qed.

(** What [parseError] returns is returned unchanged by [parseError]. *)
Lemma parseError_twice (x r : JsValue) :
  parseError x = Returned r -> parseError r = Returned r.
Proof.
  unfold parseError at 1. destruct (is_VaultError x) eqn:E.
  - intros [= <-]. destruct x; try discriminate E. reflexivity.
  - destruct (message_of x) as [message|e] eqn:Hm; [|discriminate].
    destruct (contract_code message) eqn:Hc; intros [= <-]; [reflexivity|].
    destruct (instanceof_Error x) eqn:Ei.
    + rewrite (parseError_unknown x message Hm) by (right; exact Hc).
      rewrite Ei. reflexivity.
    + rewrite (parseError_unknown (JsError message) message eq_refl)
        by (right; exact Hc).
      reflexivity.
Qed.

(** C3 fails as stated, in four ways.  A message whose first contract
    error is unknown and whose second is code 100 contains the text of code
    100, yet the result is the original error and no [VaultError]; a
    [VaultError] of code 200 whose message contains the text of code 100 comes
    back with code 200; a thrown string that matches nothing does not
    come back as itself but wrapped in a new [Error]; and for a thrown
    object without a prototype, which [String] cannot convert, [parseError]
    returns nothing: it throws the TypeError of the conversion, and the
    original value is lost. *)
Lemma parseError_not_as_stated :
  (contains "Error(Contract, 999); Error(Contract, 100)"
            (contract_error_text AlreadyInitialized) /\
   parseError (JsError "Error(Contract, 999); Error(Contract, 100)")
     = Returned (JsError "Error(Contract, 999); Error(Contract, 100)")) /\
  (contains "Error(Contract, 100)" (contract_error_text AlreadyInitialized) /\
   parseError (JsVaultError Unauthorized "Error(Contract, 100)")
     = Returned (JsVaultError Unauthorized "Error(Contract, 100)")) /\
  (message_of (JsString "boom") = Returned "boom" /\
   contract_code "boom" = None /\
   parseError (JsString "boom") = Returned (JsError "boom") /\
   parseError (JsString "boom") <> Returned (JsString "boom")) /\
  (parseError
     (JsUnprintable (JsError "Cannot convert object to primitive value"))
     = Thrown (JsError "Cannot convert object to primitive value") /\
   (forall r,
      parseError
        (JsUnprintable (JsError "Cannot convert object to primitive value"))
        <> Returned r)).
Proof.
  split; [split; [exists "Error(Contract, 999); ", ""; reflexivity|reflexivity]|].
  split; [split; [exists "", ""; reflexivity|reflexivity]|].
  split.
  - split; [reflexivity|]. split; [reflexivity|].
    split; [reflexivity|discriminate].
  - split; [reflexivity|discriminate].
Qed.

(** C3, amended: let [err] be a value that is not already a [VaultError],
    whose message can be read and contains the text of code [c], and let the
    leftmost match of the pattern in the message be that occurrence.  Then
    [parseError] returns a [VaultError] with code [c] whose message contains
    the numeric code and the code's name.  Whatever [parseError] returns is
    an [Error] (never null or undefined), and it returns exactly when the
    message can be read: on a value that is not an [Error] and that [String]
    cannot convert, and on an [Error] that is not a [VaultError] and whose
    message is not a string, [parseError] itself throws what the conversion
    or the call of [match] throws.  A [VaultError] comes back unchanged; and
    an input whose message carries no known contract error comes back as
    itself when it is an [Error] and otherwise as a new [Error] whose message
    is the input's string form. *)
Theorem parseError_surfaces_contract_errors
    (c : VaultErrorCode) (err : JsValue) (pre post ds : string)
    (Hfresh : is_VaultError err = false)
    (Hmsg : message_of err
            = Returned (pre +:+ contract_error_text c +:+ post))
    (Hleft : regex_match (pre +:+ contract_error_text c +:+ post)
             = Some (String.length pre, ds)) :
  (exists m : string,
      parseError err = Returned (JsVaultError c m) /\
      contains m (decimal (code_value c)) /\
      contains m (code_name c)) /\
  (forall x r : JsValue,
      parseError x = Returned r -> instanceof_Error r = true) /\
  (forall x : JsValue,
      (exists r, parseError x = Returned r) <-> readable x = true) /\
  (forall x thrown : JsValue,
      parseError x = Thrown thrown <->
      is_VaultError x = false /\ message_of x = Thrown thrown) /\
  (forall c' m',
      parseError (JsVaultError c' m') = Returned (JsVaultError c' m')) /\
  (forall (x : JsValue) (message : string),
      message_of x = Returned message ->
      contract_code message = None ->
      exists r,
        parseError x = Returned r /\
        r = (if instanceof_Error x then x else JsError message) /\
        message_of r = Returned message).
Proof.
  split.
  - exists (VaultError_default_message c).
    split; [|split; [apply default_message_contains_code
                    |apply default_message_contains_name]].
    apply contract_code_leftmost in Hleft.
    rewrite parseError_fresh, Hmsg, Hleft by exact Hfresh. reflexivity.
  - split; [apply parseError_is_Error|].
    split; [apply parseError_returns_iff|].
    split; [apply parseError_throws_iff|].
    split; [apply parseError_VaultError|].
    intros x message Hm Hx. eexists. split; [|split; [reflexivity|]].
    + apply (parseError_unknown x message Hm). right. exact Hx.
    + destruct (instanceof_Error x); [exact Hm|reflexivity].
Qed.

Lemma parseError_surfaces_contract_errors_witness :
  exists m : string,
    parseError (JsError "HostError: Error(Contract, 404) at frame 0")
      = Returned (JsVaultError TimelockNotExpired m) /\
    contains m "404" /\ contains m "TimelockNotExpired".
Proof.
  exact (proj1 (parseError_surfaces_contract_errors
                  TimelockNotExpired
                  (JsError "HostError: Error(Contract, 404) at frame 0")
                  "HostError: " " at frame 0" "404"
                  eq_refl eq_refl eq_refl)).
Defined.

(** C8: [parseError] is idempotent: applied to what it returned, it
    returns the same value again, and it returns for every value whose
    message can be read (where it throws there is no result to apply it
    to); a [VaultError] is returned unchanged. *)
Theorem parseError_idempotent :
  (forall x r : JsValue,
      parseError x = Returned r -> parseError r = Returned r) /\
  (forall x : JsValue,
      readable x = true ->
      exists r, parseError x = Returned r /\ parseError r = Returned r) /\
  (forall (c : VaultErrorCode) (m : string),
      parseError (JsVaultError c m) = Returned (JsVaultError c m)).
Proof.
  split; [apply parseError_twice|]. split; [|reflexivity].
  intros x [r Hr]%parseError_returns_iff. exists r.
  split; [exact Hr|exact (parseError_twice x r Hr)].
Qed.

(** ** export.ts: the CSV writers *)
Section CsvExport.
Import ExportUtils.

Lemma string_app_cons (a : ascii) (s t : string) :
  String a s +:+ t = String a (s +:+ t).
Proof. reflexivity. Qed.

Lemma string_app_nil_l (t : string) : EmptyString +:+ t = t.
Proof. reflexivity. Qed.

Lemma string_app_nil_r (s : string) : s +:+ EmptyString = s.
Proof.
  induction s as [|a s IH]; [reflexivity|].
  rewrite string_app_cons, IH. reflexivity.
Qed.

Lemma string_app_assoc (s t u : string) : (s +:+ t) +:+ u = s +:+ t +:+ u.
Proof.
  induction s as [|a s IH]; [reflexivity|].
  rewrite !string_app_cons, IH. reflexivity.
Qed.

Lemma push_with_field (a : ascii) (f : string) t :
  push a (with_field f t) = with_field (String a f) t.
Proof. destruct t as [[fs rs]|]; reflexivity. Qed.

Lemma scan_Bare_terminator (rest : string) :
  terminator rest ->
  csv_scan Bare rest = with_field EmptyString (tail_of rest).
Proof.
  unfold tail_of.
  intros [->|[[r ->]|[r ->]]]; [reflexivity| |].
  - simpl. destruct (csv_scan FieldStart r) as [[[f fs] rs]|]; reflexivity.
  - simpl. destruct r as [|b r]; [reflexivity|]. simpl.
    destruct (Ascii.eqb b LF); [|reflexivity].
    destruct r as [|c r]; [reflexivity|].
    destruct (csv_scan FieldStart (String c r)) as [[[f fs] rs]|];
      reflexivity.
Qed.

Lemma scan_FieldStart_terminator (rest : string) :
  terminator rest -> csv_scan FieldStart rest = csv_scan Bare rest.
Proof. intros [->|[[r ->]|[r ->]]]; reflexivity. Qed.

Lemma scan_QuoteSeen_terminator (rest : string) :
  terminator rest -> csv_scan QuoteSeen rest = csv_scan Bare rest.
Proof. intros [->|[[r ->]|[r ->]]]; reflexivity. Qed.

Lemma is_special_false (a : ascii) :
  is_special a = false ->
  Ascii.eqb a quote = false /\ Ascii.eqb a comma = false /\
  Ascii.eqb a LF = false /\ Ascii.eqb a CR = false.
Proof.
  unfold is_special. intros H.
  repeat (apply orb_false_iff in H as [H ?]). auto.
Qed.

Lemma scan_Bare_step (a : ascii) (s : string) :
  is_special a = false ->
  csv_scan Bare (String a s) = push a (csv_scan Bare s).
Proof.
  intros (Hq & Hc & Hl & Hr)%is_special_false.
  simpl. rewrite Hq, Hc, Hr, Hl. reflexivity.
Qed.

Lemma scan_FieldStart_step (a : ascii) (s : string) :
  is_special a = false ->
  csv_scan FieldStart (String a s) = push a (csv_scan Bare s).
Proof.
  intros (Hq & Hc & Hl & Hr)%is_special_false.
  simpl. rewrite Hq, Hc, Hr, Hl. reflexivity.
Qed.

Lemma scan_bare_field (s rest : string) :
  needs_quoting s = false -> terminator rest ->
  csv_scan Bare (s +:+ rest) = with_field s (tail_of rest).
Proof.
  intros Hs Hrest. induction s as [|a s IH].
  - apply scan_Bare_terminator, Hrest.
  - simpl in Hs. apply orb_false_iff in Hs as [Ha Hs].
    rewrite string_app_cons, scan_Bare_step by exact Ha.
    rewrite IH by exact Hs. apply push_with_field.
Qed.

Lemma scan_quoted_field (s rest : string) :
  terminator rest ->
  csv_scan Quoted (double_quotes s +:+ String quote rest)
    = with_field s (tail_of rest).
Proof.
  intros Hrest. induction s as [|a s IH].
  - change (csv_scan QuoteSeen rest = with_field EmptyString (tail_of rest)).
    rewrite scan_QuoteSeen_terminator by exact Hrest.
    apply scan_Bare_terminator, Hrest.
  - simpl double_quotes. destruct (Ascii.eqb a quote) eqn:Ha.
    + apply Ascii.eqb_eq in Ha as ->.
      rewrite !string_app_cons.
      change (push quote (csv_scan Quoted
                (double_quotes s +:+ String quote rest))
              = with_field (String quote s) (tail_of rest)).
      rewrite IH. apply push_with_field.
    + rewrite string_app_cons.
      transitivity (push a (csv_scan Quoted
                      (double_quotes s +:+ String quote rest))).
      * simpl. rewrite Ha. reflexivity.
      * rewrite IH. apply push_with_field.
Qed.

(** Reading an escaped cell gives the cell's string back. *)
Lemma scan_escaped_field (s rest : string) :
  terminator rest ->
  csv_scan FieldStart (escape_string s +:+ rest)
    = with_field s (tail_of rest).
Proof.
  intros Hrest. unfold escape_string.
  destruct (needs_quoting s) eqn:Hs.
  - rewrite string_app_cons, string_app_assoc, string_app_cons,
      string_app_nil_l.
    change (csv_scan Quoted (double_quotes s +:+ String quote rest)
            = with_field s (tail_of rest)).
    apply scan_quoted_field, Hrest.
  - destruct s as [|a s].
    + rewrite string_app_nil_l, scan_FieldStart_terminator by exact Hrest.
      apply scan_Bare_terminator, Hrest.
    + simpl in Hs. apply orb_false_iff in Hs as [Ha Hs].
      rewrite string_app_cons, scan_FieldStart_step by exact Ha.
      rewrite scan_bare_field by assumption. apply push_with_field.
Qed.

Lemma join_cons2 (sep p q : string) (ps : list string) :
  join sep (p :: q :: ps) = p +:+ sep +:+ join sep (q :: ps).
Proof. reflexivity. Qed.

Lemma join_cons_nonempty (sep p : string) (ps : list string) :
  ps <> [] -> join sep (p :: ps) = p +:+ sep +:+ join sep ps.
Proof. destruct ps; [congruence|reflexivity]. Qed.

Lemma tail_of_comma (r : string) :
  tail_of (String comma r) =
    match csv_scan FieldStart r with
    | Some (f, fs, rs) => Some (f :: fs, rs)
    | None => None
    end.
Proof.
  unfold tail_of. simpl.
  destruct (csv_scan FieldStart r) as [[[f fs] rs]|]; reflexivity.
Qed.

Lemma tail_of_CRLF (r : string) :
  r <> EmptyString ->
  tail_of (CRLF +:+ r) =
    match csv_scan FieldStart r with
    | Some (f, fs, rs) => Some ([], (f :: fs) :: rs)
    | None => None
    end.
Proof.
  intros Hr. destruct r as [|c r]; [contradiction Hr; reflexivity|].
  change (CRLF +:+ String c r) with (String CR (String LF (String c r))).
  unfold tail_of.
  change (csv_scan Bare (String CR (String LF (String c r))))
    with (match csv_scan FieldStart (String c r) with
          | Some (f, fs, rs) =>
              Some (EmptyString, @nil string, (f :: fs) :: rs)
          | None => None
          end).
  destruct (csv_scan FieldStart (String c r)) as [[[f fs] rs]|]; reflexivity.
Qed.

Lemma tail_of_final_CRLF : tail_of CRLF = Some ([], []).
Proof. reflexivity. Qed.

Lemma scan_escaped_line (c : string) (cs : list string) (rest : string) :
  terminator rest ->
  csv_scan FieldStart (escaped_line (c :: cs) +:+ rest) =
    match tail_of rest with
    | Some (fs, rs) => Some (c, cs ++ fs, rs)
    | None => None
    end.
Proof.
  intros Hrest. revert c. induction cs as [|c2 cs IH]; intros c.
  - unfold escaped_line. simpl map. simpl join.
    rewrite scan_escaped_field by exact Hrest.
    destruct (tail_of rest) as [[fs rs]|]; reflexivity.
  - unfold escaped_line. simpl map. rewrite join_cons2.
    rewrite !string_app_assoc. unfold comma_sep at 1.
    rewrite string_app_cons, string_app_nil_l.
    rewrite scan_escaped_field by (right; left; eexists; reflexivity).
    rewrite tail_of_comma.
    change (join comma_sep (escape_string c2 :: map escape_string cs))
      with (escaped_line (c2 :: cs)).
    rewrite IH.
    destruct (tail_of rest) as [[fs rs]|]; reflexivity.
Qed.

Lemma terminator_CRLF (r : string) : terminator (CRLF +:+ r).
Proof. right; right. eexists. reflexivity. Qed.

Lemma escape_string_empty (s : string) :
  escape_string s = EmptyString -> s = EmptyString.
Proof.
  unfold escape_string. destruct (needs_quoting s); [discriminate|auto].
Qed.

(** A written line is empty only for no cell at all or for a single
    empty cell. *)
Lemma escaped_line_empty (c : string) (cs : list string) :
  escaped_line (c :: cs) = EmptyString -> c = EmptyString /\ cs = [].
Proof.
  destruct cs as [|c2 cs].
  - intros H. split; [apply escape_string_empty, H|reflexivity].
  - unfold escaped_line. simpl map. rewrite join_cons2.
    unfold comma_sep. intros H.
    destruct (escape_string c); discriminate H.
Qed.

Lemma join_CRLF_cons2_nonempty (l1 l2 : string) (ls : list string) :
  join CRLF (l1 :: l2 :: ls) <> EmptyString.
Proof. rewrite join_cons2. destruct l1; discriminate. Qed.

(** A table whose records all have a first cell and whose last line is
    not empty, written line by line and read back. *)
Lemma scan_escaped_table (c : string) (cs : list string)
    (more : list (string * list string)) :
  List.last (map (fun r => fst r :: snd r) ((c, cs) :: more)) []
    <> [EmptyString] ->
  csv_scan FieldStart
    (join CRLF (map (fun r => escaped_line (fst r :: snd r))
                    ((c, cs) :: more)))
  = Some (c, cs, map (fun r => fst r :: snd r) more).
Proof.
  revert c cs. induction more as [|[c2 cs2] more IH]; intros c cs Hlast.
  - simpl map. simpl join.
    rewrite <- (string_app_nil_r (escaped_line (c :: cs))).
    rewrite scan_escaped_line by (left; reflexivity).
    simpl. rewrite app_nil_r. reflexivity.
  - rewrite (map_cons _ (c, cs)).
    rewrite join_cons_nonempty by discriminate.
    change (escaped_line (fst (c, cs) :: snd (c, cs)))
      with (escaped_line (c :: cs)).
    rewrite scan_escaped_line by apply terminator_CRLF.
    rewrite tail_of_CRLF.
    + rewrite IH by exact Hlast. simpl. rewrite app_nil_r. reflexivity.
    + destruct more as [|r more].
      * simpl. intros [-> ->]%escaped_line_empty.
        apply Hlast. reflexivity.
      * apply join_CRLF_cons2_nonempty.
Qed.

(** The same table followed by one more line that is empty: the line break
    before it ends the text, and the reader takes it for the end of the
    last record. *)
Lemma scan_escaped_table_blank (c : string) (cs : list string)
    (more : list (string * list string)) :
  csv_scan FieldStart
    (join CRLF (map (fun r => escaped_line (fst r :: snd r))
                    ((c, cs) :: more ++ [(EmptyString, [])])))
  = Some (c, cs, map (fun r => fst r :: snd r) more).
Proof.
  revert c cs. induction more as [|[c2 cs2] more IH]; intros c cs.
  - change (csv_scan FieldStart (escaped_line (c :: cs) +:+ CRLF)
            = Some (c, cs, [])).
    rewrite scan_escaped_line by (right; right; eexists; reflexivity).
    rewrite tail_of_final_CRLF, app_nil_r. reflexivity.
  - rewrite (map_cons _ (c, cs)).
    rewrite join_cons_nonempty by discriminate.
    change (escaped_line (fst (c, cs) :: snd (c, cs)))
      with (escaped_line (c :: cs)).
    rewrite scan_escaped_line by apply terminator_CRLF.
    rewrite tail_of_CRLF.
    + rewrite <- app_comm_cons, IH. simpl. rewrite app_nil_r. reflexivity.
    + rewrite <- app_comm_cons. destruct more as [|r more].
      * apply join_CRLF_cons2_nonempty.
      * rewrite <- app_comm_cons. apply join_CRLF_cons2_nonempty.
Qed.

Lemma nonempty_records_pairs (table : list (list string)) :
  Forall (fun r => r <> []) table ->
  exists pairs : list (string * list string),
    table = map (fun r => fst r :: snd r) pairs.
Proof.
  intros Hrows. induction Hrows as [|r t Hr _ [pairs ->]].
  - exists []. reflexivity.
  - destruct r as [|c cs]; [contradiction Hr; reflexivity|].
    exists ((c, cs) :: pairs). reflexivity.
Qed.

Lemma csv_parse_escaped_table (table : list (list string)) :
  table <> [] -> Forall (fun r => r <> []) table ->
  List.last table [] <> [EmptyString] ->
  csv_parse (join CRLF (map escaped_line table)) = Some table.
Proof.
  intros Hne Hrows Hlast.
  destruct (nonempty_records_pairs table Hrows) as [pairs ->].
  destruct pairs as [|[c cs] more]; [contradiction Hne; reflexivity|].
  unfold csv_parse. rewrite map_map.
  rewrite scan_escaped_table by exact Hlast. reflexivity.
Qed.

(** With a last line that is empty after at least one other line, the
    text reads back without its last record. *)
Lemma csv_parse_escaped_table_blank (table : list (list string)) :
  table <> [] -> Forall (fun r => r <> []) table ->
  csv_parse (join CRLF (map escaped_line (table ++ [[EmptyString]])))
    = Some table.
Proof.
  intros Hne Hrows.
  destruct (nonempty_records_pairs table Hrows) as [pairs ->].
  destruct pairs as [|[c cs] more]; [contradiction Hne; reflexivity|].
  unfold csv_parse.
  change [[EmptyString]]
    with (map (fun r : string * list string => fst r :: snd r)
              [(EmptyString, [])]).
  rewrite <- map_app, map_map.
  rewrite <- app_comm_cons, scan_escaped_table_blank. reflexivity.
Qed.

Lemma header_line_escaped (keys : list string) :
  header_line keys = escaped_line (header_cells keys).
Proof. reflexivity. Qed.

Lemma data_line_escaped (keys : list string) (row : Row) :
  data_line keys row = escaped_line (data_cells keys row).
Proof.
  unfold data_line, escaped_line, data_cells. rewrite map_map. reflexivity.
Qed.

Lemma lines_escaped (keys : list string) (rows : list Row) :
  header_line keys :: map (data_line keys) rows
    = map escaped_line (table_cells keys rows).
Proof.
  unfold table_cells. rewrite map_cons, map_map. f_equal.
  apply map_ext. intros row. apply data_line_escaped.
Qed.

Lemma table_cells_nonempty (keys : list string) (rows : list Row) :
  keys <> [] -> Forall (fun r => r <> []) (table_cells keys rows).
Proof.
  intros Hk. unfold table_cells, header_cells. constructor; [exact Hk|].
  apply Forall_forall. intros r Hr.
  apply list_elem_of_In, in_map_iff in Hr as [row [<- _]].
  unfold data_cells. destruct keys; [congruence|discriminate].
Qed.

Lemma toCsv_lines (headers : list string) (rows : list Row) :
  toCsv headers rows = join CRLF (map escaped_line (table_cells headers rows)).
Proof. unfold toCsv. rewrite lines_escaped. reflexivity. Qed.

Lemma toCSV_lines (row0 : Row) (rows : list Row)
    (headers : option (list string)) :
  toCSV (row0 :: rows) headers =
    join CRLF (map escaped_line
                   (table_cells (default (own_keys row0) headers)
                                (row0 :: rows))).
Proof. unfold toCSV. rewrite lines_escaped. reflexivity. Qed.

Lemma csv_parse_table_cells (keys : list string) (rows : list Row) :
  keys <> [] -> ends_with_text keys rows ->
  csv_parse (join CRLF (map escaped_line (table_cells keys rows)))
    = Some (table_cells keys rows).
Proof.
  intros Hk Hlast. apply csv_parse_escaped_table.
  - discriminate.
  - apply table_cells_nonempty, Hk.
  - exact Hlast.
Qed.

(** Two or more columns always end with text: the last line holds a
    comma. *)
Lemma two_columns_end_with_text (k1 k2 : string) (keys : list string)
    (rows : list Row) :
  ends_with_text (k1 :: k2 :: keys) rows.
Proof.
  unfold ends_with_text, table_cells, header_cells.
  assert (Forall (fun r => r <> [EmptyString])
            ((k1 :: k2 :: keys) :: map (data_cells (k1 :: k2 :: keys)) rows))
    as Hall.
  { constructor; [discriminate|].
    apply Forall_forall. intros r Hr.
    apply list_elem_of_In, in_map_iff in Hr as [row [<- _]]. discriminate. }
  revert Hall.
  generalize ((k1 :: k2 :: keys) :: map (data_cells (k1 :: k2 :: keys)) rows).
  intros l Hall. induction Hall as [|r l Hr Hall IH]; [discriminate|].
  destruct l as [|r2 l]; [exact Hr|exact IH].
Qed.

Lemma csv_unescape_escape_string (s : string) :
  csv_unescape (escape_string s) = Some s.
Proof.
  unfold csv_unescape, csv_parse.
  rewrite <- (string_app_nil_r (escape_string s)).
  rewrite scan_escaped_field by (left; reflexivity). reflexivity.
Qed.

Lemma needs_quoting_spec (s : string) :
  needs_quoting s = true <->
  exists a, In a (list_ascii_of_string s) /\
            (a = quote \/ a = comma \/ a = LF \/ a = CR).
Proof.
  induction s as [|b s IH]; simpl.
  - split; [discriminate|intros [a [[] _]]].
  - rewrite orb_true_iff, IH. unfold is_special.
    rewrite !orb_true_iff, !Ascii.eqb_eq. split.
    + intros [H|[a [Hin Ha]]]; [exists b; tauto|exists a; tauto].
    + intros [a [[->|Hin] Ha]]; [tauto|right; exists a; tauto].
Qed.

Lemma table_cells_app (keys : list string) (init : list Row) (r : Row) :
  table_cells keys (init ++ [r])
    = table_cells keys init ++ [data_cells keys r].
Proof. unfold table_cells. rewrite map_app. reflexivity. Qed.

Lemma csv_parse_blank_last (keys : list string) (init : list Row) (r : Row) :
  keys <> [] -> data_cells keys r = [EmptyString] ->
  csv_parse (toCsv keys (init ++ [r])) = Some (table_cells keys init).
Proof.
  intros Hk Hr. rewrite toCsv_lines, table_cells_app, Hr.
  apply csv_parse_escaped_table_blank.
  - discriminate.
  - apply table_cells_nonempty, Hk.
Qed.

Lemma csv_parse_header_and_break (keys : list string) :
  keys <> [] -> csv_parse (escaped_line keys +:+ CRLF) = Some [keys].
Proof.
  intros Hk. destruct keys as [|c cs]; [contradiction Hk; reflexivity|].
  unfold csv_parse.
  rewrite scan_escaped_line by (right; right; eexists; reflexivity).
  rewrite tail_of_final_CRLF, app_nil_r. reflexivity.
Qed.

(** What every read-back of a whole text rests on. *)
Lemma csv_parse_toCsv (keys : list string) (rows : list Row) :
  keys <> [] ->
  (2 <= length keys)%nat \/ ends_with_text keys rows ->
  csv_parse (toCsv keys rows) = Some (table_cells keys rows).
Proof.
  intros Hk Hend. rewrite toCsv_lines.
  apply csv_parse_table_cells; [exact Hk|].
  destruct Hend as [Hlen|Hend]; [|exact Hend].
  destruct keys as [|k1 [|k2 keys]]; simpl in Hlen; try lia.
  apply two_columns_end_with_text.
Qed.



End CsvExport.

(** ** The authorization engine: approvals and the threshold *)
Section EngineProperties.
Import Engine.
Local Open Scope Z_scope.
Variables dayLength weekLength expiryWindow minimumInterval : Z.

Local Abbreviation step := (Engine.step dayLength weekLength expiryWindow minimumInterval).
Local Abbreviation apply_call :=
  (Engine.apply_call dayLength weekLength expiryWindow minimumInterval).
Local Abbreviation run := (Engine.run dayLength weekLength expiryWindow minimumInterval).
Local Abbreviation never_raises :=
  (Engine.never_raises dayLength weekLength expiryWindow minimumInterval).
Local Abbreviation raises_threshold :=
  (Engine.raises_threshold dayLength weekLength expiryWindow
     minimumInterval).

Lemma bind_Ok {A B : Type} (r : Result A) (k : A -> Result B) (b : B) :
  bind r k = Ok b -> exists a, r = Ok a /\ k a = Ok b.
Proof. destruct r as [a|e]; simpl; [eauto|discriminate]. Qed.

Lemma require_Ok (c : bool) (e : VaultErrorCode) (u : unit) :
  require c e = Ok u -> c = true.
Proof. destruct c; [reflexivity|discriminate]. Qed.

Lemma from_option_Ok {A : Type} (o : option A) (e : VaultErrorCode) (a : A) :
  from_option o e = Ok a -> o = Some a.
Proof. destruct o; simpl; congruence. Qed.

(** Take a successful run of an operation apart into the checks that
    passed and the state it built. *)
Ltac unbind :=
  repeat match goal with
    | H : bind _ _ = Ok _ |- _ =>
        let a := fresh "a" in
        let Ha := fresh "Hcheck" in
        apply bind_Ok in H as (a & Ha & H)
    | H : require _ _ = Ok _ |- _ => apply require_Ok in H
    | H : from_option _ _ = Ok _ |- _ => apply from_option_Ok in H
    | H : the_config _ = Ok _ |- _ => apply from_option_Ok in H
    | H : fst_result _ = Ok _ |- _ => unfold fst_result in H
    | H : Ok _ = Ok _ |- _ => injection H as H
    | H : Err _ = Ok _ |- _ => discriminate H
    end.

Lemma status_is_true (st : ProposalStatus) (p : Proposal) :
  status_is st p = true -> status p = st.
Proof.
  unfold status_is. intros H%Z.eqb_eq.
  destruct (status p), st; simpl in H; congruence || lia.
Qed.

(** What a successful call does to the arena of proposals. *)
Lemma step_proposals (env : Env) (s s' : State) (call : Call) :
  step env s call = Ok s' ->
  proposals s' = proposals s \/
  (exists p, proposals s' = proposals s ++ [p] /\ status p = Pending /\
             config s <> None) \/
  (exists pid p p',
      proposals s !! pid = Some p /\
      proposals s' = <[pid := p']> (proposals s) /\
      approvals p ⊆ approvals p' /\
      config s' = config s /\
      (status p = Pending \/ status p = Approved /\ status p' = Executed) /\
      (status p' = Approved -> current_threshold s' <= approval_count p')).
Proof.
  intros H. destruct call; simpl in H.
  - unfold initialize in H. destruct (config s); [discriminate|].
    unbind. subst s'. left. reflexivity.
  - unfold setRole in H. unbind. subst s'. left. reflexivity.
  - unfold addSigner in H. unbind. subst s'. left. reflexivity.
  - unfold removeSigner in H. unbind. subst s'. left. reflexivity.
  - unfold updateThreshold in H. unbind. subst s'. left. reflexivity.
  - unfold updateLimits in H. unbind. subst s'. left. reflexivity.
  - unfold proposeTransfer in H. unbind. subst. right; left.
    eexists. split; [reflexivity|]. split; [reflexivity|]. congruence.
  - unfold approveProposal in H. unbind. subst s'. right; right.
    eexists _, _, _. split; [eassumption|]. split; [reflexivity|].
    split; [simpl; set_solver|]. split; [reflexivity|].
    split; [left; apply status_is_true; assumption|].
    simpl. unfold current_threshold, approval_count. simpl.
    rewrite Hcheck. 
    destruct (threshold a <=? Z.of_nat (size ({[signer]} ∪ approvals a0))) eqn:E;
      [|discriminate]. intros _. apply Z.leb_le. exact E.
  - unfold rejectProposal in H. unbind. subst s'. right; right.
    eexists _, _, _. split; [eassumption|]. split; [reflexivity|].
    split; [reflexivity|]. split; [reflexivity|].
    split; [left; apply status_is_true; assumption|]. discriminate.
  - unfold executeProposal in H. unbind. subst s'. right; right.
    eexists _, _, _. split; [eassumption|]. split; [reflexivity|].
    split; [reflexivity|]. split; [reflexivity|].
    split; [right; split; [apply status_is_true; assumption|reflexivity]|].
    discriminate.
  - unfold schedulePayment in H. unbind. subst. left. reflexivity.
  - unfold executeRecurringPayment in H. unbind. subst s'. left. reflexivity.
Qed.

(** A successful call never unsets the configuration, and only an
    initialization or a raising [updateThreshold] raises the threshold. *)
Lemma step_threshold (env : Env) (s s' : State) (call : Call) :
  step env s call = Ok s' ->
  (config s' = None -> config s = None) /\
  (raises_threshold env s call = false ->
   current_threshold s' <= current_threshold s \/ config s = None).
Proof.
  intros H. split.
  - destruct call; simpl in H.
    + unfold initialize in H. destruct (config s) eqn:E; [discriminate|].
      reflexivity.
    + unfold setRole in H. unbind. subst s'. simpl. tauto.
    + unfold addSigner in H. unbind. subst s'. discriminate.
    + unfold removeSigner in H. unbind. subst s'. discriminate.
    + unfold updateThreshold in H. unbind. subst s'. discriminate.
    + unfold updateLimits in H. unbind. subst s'. discriminate.
    + unfold proposeTransfer in H. unbind. subst. simpl. tauto.
    + unfold approveProposal in H. unbind. subst s'. simpl. tauto.
    + unfold rejectProposal in H. unbind. subst s'. simpl. tauto.
    + unfold executeProposal in H. unbind. subst s'. simpl. tauto.
    + unfold schedulePayment in H. unbind. subst. simpl. tauto.
    + unfold executeRecurringPayment in H. unbind. subst s'. simpl. tauto.
  - intros Hr. unfold current_threshold. destruct call.
    5: { unfold Engine.raises_threshold, Engine.apply_call in Hr.
         rewrite H in Hr. apply Z.ltb_ge in Hr. left. exact Hr. }
    all: simpl in H.
    + unfold initialize in H. destruct (config s) eqn:E; [discriminate|].
      right. reflexivity.
    + unfold setRole in H. unbind. subst s'. simpl. left. lia.
    + unfold addSigner in H. unbind. subst s'. simpl. rewrite Hcheck0.
      left. simpl. lia.
    + unfold removeSigner in H. unbind. subst s'. simpl. rewrite Hcheck0.
      left. simpl. lia.
    + unfold updateLimits in H. unbind. subst s'. simpl. rewrite Hcheck0.
      left. simpl. lia.
    + unfold proposeTransfer in H. unbind. subst. simpl. left. lia.
    + unfold approveProposal in H. unbind. subst s'. simpl. left. lia.
    + unfold rejectProposal in H. unbind. subst s'. simpl. left. lia.
    + unfold executeProposal in H. unbind. subst s'. simpl. left. lia.
    + unfold schedulePayment in H. unbind. subst. simpl. left. lia.
    + unfold executeRecurringPayment in H. unbind. subst s'. simpl.
      left. lia.
Qed.

Lemma apply_call_cases (env : Env) (s : State) (call : Call) :
  (exists e, step env s call = Err e /\ apply_call env s call = s) \/
  (step env s call = Ok (apply_call env s call)).
Proof.
  unfold Engine.apply_call. destruct (step env s call) as [s'|e]; eauto.
Qed.

(** A refused call raises nothing. *)
Lemma refused_raises_nothing (env : Env) (s : State) (call : Call)
    (e : VaultErrorCode) :
  step env s call = Err e ->
  raises_threshold env s call = false /\ apply_call env s call = s.
Proof.
  intros H.
  assert (apply_call env s call = s) as Hs.
  { unfold Engine.apply_call. rewrite H. reflexivity. }
  split; [|exact Hs].
  destruct call; try reflexivity.
  unfold Engine.raises_threshold.
  fold (apply_call env s (UpdateThreshold caller n)). rewrite Hs.
  apply Z.ltb_irrefl.
Qed.

(** Before initialization there are no proposals. *)
Lemma run_uninitialized (s : State) (calls : list (Env * Call)) :
  (config s = None -> proposals s = []) ->
  config (run s calls) = None -> proposals (run s calls) = [].
Proof.
  revert s. induction calls as [|[env call] calls IH]; intros s Hs; simpl.
  - exact Hs.
  - apply IH. 
    destruct (apply_call_cases env s call) as [(e & _ & ->)|Hok]; [exact Hs|].
    intros Hnone. 
    pose proof (proj1 (step_threshold _ _ _ _ Hok) Hnone) as Hcfg.
    specialize (Hs Hcfg).
    destruct (step_proposals _ _ _ _ Hok)
      as [->|[(p & _ & _ & Hc)|(pid & p & p' & Hp & _)]].
    + exact Hs.
    + contradiction.
    + rewrite Hs in Hp. discriminate.
Qed.

Lemma step_keeps_proposals (env : Env) (s s' : State) (call : Call)
    (pid : nat) (p : Proposal) :
  step env s call = Ok s' -> proposals s !! pid = Some p ->
  exists p', proposals s' !! pid = Some p' /\ approvals p ⊆ approvals p'.
Proof.
  intros Hok Hp.
  destruct (step_proposals _ _ _ _ Hok)
    as [->|[(q & -> & _)|(i & q & q' & Hq & -> & Hsub & _)]].
  - eauto.
  - exists p. split; [apply lookup_app_l_Some, Hp|reflexivity].
  - destruct (decide (i = pid)) as [->|Hne].
    + exists q'. split.
      * apply list_lookup_insert_eq. eapply lookup_lt_Some, Hp.
      * rewrite Hp in Hq. injection Hq as <-. exact Hsub.
    + exists p. split; [|reflexivity].
      rewrite list_lookup_insert_ne by exact Hne. exact Hp.
Qed.

Lemma apply_call_keeps_proposals (env : Env) (s : State) (call : Call)
    (pid : nat) (p : Proposal) :
  proposals s !! pid = Some p ->
  exists p', proposals (apply_call env s call) !! pid = Some p' /\
             approvals p ⊆ approvals p'.
Proof.
  intros Hp.
  destruct (apply_call_cases env s call) as [(e & _ & ->)|Hok].
  - exists p. split; [exact Hp|reflexivity].
  - eapply step_keeps_proposals; eassumption.
Qed.

Lemma run_keeps_proposals (s : State) (calls : list (Env * Call))
    (pid : nat) (p : Proposal) :
  proposals s !! pid = Some p ->
  exists p', proposals (run s calls) !! pid = Some p' /\
             approvals p ⊆ approvals p'.
Proof.
  revert s p. induction calls as [|[env call] calls IH]; intros s p Hp.
  - exists p. split; [exact Hp|reflexivity].
  - destruct (apply_call_keeps_proposals env s call pid p Hp)
      as (p1 & Hp1 & Hsub1).
    destruct (IH _ p1 Hp1) as (p' & Hp' & Hsub).
    exists p'. split; [exact Hp'|]. etransitivity; eassumption.
Qed.

Lemma step_approved (env : Env) (s s' : State) (call : Call)
    (pid : nat) (p' : Proposal) :
  step env s call = Ok s' -> proposals s' !! pid = Some p' ->
  status p' = Approved ->
  proposals s !! pid = Some p' \/ current_threshold s' <= approval_count p'.
Proof.
  intros Hok Hp' Hst.
  destruct (step_proposals _ _ _ _ Hok)
    as [E|[(q & E & Hq & _)|(i & q & q' & Hq & E & _ & _ & _ & Happ)]];
    rewrite E in Hp'.
  - left. exact Hp'.
  - apply lookup_app_Some in Hp' as [Hp'|[_ Hp']]; [left; exact Hp'|].
    apply list_lookup_singleton_Some in Hp' as [_ <-]. congruence.
  - apply list_lookup_insert_Some in Hp' as [(_ & <- & _)|[_ Hp']].
    + right. apply Happ, Hst.
    + left. exact Hp'.
Qed.

Lemma apply_call_approved (env : Env) (s : State) (call : Call)
    (pid : nat) (p' : Proposal) :
  proposals (apply_call env s call) !! pid = Some p' ->
  status p' = Approved ->
  proposals s !! pid = Some p' \/
  meets_threshold (apply_call env s call) p'.
Proof.
  intros Hp' Hst.
  destruct (apply_call_cases env s call) as [(e & _ & E)|Hok].
  - left. rewrite E in Hp'. exact Hp'.
  - eapply step_approved; eassumption.
Qed.

Lemma apply_call_uninitialized (env : Env) (s : State) (call : Call) :
  uninitialized_empty s -> uninitialized_empty (apply_call env s call).
Proof. intros Hs. exact (run_uninitialized s [(env, call)] Hs). Qed.

Lemma apply_call_meets_threshold (env : Env) (s : State) (call : Call) :
  uninitialized_empty s -> raises_threshold env s call = false ->
  approved_meets_threshold s ->
  approved_meets_threshold (apply_call env s call).
Proof.
  intros Hun Hr Hinv.
  destruct (apply_call_cases env s call) as [(e & _ & ->)|Hok]; [exact Hinv|].
  intros pid p' Hp' Hst.
  destruct (step_approved _ _ _ _ _ _ Hok Hp' Hst) as [Hold|Hnew];
    [|exact Hnew].
  destruct (proj2 (step_threshold _ _ _ _ Hok) Hr) as [Hle|Hnone].
  - specialize (Hinv pid p' Hold Hst). lia.
  - rewrite (Hun Hnone) in Hold. discriminate.
Qed.

Lemma run_meets_threshold (s : State) (calls : list (Env * Call)) :
  uninitialized_empty s -> approved_meets_threshold s ->
  never_raises s calls -> approved_meets_threshold (run s calls).
Proof.
  revert s. induction calls as [|[env call] calls IH]; intros s Hun Hinv Hnr.
  - exact Hinv.
  - destruct Hnr as [Hr Hnr]. simpl. apply IH.
    + apply apply_call_uninitialized, Hun.
    + apply apply_call_meets_threshold; assumption.
    + exact Hnr.
Qed.

(** *** One proposal followed through later calls *)

(** An Approved or Executed proposal that meets the threshold while it is
    Approved stays so through a call that does not raise the threshold. *)
Lemma apply_call_keeps_meeting (env : Env) (s : State) (call : Call)
    (pid : nat) (p : Proposal) :
  uninitialized_empty s -> raises_threshold env s call = false ->
  proposals s !! pid = Some p ->
  status p = Approved \/ status p = Executed ->
  (status p = Approved -> meets_threshold s p) ->
  exists p',
    proposals (apply_call env s call) !! pid = Some p' /\
    (status p' = Approved \/ status p' = Executed) /\
    (status p' = Approved -> meets_threshold (apply_call env s call) p').
Proof.
  intros Hun Hr Hp Hst Hmeets.
  destruct (apply_call_cases env s call) as [(e & _ & ->)|Hok]; [eauto|].
  assert (current_threshold (apply_call env s call) <= current_threshold s)
    as Hle.
  { destruct (proj2 (step_threshold _ _ _ _ Hok) Hr) as [Hle|Hnone];
      [exact Hle|].
    rewrite (Hun Hnone) in Hp. discriminate Hp. }
  assert (forall q, q = p ->
            (status q = Approved \/ status q = Executed) /\
            (status q = Approved ->
             meets_threshold (apply_call env s call) q)) as Hsame.
  { intros q ->. split; [exact Hst|].
    intros Ha. specialize (Hmeets Ha). unfold meets_threshold in *. lia. }
  destruct (step_proposals _ _ _ _ Hok)
    as [E|[(q & E & _)|(i & q & q' & Hq & E & _ & _ & Htr & _)]].
  - exists p. rewrite E. split; [exact Hp|]. apply Hsame. reflexivity.
  - exists p. rewrite E.
    split; [apply lookup_app_l_Some, Hp|]. apply Hsame. reflexivity.
  - rewrite E. destruct (decide (i = pid)) as [->|Hne].
    + rewrite Hp in Hq. injection Hq as <-. exists q'.
      split; [apply list_lookup_insert_eq; eapply lookup_lt_Some, Hp|].
      destruct Htr as [Hpend|[_ Hexec]].
      * destruct Hst as [Hst|Hst]; congruence.
      * split; [right; exact Hexec|]. congruence.
    + exists p. rewrite list_lookup_insert_ne by exact Hne.
      split; [exact Hp|]. apply Hsame. reflexivity.
Qed.

Lemma run_keeps_meeting (s : State) (calls : list (Env * Call))
    (pid : nat) (p : Proposal) :
  uninitialized_empty s -> never_raises s calls ->
  proposals s !! pid = Some p ->
  status p = Approved \/ status p = Executed ->
  (status p = Approved -> meets_threshold s p) ->
  exists p',
    proposals (run s calls) !! pid = Some p' /\
    (status p' = Approved \/ status p' = Executed) /\
    (status p' = Approved -> meets_threshold (run s calls) p').
Proof.
  revert s p.
  induction calls as [|[env call] calls IH]; intros s p Hun Hnr Hp Hst Hm.
  - eauto.
  - destruct Hnr as [Hr Hnr].
    destruct (apply_call_keeps_meeting env s call pid p Hun Hr Hp Hst Hm)
      as (p1 & Hp1 & Hst1 & Hm1).
    exact (IH _ p1 (apply_call_uninitialized env s call Hun) Hnr
              Hp1 Hst1 Hm1).
Qed.

(** *** The approvals of every proposal are signers *)

Lemma has_not_approved_spec (a : Address) (s : State) (pid : nat)
    (p : Proposal) :
  has_not_approved a s = true -> proposals s !! pid = Some p ->
  a ∉ approvals p.
Proof.
  unfold has_not_approved. intros H Hp.
  rewrite forallb_forall in H.
  specialize (H p). rewrite <- list_elem_of_In in H.
  specialize (H (list_elem_of_lookup_2 _ _ _ Hp)).
  apply negb_true_iff, bool_decide_eq_false in H. exact H.
Qed.

(** Identifies the configuration a check read with the one the invariant
    speaks of. *)
Ltac same_config :=
  match goal with
  | H1 : config ?s = Some ?a, H2 : config ?s = Some ?b |- _ =>
      assert (b = a) as -> by congruence; clear H2
  end.

Lemma step_approvals_are_signers (env : Env) (s s' : State) (call : Call) :
  step env s call = Ok s' -> uninitialized_empty s ->
  approvals_are_signers s -> approvals_are_signers s'.
Proof.
  intros H Hun Hinv pid p x Hp Hx. unfold isSigner.
  assert (forall i q, proposals s !! i = Some q -> x ∈ approvals q ->
                      exists c, config s = Some c /\ x ∈ signers c) as Hold.
  { intros i q Hq Hxq. specialize (Hinv i q x Hq Hxq).
    unfold isSigner in Hinv. destruct (config s) as [c|]; [|discriminate].
    exists c. split; [reflexivity|].
    apply bool_decide_eq_true in Hinv. exact Hinv. }
  clear Hinv.
  destruct call; simpl in H.
  - unfold initialize in H. destruct (config s) eqn:E; [discriminate|].
    unbind. subst s'. simpl in Hp. rewrite (Hun E) in Hp. discriminate Hp.
  - unfold setRole in H. unbind. subst s'. simpl in *.
    destruct (Hold _ p Hp Hx) as (c & -> & Hc).
    apply bool_decide_eq_true, Hc.
  - unfold addSigner in H. unbind. subst s'. simpl in *.
    destruct (Hold _ p Hp Hx) as (c & Ec & Hc). same_config.
    apply bool_decide_eq_true. simpl. set_solver.
  - unfold removeSigner in H. unbind. subst s'. simpl in *.
    destruct (Hold _ p Hp Hx) as (c & Ec & Hc). same_config.
    apply bool_decide_eq_true. simpl.
    apply list_elem_of_filter. split; [|exact Hc].
    intros ->. eapply has_not_approved_spec; eassumption.
  - unfold updateThreshold in H. unbind. subst s'. simpl in *.
    destruct (Hold _ p Hp Hx) as (c & Ec & Hc). same_config.
    apply bool_decide_eq_true. exact Hc.
  - unfold updateLimits in H. unbind. subst s'. simpl in *.
    destruct (Hold _ p Hp Hx) as (c & Ec & Hc). same_config.
    apply bool_decide_eq_true. exact Hc.
  - unfold proposeTransfer in H. unbind. subst. simpl in *.
    apply lookup_app_Some in Hp as [Hp|[_ Hp]].
    + destruct (Hold _ p Hp Hx) as (c & -> & Hc).
      apply bool_decide_eq_true, Hc.
    + apply list_lookup_singleton_Some in Hp as [_ <-]. simpl in Hx.
      set_solver.
  - unfold approveProposal in H. unbind. subst s'. simpl in *.
    apply list_lookup_insert_Some in Hp as [(-> & <- & _)|[_ Hp]].
    + simpl in Hx. apply elem_of_union in Hx as [Hx|Hx].
      * apply elem_of_singleton in Hx as ->.
        match goal with
        | Hc : config s = Some _ |- _ => rewrite Hc
        end. assumption.
      * destruct (Hold _ _ ltac:(eassumption) Hx) as (c & -> & Hc).
        apply bool_decide_eq_true, Hc.
    + destruct (Hold _ p Hp Hx) as (c & -> & Hc).
      apply bool_decide_eq_true, Hc.
  - unfold rejectProposal in H. unbind. subst s'. simpl in *.
    apply list_lookup_insert_Some in Hp as [(-> & <- & _)|[_ Hp]].
    + simpl in Hx.
      destruct (Hold _ _ ltac:(eassumption) Hx) as (c & -> & Hc).
      apply bool_decide_eq_true, Hc.
    + destruct (Hold _ p Hp Hx) as (c & -> & Hc).
      apply bool_decide_eq_true, Hc.
  - unfold executeProposal in H. unbind. subst s'. simpl in *.
    apply list_lookup_insert_Some in Hp as [(-> & <- & _)|[_ Hp]].
    + simpl in Hx.
      destruct (Hold _ _ ltac:(eassumption) Hx) as (c & -> & Hc).
      apply bool_decide_eq_true, Hc.
    + destruct (Hold _ p Hp Hx) as (c & -> & Hc).
      apply bool_decide_eq_true, Hc.
  - unfold schedulePayment in H. unbind. subst. simpl in *.
    destruct (Hold _ p Hp Hx) as (c & -> & Hc).
    apply bool_decide_eq_true, Hc.
  - unfold executeRecurringPayment in H. unbind. subst s'. simpl in *.
    destruct (Hold _ p Hp Hx) as (c & -> & Hc).
    apply bool_decide_eq_true, Hc.
Qed.

Lemma run_approvals_are_signers (s : State) (calls : list (Env * Call)) :
  uninitialized_empty s -> approvals_are_signers s ->
  approvals_are_signers (run s calls).
Proof.
  revert s. induction calls as [|[env call] calls IH]; intros s Hun Hinv.
  - exact Hinv.
  - simpl. apply IH; [apply apply_call_uninitialized, Hun|].
    destruct (apply_call_cases env s call) as [(e & _ & ->)|Hok];
      [exact Hinv|].
    eapply step_approvals_are_signers; eassumption.
Qed.

Lemma empty_state_uninitialized : uninitialized_empty empty_state.
Proof. intros _. reflexivity. Qed.

Lemma empty_state_meets_threshold : approved_meets_threshold empty_state.
Proof. intros pid p Hp. discriminate. Qed.

Lemma empty_state_approvals_are_signers : approvals_are_signers empty_state.
Proof. intros pid p a Hp. discriminate. Qed.

End EngineProperties.



(** ** The engine against the scenarios of the specification *)

Lemma getRole_default (s : Engine.State) (a : Engine.Address) :
  Engine.roles s !! a = None -> Engine.getRole s a = Member.
Proof. unfold Engine.getRole. intros ->. reflexivity. Qed.

(** Section 8, on the model: executing the approved proposal of 500 marks
    it Executed and records 500 for the day; a second approval by the same
    signer is refused; executing twice is refused; the second proposal of 600
    exceeds the daily limit of 1000 and stays Approved; of three signers
    with threshold 2 a second one cannot be removed, and a signer whose
    approval a proposal holds cannot be removed; an interval of 100 is too
    short, one of
    720 is accepted, the payment is not due before ledger 730 and, run at 730,
    is due next at 1450. *)
Example engine_scenarios :
  let s1 := Engine.scenario_run Engine.scenario_executed in
  let s2 := Engine.scenario_run Engine.scenario_second in
  let s3 := Engine.scenario_run Engine.scenario_scheduled in
  (map Engine.status (Engine.proposals s1) = [Executed] /\
   Engine.spent (Engine.dailySpent s1) 0 = 500) /\
  Engine.error_of
    (Engine.scenario_step Engine.scenario_env
       (Engine.scenario_run
          (firstn 5 Engine.scenario_approved))
       (Engine.ApproveProposal "B" 0)) = Some AlreadyApproved /\
  Engine.error_of
    (Engine.scenario_step Engine.scenario_env
       (Engine.scenario_run (firstn 5 Engine.scenario_approved))
       (Engine.ExecuteProposal "B" 0)) = Some ProposalNotApproved /\
  Engine.error_of
    (Engine.scenario_step Engine.scenario_env s1
       (Engine.ExecuteProposal "B" 0)) = Some ProposalAlreadyExecuted /\
  (Engine.error_of
     (Engine.scenario_step Engine.scenario_env s2
        (Engine.ExecuteProposal "B" 1)) = Some ExceedsDailyLimit /\
   map Engine.status (Engine.proposals s2) = [Executed; Approved] /\
   Engine.spent (Engine.dailySpent s2) 0 = 500) /\
  Engine.error_of
    (Engine.scenario_step Engine.scenario_env
       (Engine.scenario_run
          (Engine.scenario_initialized
             ++ [(Engine.scenario_env, Engine.RemoveSigner "A" "C")]))
       (Engine.RemoveSigner "A" "B")) = Some CannotRemoveSigner /\
  Engine.error_of
    (Engine.scenario_step Engine.scenario_env
       (Engine.scenario_run Engine.scenario_approved)
       (Engine.RemoveSigner "A" "C")) = Some CannotRemoveSigner /\
  Engine.error_of
    (Engine.scenario_step Engine.scenario_env s1
       (Engine.SchedulePayment "A" "R" "T" 5 "rent" 100))
    = Some IntervalTooShort /\
  map Engine.nextDueAt (Engine.payments s3) = [730] /\
  Engine.error_of
    (Engine.scenario_step (Engine.scenario_env_at 729) s3
       (Engine.ExecuteRecurringPayment "keeper" 0))
    = Some TimelockNotExpired /\
  map Engine.nextDueAt
      (Engine.payments
         (Engine.scenario_run
            (Engine.scenario_scheduled
               ++ [(Engine.scenario_env_at 730,
                    Engine.ExecuteRecurringPayment "keeper" 0)])))
    = [1450].
Proof. vm_compute. repeat split. Qed.

(* ===================================================================== *)
(** * Part III: further properties of the code                             *)
(* ===================================================================== *)

(** ** utils.ts: what [parseError] recognises *)

Section ParseErrorFacts.

Lemma strip_prefix_Some (p s r : string) :
  strip_prefix p s = Some r -> s = p +:+ r.
Proof.
  revert s. induction p as [|a p IH]; intros s; simpl.
  - intros [= ->]. reflexivity.
  - destruct s as [|b s]; [discriminate|].
    destruct (Ascii.eqb a b) eqn:E; [|discriminate].
    apply Ascii.eqb_eq in E as ->. intros H%IH. subst s. reflexivity.
Qed.

Lemma skip_spaces_split (s : string) :
  exists ws, s = ws +:+ skip_spaces s /\ string_forall is_space ws = true.
Proof.
  induction s as [|a s [ws [E Hws]]]; simpl.
  - exists EmptyString. split; reflexivity.
  - destruct (is_space a) eqn:Ha.
    + exists (String a ws). split.
      * rewrite string_app_cons. f_equal. exact E.
      * simpl. rewrite Ha. exact Hws.
    + exists EmptyString. split; reflexivity.
Qed.

Lemma take_digits_split (s ds r : string) :
  take_digits s = (ds, r) ->
  s = ds +:+ r /\ string_forall is_digit ds = true.
Proof.
  revert ds r. induction s as [|a s IH]; intros ds r; simpl.
  - intros [= <- <-]. split; reflexivity.
  - destruct (is_digit a) eqn:Ha.
    + destruct (take_digits s) as [ds' r'] eqn:E. intros [= <- <-].
      destruct (IH ds' r' eq_refl) as [-> Hds]. split.
      * reflexivity.
      * simpl. rewrite Ha. exact Hds.
    + intros [= <- <-]. split; reflexivity.
Qed.

(** A match at the start of [s] spells out the pattern. *)
Lemma match_here_sound (s ds : string) :
  match_here s = Some ds ->
  exists ws post,
    s = "Error(Contract," +:+ ws +:+ ds +:+ ")" +:+ post /\
    string_forall is_space ws = true /\
    string_forall is_digit ds = true /\ ds <> EmptyString.
Proof.
  unfold match_here.
  destruct (strip_prefix "Error(Contract," s) as [r|] eqn:Hp; [|discriminate].
  apply strip_prefix_Some in Hp.
  destruct (skip_spaces_split r) as [ws [Hr Hws]].
  destruct (take_digits (skip_spaces r)) as [ds' r'] eqn:Ht.
  apply take_digits_split in Ht as [Ht Hds].
  destruct ds' as [|d ds']; [discriminate|].
  destruct r' as [|b r']; [discriminate|].
  destruct b as [[] [] [] [] [] [] [] []]; try discriminate.
  intros [= <-]. exists ws, r'.
  split; [|split; [exact Hws|split; [exact Hds|discriminate]]].
  rewrite Hp, Hr at 1. rewrite Ht. reflexivity.
Qed.

Lemma regex_match_sound (s ds : string) (i : nat) :
  regex_match s = Some (i, ds) ->
  exists pre rest,
    s = pre +:+ rest /\ String.length pre = i /\ match_here rest = Some ds.
Proof.
  revert i. induction s as [|a s IH]; intros i.
  - discriminate.
  - cbn [regex_match].
    destruct (match_here (String a s)) as [ds'|] eqn:E.
    + intros [= <- <-]. exists EmptyString, (String a s). auto.
    + destruct (regex_match s) as [[j ds']|] eqn:Es; [|discriminate].
      intros [= <- <-].
      destruct (IH j eq_refl) as (pre & rest & -> & <- & Hm).
      exists (String a pre), rest. auto.
Qed.

Lemma code_of_value_Some (n : Z) (c : VaultErrorCode) :
  code_of_value n = Some c -> code_value c = n.
Proof.
  unfold code_of_value. intros H.
  apply find_some in H as [_ H]. apply Z.eqb_eq in H. exact H.
Qed.

(** X1: [code in VaultErrorCode] for a number, i.e. the reverse mapping of
    the enum, finds a member exactly for the 25 declared values, and the
    member found is the one with that value. *)
Theorem code_of_value_iff (n : Z) (c : VaultErrorCode) :
  code_of_value n = Some c <-> code_value c = n.
Proof.
  split; [apply code_of_value_Some|].
  intros <-. apply code_of_value_code_value.
Qed.

(** X2: [parseError] never makes up a contract error.  When it turns a value
    that is not a [VaultError] into one, the value's message spells out the
    pattern: the text "Error(Contract," followed by white space, a non-empty
    run of decimal digits and a closing parenthesis; the digits read as the
    number of the code returned, and the message of the result is the
    constructor's default. *)
Theorem parseError_VaultError_sound
    (x : JsValue) (c : VaultErrorCode) (m : string)
    (Hfresh : is_VaultError x = false)
    (Hres : parseError x = Returned (JsVaultError c m)) :
  m = VaultError_default_message c /\
  exists pre ws ds post,
    message_of x
      = Returned (pre +:+ "Error(Contract," +:+ ws +:+ ds +:+ ")" +:+ post) /\
    string_forall is_space ws = true /\
    string_forall is_digit ds = true /\
    ds <> EmptyString /\
    parseInt10 ds = code_value c.
Proof.
  rewrite parseError_fresh in Hres by exact Hfresh.
  destruct (message_of x) as [message|e]; [|discriminate Hres].
  assert (Hcode : contract_code message = Some c /\
                  m = VaultError_default_message c).
  { destruct (contract_code message) as [c'|].
    - unfold new_VaultError in Hres. injection Hres as -> <-. auto.
    - destruct x; discriminate. }
  destruct Hcode as [Hcode ->]. split; [reflexivity|].
  unfold contract_code in Hcode.
  destruct (regex_match message) as [[i ds]|] eqn:Hm; [|discriminate].
  apply code_of_value_Some in Hcode.
  apply regex_match_sound in Hm as (pre & rest & Hx & _ & Hm).
  apply match_here_sound in Hm as (ws & post & -> & Hws & Hds & Hne).
  exists pre, ws, ds, post. rewrite Hx. auto.
Qed.

Lemma parseError_VaultError_sound_witness :
  exists pre ws ds post,
    message_of (JsString "sim: Error(Contract, 505)") =
      Returned (pre +:+ "Error(Contract," +:+ ws +:+ ds +:+ ")" +:+ post) /\
    string_forall is_space ws = true /\
    string_forall is_digit ds = true /\
    ds <> EmptyString /\
    parseInt10 ds = 505.
Proof.
  exact (proj2 (parseError_VaultError_sound
                  (JsString "sim: Error(Contract, 505)") NoSigners
                  (VaultError_default_message NoSigners) eq_refl eq_refl)).
Defined.

Lemma strip_prefix_app (p r : string) : strip_prefix p (p +:+ r) = Some r.
Proof.
  induction p as [|a p IH]; [reflexivity|].
  rewrite string_app_cons. simpl. rewrite Ascii.eqb_refl. exact IH.
Qed.

Lemma skip_spaces_app (ws r : string) :
  string_forall is_space ws = true ->
  skip_spaces (ws +:+ r) = skip_spaces r.
Proof.
  induction ws as [|a ws IH]; [reflexivity|]. simpl.
  intros [Ha Hws]%andb_true_iff.
  rewrite Ha. apply IH, Hws.
Qed.

Lemma digit_not_space (a : ascii) : is_digit a = true -> is_space a = false.
Proof.
  unfold is_digit, is_space. intros [H1 H2]%andb_true_iff.
  apply N.leb_le in H1. apply N.leb_le in H2.
  repeat (apply orb_false_iff; split);
    [apply andb_false_iff; right; apply N.leb_gt; lia
    |apply N.eqb_neq; lia|apply N.eqb_neq; lia].
Qed.

Lemma take_digits_app (ds post : string) :
  string_forall is_digit ds = true ->
  take_digits (ds +:+ String ")" post) = (ds, String ")" post).
Proof.
  induction ds as [|a ds IH]; [reflexivity|]. simpl.
  intros [Ha Hds]%andb_true_iff.
  rewrite Ha, (IH Hds). reflexivity.
Qed.

Lemma match_here_complete (ws ds post : string) :
  string_forall is_space ws = true ->
  string_forall is_digit ds = true -> ds <> EmptyString ->
  match_here ("Error(Contract," +:+ ws +:+ ds +:+ ")" +:+ post) = Some ds.
Proof.
  intros Hws Hds Hne. unfold match_here.
  rewrite strip_prefix_app, skip_spaces_app by exact Hws.
  destruct ds as [|d ds]; [congruence|].
  assert (Hd : is_space d = false).
  { apply digit_not_space. simpl in Hds.
    apply andb_true_iff in Hds as [Hd _]. exact Hd. }
  rewrite string_app_cons. cbn [skip_spaces]. rewrite Hd.
  rewrite <- string_app_cons.
  change (")" +:+ post) with (String ")" post).
  rewrite take_digits_app by exact Hds. reflexivity.
Qed.

Lemma regex_match_here (s ds : string) :
  match_here s = Some ds -> regex_match s = Some (O, ds).
Proof.
  intros H. destruct s as [|a s]; [discriminate H|].
  cbn [regex_match]. rewrite H. reflexivity.
Qed.

Lemma parseInt10_leading_zero (ds : string) :
  parseInt10 (String "0" ds) = parseInt10 ds.
Proof. reflexivity. Qed.

Lemma string_forall_app (p : ascii -> bool) (s t : string) :
  string_forall p (s +:+ t) = string_forall p s && string_forall p t.
Proof.
  induction s as [|a s IH]; [reflexivity|].
  simpl. rewrite IH, andb_assoc. reflexivity.
Qed.

Lemma zeros_are_digits (zeros : string) :
  string_forall (Ascii.eqb "0") zeros = true ->
  string_forall is_digit zeros = true.
Proof.
  induction zeros as [|a zs IH]; [reflexivity|]. cbn [string_forall].
  intros [Ha Hzs]%andb_true_iff. apply Ascii.eqb_eq in Ha as <-.
  rewrite (IH Hzs). reflexivity.
Qed.

Lemma parseInt10_leading_zeros (zeros ds : string) :
  string_forall (Ascii.eqb "0") zeros = true ->
  parseInt10 (zeros +:+ ds) = parseInt10 ds.
Proof.
  induction zeros as [|a zs IH]; [reflexivity|]. cbn [string_forall].
  intros [Ha Hzs]%andb_true_iff. apply Ascii.eqb_eq in Ha as <-.
  rewrite <- (IH Hzs). reflexivity.
Qed.

Lemma decimal_digits (c : VaultErrorCode) :
  string_forall is_digit (decimal (code_value c)) = true.
Proof. destruct c; reflexivity. Qed.

(** X3: a message that starts with the pattern is recognised whatever the
    white space after the comma and however many zeros lead the number: the
    text "Error(Contract," followed by any run of white space, any run of
    zeros, the decimal value of code [c] and a closing parenthesis gives the
    [VaultError] of [c], whatever follows. *)
Theorem parseError_accepts_spacing
    (c : VaultErrorCode) (ws zeros post : string)
    (Hws : string_forall is_space ws = true)
    (Hzs : string_forall (Ascii.eqb "0") zeros = true) :
  parseError
    (JsError ("Error(Contract," +:+ ws +:+
              (zeros +:+ decimal (code_value c)) +:+ ")" +:+ post))
    = Returned (new_VaultError c).
Proof.
  unfold parseError, message_of, contract_code. cbn [is_VaultError].
  rewrite (regex_match_here _ (zeros +:+ decimal (code_value c))).
  - rewrite parseInt10_leading_zeros by exact Hzs.
    rewrite parseInt10_decimal, code_of_value_code_value. reflexivity.
  - apply match_here_complete.
    + exact Hws.
    + rewrite string_forall_app, zeros_are_digits, decimal_digits
        by exact Hzs. reflexivity.
    + destruct zeros; [destruct c|]; discriminate.
Qed.

Lemma parseError_accepts_spacing_witness :
  parseError (JsError "Error(Contract,  00404) in simulation")
    = Returned (new_VaultError TimelockNotExpired).
Proof.
  exact (parseError_accepts_spacing TimelockNotExpired
           "  " "00" " in simulation" eq_refl eq_refl).
Defined.

End ParseErrorFacts.

(** ** utils.ts and contract.ts: simulation errors and submission *)

Section TransportFacts.
Import Transport.
Lemma parseError_of_Error (error : string) :
  parseError (JsError error)
    = Returned match contract_code error with
               | Some c => new_VaultError c
               | None => JsError error
               end.
Proof.
  unfold parseError. cbn [is_VaultError message_of instanceof_Error].
  destruct (contract_code error); reflexivity.
Qed.

(** X4: every binding surfaces a failed simulation the same way: once its
    request is built, it throws [parseError] of an [Error] with the
    simulation's text, which is a [VaultError] exactly when the text carries
    a known code first and otherwise an [Error] with the text unchanged;
    parsing what was thrown again, as the callers' catch blocks do, changes
    nothing. *)
Theorem bindings_surface_simulation_errors
    (opts : SdkOptions) (i : Contract.Invocation) (r : Contract.Request)
    (error : string)
    (Hbuilt : Contract.perform opts i = Contract.Ready r) :
  let thrown := match contract_code error with
                | Some c => new_VaultError c
                | None => JsError error
                end in
  parseError (JsError error) = Returned thrown /\
  fulfil (SimulationError error) r = Thrown thrown /\
  parseError thrown = Returned thrown.
Proof.
  intros thrown. split; [|split].
  - apply parseError_of_Error.
  - clear Hbuilt. destruct r; cbn [fulfil]; unfold buildTransaction,
      simulateReadOnly, parseSimulationError;
      rewrite parseError_of_Error; reflexivity.
  - apply (parseError_twice (JsError error)), parseError_of_Error.
Qed.

Lemma bindings_surface_simulation_errors_witness :
  exists r,
    Contract.perform Contract.sample_opts
      (Contract.I_approveProposal Contract.sample_account 4)
      = Contract.Ready r /\
    fulfil (SimulationError "HostError: Error(Contract, 302)") r
      = Thrown (new_VaultError AlreadyApproved).
Proof.
  eexists. split; [vm_compute; reflexivity|].
  exact (proj1 (proj2 (bindings_surface_simulation_errors
                         Contract.sample_opts
                         (Contract.I_approveProposal
                            Contract.sample_account 4)
                         _ "HostError: Error(Contract, 302)"
                         ltac:(vm_compute; reflexivity)))).
Defined.

Lemma poll_bound (net : Network) (hash : string) (remaining i : nat) :
  (snd (poll net hash remaining i) <= i + remaining)%nat /\
  (i <= snd (poll net hash remaining i))%nat.
Proof.
  revert i. induction remaining as [|r IH]; intros i; simpl.
  - lia.
  - destruct (getTransaction net i hash) as [[]|e]; simpl; try lia.
    specialize (IH (S i)). lia.
Qed.

Lemma poll_at_least_one (net : Network) (hash : string) (r i : nat) :
  (S i <= snd (poll net hash (S r) i))%nat.
Proof.
  simpl. destruct (getTransaction net i hash) as [[]|e]; simpl; try lia.
  apply (poll_bound net hash r (S i)).
Qed.

Lemma poll_Returned (net : Network) (hash h : string) (remaining i n : nat) :
  poll net hash remaining i = (Returned h, n) <->
  h = hash /\
  exists k, (k < remaining)%nat /\ n = S (i + k) /\
            getTransaction net (i + k) hash = Returned SUCCESS /\
            forall j, (j < k)%nat ->
                      getTransaction net (i + j) hash = Returned NOT_FOUND.
Proof.
  revert i. induction remaining as [|r IH]; intros i; simpl.
  - split; [discriminate|]. intros [_ (k & Hk & _)]. lia.
  - destruct (getTransaction net i hash) as [[]|e] eqn:E.
    + split.
      * intros [= <- <-]. split; [reflexivity|]. exists O.
        rewrite Nat.add_0_r. repeat split; [lia|exact E|]. intros j Hj. lia.
      * intros [-> (k & Hk & -> & Hs & Hn)]. destruct k as [|k].
        -- rewrite Nat.add_0_r. reflexivity.
        -- specialize (Hn O ltac:(lia)). rewrite Nat.add_0_r in Hn. congruence.
    + rewrite IH. split.
      * intros [-> (k & Hk & -> & Hs & Hn)]. split; [reflexivity|].
        exists (S k). rewrite Nat.add_succ_r. repeat split; [lia|exact Hs|].
        intros j Hj. destruct j as [|j].
        -- rewrite Nat.add_0_r. exact E.
        -- rewrite Nat.add_succ_r. apply Hn. lia.
      * intros [-> (k & Hk & -> & Hs & Hn)]. split; [reflexivity|].
        destruct k as [|k].
        -- rewrite Nat.add_0_r in Hs. congruence.
        -- exists k. rewrite Nat.add_succ_r in Hs |- *.
           repeat split; [lia|exact Hs|].
           intros j Hj. specialize (Hn (S j) ltac:(lia)).
           rewrite Nat.add_succ_r in Hn. exact Hn.
    + split; [discriminate|]. intros [-> (k & Hk & -> & Hs & Hn)].
      destruct k as [|k].
      * rewrite Nat.add_0_r in Hs. congruence.
      * specialize (Hn O ltac:(lia)). rewrite Nat.add_0_r in Hn. congruence.
    + split; [discriminate|]. intros [-> (k & Hk & -> & Hs & Hn)].
      destruct k as [|k].
      * rewrite Nat.add_0_r in Hs. congruence.
      * specialize (Hn O ltac:(lia)). rewrite Nat.add_0_r in Hn. congruence.
Qed.

(** X5: [signAndSubmit] polls at most 30 times, so it sleeps at most 60
    seconds, and it polls only after a send that was not refused: when the
    wallet refuses to sign, when the send throws, and when the send answers
    ERROR, it throws without a single poll.  It returns exactly when the
    wallet signed, the server took the transaction without answering ERROR,
    and some poll among the first 30 answered SUCCESS after none but
    NOT_FOUND answers; what it returns is the hash the send reported, after
    one poll more than the NOT_FOUND answers. *)
Theorem signAndSubmit_confirmation
    (net : Network) (txXdr h : string) (n : nat) :
  (snd (signAndSubmit net txXdr) <= 30)%nat /\
  0 <= slept_ms (snd (signAndSubmit net txXdr)) <= 60000 /\
  (forall e,
     signTransaction net txXdr = Thrown e ->
     signAndSubmit net txXdr = (Thrown e, O)) /\
  (forall signedXdr e,
     signTransaction net txXdr = Returned signedXdr ->
     sendTransaction net signedXdr = Thrown e ->
     signAndSubmit net txXdr = (Thrown e, O)) /\
  (forall signedXdr sendResult,
     signTransaction net txXdr = Returned signedXdr ->
     sendTransaction net signedXdr = Returned sendResult ->
     send_status sendResult = SEND_ERROR ->
     signAndSubmit net txXdr
       = (Thrown (JsError ("Transaction failed: "
                           +:+ send_errorResult sendResult)), O)) /\
  (forall signedXdr sendResult,
     signTransaction net txXdr = Returned signedXdr ->
     sendTransaction net signedXdr = Returned sendResult ->
     send_status sendResult <> SEND_ERROR ->
     (1 <= snd (signAndSubmit net txXdr))%nat) /\
  (signAndSubmit net txXdr = (Returned h, n) <->
   exists signedXdr sendResult k,
     signTransaction net txXdr = Returned signedXdr /\
     sendTransaction net signedXdr = Returned sendResult /\
     send_status sendResult <> SEND_ERROR /\
     h = send_hash sendResult /\
     (k < 30)%nat /\ n = S k /\
     getTransaction net k h = Returned SUCCESS /\
     forall j, (j < k)%nat -> getTransaction net j h = Returned NOT_FOUND).
Proof.
  assert (Hb : (snd (signAndSubmit net txXdr) <= 30)%nat).
  { unfold signAndSubmit.
    destruct (signTransaction net txXdr) as [signed|e]; simpl; [|lia].
    destruct (sendTransaction net signed) as [r|e]; simpl; [|lia].
    destruct (send_status r); simpl; try lia;
      apply (poll_bound net (send_hash r) 30 0). }
  split; [exact Hb|]. split; [unfold slept_ms; lia|].
  unfold signAndSubmit.
  split; [intros e ->; reflexivity|].
  split; [intros signed e -> ->; reflexivity|].
  split; [intros signed r -> -> ->; reflexivity|].
  split.
  { intros signed r -> -> Hne.
    destruct (send_status r); try congruence;
      apply (poll_at_least_one net (send_hash r) 29 0). }
  split.
  - destruct (signTransaction net txXdr) as [signed|e]; [|discriminate].
    destruct (sendTransaction net signed) as [r|e] eqn:E2; [|discriminate].
    destruct (send_status r) eqn:Es; try discriminate;
      intros [-> (k & Hk & -> & Hs & Hn)]%poll_Returned;
      exists signed, r, k; simpl in Hs, Hn;
      (split; [reflexivity|]); (split; [exact E2|]);
      (split; [rewrite Es; discriminate|]); auto 10.
  - intros (signed & r & k & -> & -> & Hne & -> & Hk & -> & Hs & Hn).
    assert (poll net (send_hash r) 30 0 = (Returned (send_hash r), S k)) as Hp.
    { apply poll_Returned. split; [reflexivity|]. exists k. auto. }
    destruct (send_status r); [exact Hp..|congruence].
Qed.

End TransportFacts.

(** ** contract.ts: how the bindings call the contract *)

Section NamingFacts.
Import Naming.
Lemma snake_case_names_distinct (b1 b2 : Contract.Binding) :
  snake_case (Contract.Binding_name b1) = snake_case (Contract.Binding_name b2)
  <-> b1 = b2.
Proof.
  split; [|intros ->; reflexivity].
  destruct b1, b2; vm_compute; intros H; (reflexivity || discriminate H).
Qed.

(** X6: each binding that builds its request calls the contract function
    whose name is the binding's own name in snake_case, on the contract of the
    options it was given; the name does not depend on the arguments, and two
    bindings never call the same function. *)
Theorem bindings_call_their_namesake
    (opts opts' : SdkOptions) (i j : Contract.Invocation)
    (r r' : Contract.Request)
    (Hbuilt : Contract.perform opts i = Contract.Ready r)
    (Hbuilt' : Contract.perform opts' j = Contract.Ready r') :
  let op := Contract.request_operation r in
  let op' := Contract.request_operation r' in
  Contract.op_function op
    = snake_case (Contract.Binding_name (Contract.binding_of i)) /\
  Contract.op_contract op = contractId opts /\
  (Contract.op_function op = Contract.op_function op' <->
   Contract.binding_of i = Contract.binding_of j).
Proof.
  intros op op'.
  apply perform_Ready in Hbuilt as (Hc & Hf & _).
  apply perform_Ready in Hbuilt' as (_ & Hf' & _).
  split; [exact Hf|]. split; [exact Hc|].
  unfold op, op'. rewrite Hf, Hf'. apply snake_case_names_distinct.
Qed.

Lemma bindings_call_their_namesake_witness :
  exists r r',
    Contract.perform Contract.sample_opts
      (Contract.I_approveProposal Contract.sample_account 4)
      = Contract.Ready r /\
    Contract.perform Contract.sample_opts
      (Contract.I_getTodaySpent Contract.sample_account)
      = Contract.Ready r' /\
    Contract.op_function (Contract.request_operation r)
      = "approve_proposal" /\
    Contract.op_contract (Contract.request_operation r)
      = Contract.sample_contract /\
    (Contract.op_function (Contract.request_operation r)
       = Contract.op_function (Contract.request_operation r') <->
     Contract.B_approveProposal = Contract.B_getTodaySpent).
Proof.
  eexists _, _. split; [vm_compute; reflexivity|].
  split; [vm_compute; reflexivity|].
  exact (bindings_call_their_namesake
           Contract.sample_opts Contract.sample_opts
           (Contract.I_approveProposal Contract.sample_account 4)
           (Contract.I_getTodaySpent Contract.sample_account) _ _
           ltac:(vm_compute; reflexivity) ltac:(vm_compute; reflexivity)).
Defined.

(** X7: every binding that prepares a transaction, except
    [executeRecurringPayment], passes the transaction's source account, which
    it has checked to be an address, as the first argument of the contract
    call. *)
Theorem bindings_pass_source_first
    (opts : SdkOptions) (i : Contract.Invocation) (r : Contract.Request)
    (Hbuilt : Contract.perform opts i = Contract.Ready r)
    (Hmut : Contract.is_mutating r = true)
    (Hnot : Contract.binding_of i <> Contract.B_executeRecurringPayment) :
  exists source op,
    r = Contract.BuildTransaction source op opts /\
    Contract.addressToScVal source
      = Contract.Ready (Contract.ScvAddress source) /\
    head (Contract.op_args op) = Some (Contract.ScvAddress source).
Proof.
  destruct i; cbn [Contract.perform Contract.binding_of] in *;
    try congruence;
    unfold Contract.initialize, Contract.proposeTransfer,
      Contract.approveProposal, Contract.executeProposal,
      Contract.rejectProposal, Contract.setRole, Contract.addSigner,
      Contract.removeSigner, Contract.updateLimits,
      Contract.updateThreshold, Contract.schedulePayment,
      Contract.getProposal, Contract.getRole, Contract.getTodaySpent,
      Contract.isSigner in Hbuilt.
  all: repeat
         (let a := fresh "v" in
          let E := fresh "E" in
          apply and_then_Ready in Hbuilt as (a & E & Hbuilt);
          first [ apply getContract_Ready in E as [-> _]
                | pose proof (addressToScVal_Ready _ _ E) as ->
                | apply u64ToScVal_Ready in E as [_ ->]
                | idtac ]).
  all: injection Hbuilt as <-; try discriminate Hmut.
  all: eexists _, _; split; [reflexivity|]; split; [eassumption|reflexivity].
Qed.

Lemma bindings_pass_source_first_witness :
  exists source op,
    Contract.BuildTransaction Contract.sample_account
      {| Contract.op_contract := Contract.sample_contract;
         Contract.op_function := "approve_proposal";
         Contract.op_args :=
           [Contract.ScvAddress Contract.sample_account;
            Contract.ScvU64 4] |}
      Contract.sample_opts
      = Contract.BuildTransaction source op Contract.sample_opts /\
    Contract.addressToScVal source
      = Contract.Ready (Contract.ScvAddress source) /\
    head (Contract.op_args op) = Some (Contract.ScvAddress source).
Proof.
  exact (bindings_pass_source_first
           Contract.sample_opts
           (Contract.I_approveProposal Contract.sample_account 4)
           _ ltac:(vm_compute; reflexivity) eq_refl ltac:(discriminate)).
Defined.

End NamingFacts.

(** ** export.ts: previews and the two CSV writers *)

Section PreviewFacts.
Import ExportUtils ExportTools.
Lemma leading_part_split {T : Type} (l rows r : list T) :
  rows = l ++ r -> rows = l ++ drop (length l) rows.
Proof. intros ->. rewrite drop_app_length. reflexivity. Qed.

(** X8: a preview is always a leading part of the rows, in order.  With a
    limit of zero or more it has that many rows, or all of them when there
    are fewer; with no limit given it has at most 10; a negative limit does
    not give an empty preview but drops that many rows from the end.  Taking
    the preview of a preview with the same non-negative limit changes
    nothing. *)
Theorem previewRows_leading_part
    (T : Type) (rows : list T) (limit : option Z) (n : Z) :
  rows = previewRows rows limit ++ drop (length (previewRows rows limit)) rows /\
  (length (previewRows rows None) <= 10)%nat /\
  (0 <= n ->
   length (previewRows rows (Some n)) = Nat.min (Z.to_nat n) (length rows) /\
   previewRows (previewRows rows (Some n)) (Some n) = previewRows rows (Some n)) /\
  (n < 0 ->
   length (previewRows rows (Some n)) = (length rows - Z.to_nat (- n))%nat).
Proof.
  unfold previewRows.
  split.
  { apply (leading_part_split _ _
             (drop (slice_count (length rows) (default 10 limit)) rows)).
    symmetry. apply take_drop. }
  split.
  { rewrite length_take. unfold slice_count. simpl. lia. }
  split.
  - intros Hn. simpl. unfold slice_count.
    destruct (Z.ltb_spec n 0) as [?|_]; [lia|].
    rewrite !length_take. split; [lia|].
    destruct (Z.ltb_spec n 0) as [?|_]; [lia|].
    rewrite take_take. f_equal. lia.
  - intros Hn. simpl. unfold slice_count.
    destruct (Z.ltb_spec n 0) as [_|?]; [|lia].
    rewrite length_take. lia.
Qed.

Lemma join_app (sep : string) (l1 l2 : list string) :
  l1 <> [] -> l2 <> [] ->
  join sep (l1 ++ l2) = join sep l1 +:+ sep +:+ join sep l2.
Proof.
  intros H1 H2. induction l1 as [|p l1 IH]; [congruence|].
  destruct l1 as [|q l1].
  - simpl app. rewrite join_cons_nonempty by exact H2. reflexivity.
  - change ((p :: q :: l1) ++ l2) with (p :: (q :: l1) ++ l2).
    rewrite join_cons_nonempty by discriminate.
    rewrite IH by discriminate.
    rewrite join_cons2, !string_app_assoc. reflexivity.
Qed.

Lemma toCsv_app (headers : list string) (r1 r2 : list Row) :
  r2 <> [] ->
  toCsv headers (r1 ++ r2)
    = toCsv headers r1 +:+ CRLF +:+ join CRLF (map (data_line headers) r2).
Proof.
  intros H2. unfold toCsv. rewrite map_app.
  change (header_line headers
          :: map (data_line headers) r1 ++ map (data_line headers) r2)
    with ((header_line headers :: map (data_line headers) r1)
          ++ map (data_line headers) r2).
  apply join_app; [discriminate|]. destruct r2; [congruence|discriminate].
Qed.

(** X9: the CSV of a preview is the beginning of the CSV of all the rows:
    [toCsv] of the full list is [toCsv] of the preview followed by more
    text, and by nothing when the preview has all the rows. *)
Theorem toCsv_preview_is_prefix
    (headers : list string) (rows : list Row) (limit : option Z) :
  exists rest : string,
    toCsv headers rows = toCsv headers (previewRows rows limit) +:+ rest /\
    (length (previewRows rows limit) = length rows -> rest = EmptyString).
Proof.
  unfold previewRows. set (k := slice_count _ _).
  destruct (drop k rows) as [|r rs] eqn:Hd.
  - exists EmptyString. split; [|reflexivity].
    rewrite string_app_nil_r. f_equal.
    rewrite <- (take_drop k rows) at 1. rewrite Hd, app_nil_r. reflexivity.
  - exists (CRLF +:+ join CRLF (map (data_line headers) (r :: rs))).
    split.
    + rewrite <- (take_drop k rows) at 1. rewrite Hd.
      apply toCsv_app. discriminate.
    + intros Hlen. apply (f_equal length) in Hd.
      rewrite length_drop in Hd. rewrite length_take in Hlen.
      simpl in Hd. lia.
Qed.

(** X10: the two CSV writers agree: with headers given, [toCSV] writes what
    [toCsv] writes, except that for no rows it adds a final line break; with
    no headers given it takes the keys of the first row. *)
Theorem toCSV_agrees_with_toCsv
    (headers : list string) (rows : list Row) :
  toCSV rows (Some headers)
    = (if decide (rows = []) then toCsv headers [] +:+ CRLF
       else toCsv headers rows) /\
  toCSV rows None
    = match rows with
      | [] => CRLF
      | row0 :: _ => toCsv (own_keys row0) rows
      end.
Proof. destruct rows; split; reflexivity. Qed.

End PreviewFacts.

(** ** export.ts: file names *)

Section FilenameFacts.
Import Filename.
Lemma safe_unit (a : ascii) :
  is_safe_unit (toLowerCase_unit (if is_alnum a then a else "_"%char)) = true.
Proof. destruct a as [[] [] [] [] [] [] [] []]; reflexivity. Qed.

Lemma safe_unit_fixed (a : ascii) :
  is_safe_unit a = true ->
  toLowerCase_unit (if is_alnum a then a else "_"%char) = a.
Proof. destruct a as [[] [] [] [] [] [] [] []]; (reflexivity || discriminate). Qed.

Lemma safe_prefix_fixed (s : string) :
  string_forall is_safe_unit s = true -> safe_prefix s = s.
Proof.
  unfold safe_prefix. induction s as [|a s IH]; [reflexivity|].
  cbn [string_forall replace_non_alnum toLowerCase].
  intros [Ha Hs]%andb_true_iff.
  rewrite (safe_unit_fixed a Ha), (IH Hs). reflexivity.
Qed.

(** X11: the [safe] part of a file name has as many code units as the
    prefix, holds nothing but small ASCII letters, digits and underscores,
    and leaves a prefix that is already of that kind unchanged; so making a
    prefix safe twice is making it safe once. *)
Theorem safe_prefix_is_safe (prefix : string) :
  String.length (safe_prefix prefix) = String.length prefix /\
  string_forall is_safe_unit (safe_prefix prefix) = true /\
  safe_prefix (safe_prefix prefix) = safe_prefix prefix /\
  (string_forall is_safe_unit prefix = true -> safe_prefix prefix = prefix).
Proof.
  assert (Hsafe : string_forall is_safe_unit (safe_prefix prefix) = true).
  { unfold safe_prefix. induction prefix as [|a s IH]; [reflexivity|].
    cbn [string_forall replace_non_alnum toLowerCase].
    rewrite safe_unit, IH. reflexivity. }
  split; [|split; [exact Hsafe|split]].
  - clear Hsafe. unfold safe_prefix.
    induction prefix as [|a s IH]; [reflexivity|].
    cbn [replace_non_alnum toLowerCase String.length]. rewrite IH.
    reflexivity.
  - apply safe_prefix_fixed, Hsafe.
  - apply safe_prefix_fixed.
Qed.

Lemma digit_is_plain (a : ascii) :
  is_digit a = true ->
  (Ascii.eqb a "-" || Ascii.eqb a ":") = false /\
  Ascii.eqb a "." = false /\ Ascii.eqb a "T" = false /\
  is_line_terminator a = false.
Proof.
  destruct a as [[] [] [] [] [] [] [] []]; intros H;
    first [discriminate H | repeat split].
Qed.

Lemma string_lit_app (a : ascii) (x : string) :
  String a EmptyString +:+ x = String a x.
Proof. reflexivity. Qed.

Lemma remove_dash_colon_digits (p r : string) :
  string_forall is_digit p = true ->
  remove_dash_colon (p +:+ r) = p +:+ remove_dash_colon r.
Proof.
  induction p as [|a p IH]; [reflexivity|]. cbn [string_forall].
  intros [Ha Hp]%andb_true_iff.
  destruct (digit_is_plain a Ha) as (H1 & _).
  rewrite !string_app_cons. cbn [remove_dash_colon].
  rewrite H1, (IH Hp). reflexivity.
Qed.

Lemma cut_fraction_digits (p r : string) :
  string_forall is_digit p = true ->
  cut_fraction (p +:+ r) = p +:+ cut_fraction r.
Proof.
  induction p as [|a p IH]; [reflexivity|]. cbn [string_forall].
  intros [Ha Hp]%andb_true_iff.
  destruct (digit_is_plain a Ha) as (_ & H2 & _).
  rewrite !string_app_cons. cbn [cut_fraction].
  rewrite H2, (IH Hp). reflexivity.
Qed.

Lemma replace_first_T_digits (p r : string) :
  string_forall is_digit p = true ->
  replace_first_T (p +:+ r) = p +:+ replace_first_T r.
Proof.
  induction p as [|a p IH]; [reflexivity|]. cbn [string_forall].
  intros [Ha Hp]%andb_true_iff.
  destruct (digit_is_plain a Ha) as (_ & _ & H3 & _).
  rewrite !string_app_cons. cbn [replace_first_T].
  rewrite H3, (IH Hp). reflexivity.
Qed.

Lemma rest_of_line_digits (p : string) :
  string_forall is_digit p = true -> rest_of_line (p +:+ "Z") = EmptyString.
Proof.
  induction p as [|a p IH]; [reflexivity|]. cbn [string_forall].
  intros [Ha Hp]%andb_true_iff.
  destruct (digit_is_plain a Ha) as (_ & _ & _ & H4).
  rewrite string_app_cons. cbn [rest_of_line]. rewrite H4. apply IH, Hp.
Qed.

Lemma cut_fraction_millis (ms : string) :
  string_forall is_digit ms = true ->
  cut_fraction (String "." (ms +:+ "Z")) = EmptyString.
Proof.
  intros Hms. destruct ms as [|b ms]; [reflexivity|].
  cbn [string_forall] in Hms. apply andb_true_iff in Hms as [Hb Hms].
  destruct (digit_is_plain b Hb) as (_ & _ & _ & H4).
  rewrite string_app_cons. cbn [cut_fraction Ascii.eqb]. 
  change (Ascii.eqb "." ".") with true. cbn iota. rewrite H4.
  apply rest_of_line_digits, Hms.
Qed.

Lemma remove_dash (x : string) :
  remove_dash_colon (String "-" x) = remove_dash_colon x.
Proof. reflexivity. Qed.

Lemma remove_colon (x : string) :
  remove_dash_colon (String ":" x) = remove_dash_colon x.
Proof. reflexivity. Qed.

Lemma remove_T (x : string) :
  remove_dash_colon (String "T" x) = String "T" (remove_dash_colon x).
Proof. reflexivity. Qed.

Lemma remove_stop (x : string) :
  remove_dash_colon (String "." x) = String "." (remove_dash_colon x).
Proof. reflexivity. Qed.

Lemma cut_T (x : string) :
  cut_fraction (String "T" x) = String "T" (cut_fraction x).
Proof. reflexivity. Qed.

Lemma replace_T (x : string) : replace_first_T (String "T" x) = String "_" x.
Proof. reflexivity. Qed.

(** X12: for a time written as [toISOString] writes it, digits in the
    pattern Y-M-DTh:m:s.fZ, the file name is the safe prefix, an underscore,
    the date digits, an underscore, the time digits without the fraction, a
    full stop and the extension. *)
Theorem timestampedFilename_format
    (y mo d h mi s ms prefix : string) (extension : Extension)
    (Hy : string_forall is_digit y = true)
    (Hmo : string_forall is_digit mo = true)
    (Hd : string_forall is_digit d = true)
    (Hh : string_forall is_digit h = true)
    (Hmi : string_forall is_digit mi = true)
    (Hs : string_forall is_digit s = true)
    (Hms : string_forall is_digit ms = true) :
  timestampedFilename
    (y +:+ "-" +:+ mo +:+ "-" +:+ d +:+ "T" +:+ h +:+ ":" +:+ mi +:+ ":"
       +:+ s +:+ "." +:+ ms +:+ "Z")
    prefix extension
  = safe_prefix prefix +:+ "_" +:+ y +:+ mo +:+ d +:+ "_" +:+ h +:+ mi +:+ s
      +:+ "." +:+ Extension_text extension.
Proof.
  unfold timestampedFilename. do 2 f_equal.
  assert (Hts : timestamp_text
            (y +:+ "-" +:+ mo +:+ "-" +:+ d +:+ "T" +:+ h +:+ ":" +:+ mi
               +:+ ":" +:+ s +:+ "." +:+ ms +:+ "Z")
          = y +:+ mo +:+ d +:+ "_" +:+ h +:+ mi +:+ s).
  { unfold timestamp_text. rewrite !string_lit_app.
    rewrite (remove_dash_colon_digits y), remove_dash by exact Hy.
    rewrite (remove_dash_colon_digits mo), remove_dash by exact Hmo.
    rewrite (remove_dash_colon_digits d), remove_T by exact Hd.
    rewrite (remove_dash_colon_digits h), remove_colon by exact Hh.
    rewrite (remove_dash_colon_digits mi), remove_colon by exact Hmi.
    rewrite (remove_dash_colon_digits s), remove_stop by exact Hs.
    rewrite (remove_dash_colon_digits ms) by exact Hms.
    change (remove_dash_colon "Z") with "Z".
    rewrite (cut_fraction_digits y), (cut_fraction_digits mo),
      (cut_fraction_digits d), cut_T by assumption.
    rewrite (cut_fraction_digits h), (cut_fraction_digits mi),
      (cut_fraction_digits s) by assumption.
    rewrite cut_fraction_millis by exact Hms.
    rewrite (replace_first_T_digits y), (replace_first_T_digits mo),
      (replace_first_T_digits d), replace_T by assumption.
    rewrite string_app_nil_r. reflexivity. }
  rewrite Hts. rewrite !string_app_assoc. reflexivity.
Qed.

Lemma timestampedFilename_format_witness :
  timestampedFilename "2024-03-05T14:07:09.123Z" "DAO Vault/proposals" ext_csv
    = "dao_vault_proposals_20240305_140709.csv".
Proof.
  exact (timestampedFilename_format "2024" "03" "05" "14" "07" "09" "123"
           "DAO Vault/proposals" ext_csv
           eq_refl eq_refl eq_refl eq_refl eq_refl eq_refl eq_refl).
Defined.

End FilenameFacts.

(** ** export.ts: the date filter *)

Section DateFilterAll.
Import DateFilter.
Section DateFilterFacts.
Variable T : Type.
Variable time_of : T -> option Z.

Local Abbreviation filterByDateRange := (DateFilter.filterByDateRange T time_of).
Local Abbreviation in_range := (DateFilter.in_range T time_of).

Lemma in_range_spec (start end_ : Bound) (row : T) :
  in_range start end_ row = true <->
  exists ms, time_of row = Some ms /\
             (forall t, start = BoundAt t -> t <= ms) /\
             (forall t, end_ = BoundAt t -> ms <= t).
Proof.
  unfold DateFilter.in_range. destruct (time_of row) as [ms|].
  - rewrite andb_true_iff, !negb_true_iff. split.
    + intros [Hs He]. exists ms. split; [reflexivity|]. split.
      * intros t ->. simpl in Hs. lia.
      * intros t ->. simpl in He. lia.
    + intros (ms' & [= <-] & Hs & He). split.
      * destruct start as [| |t]; simpl; try reflexivity.
        specialize (Hs t eq_refl). lia.
      * destruct end_ as [| |t]; simpl; try reflexivity.
        specialize (He t eq_refl). lia.
  - split; [discriminate|]. intros (ms & H & _). discriminate.
Qed.

(** X13: with neither bound given the rows come back as they are, rows
    without a usable date included.  With a bound given, a row is kept
    exactly when it has a usable date that is not before the start and not
    after the end, both ends included; rows without a usable date are
    dropped, and a bound that is not a date binds nothing.  The rows kept
    stay in their order. *)
Theorem filterByDateRange_keeps_range
    (rows : list T) (start end_ : Bound) (row : T) :
  filterByDateRange rows NoBound NoBound = rows /\
  sublist (filterByDateRange rows start end_) rows /\
  (is_absent start && is_absent end_ = false ->
   (In row (filterByDateRange rows start end_) <->
    In row rows /\
    exists ms, time_of row = Some ms /\
               (forall t, start = BoundAt t -> t <= ms) /\
               (forall t, end_ = BoundAt t -> ms <= t))).
Proof.
  split; [reflexivity|]. split.
  - unfold DateFilter.filterByDateRange.
    destruct (is_absent start && is_absent end_); [reflexivity|].
    induction rows as [|r rows IH]; simpl; [constructor|].
    destruct (DateFilter.in_range T time_of start end_ r);
      [apply sublist_skip|apply sublist_cons]; exact IH.
  - intros Hb. unfold DateFilter.filterByDateRange. rewrite Hb.
    rewrite filter_In, in_range_spec. reflexivity.
Qed.

Lemma filter_range_twice (rows : list T) (s1 e1 s2 e2 : Bound) :
  List.filter (in_range s2 e2) (List.filter (in_range s1 e1) rows)
  = List.filter (in_range (later_start s1 s2) (earlier_end e1 e2)) rows.
Proof.
  induction rows as [|r rows IH]; [reflexivity|]. simpl.
  assert (Hr : in_range (later_start s1 s2) (earlier_end e1 e2) r
               = in_range s1 e1 r && in_range s2 e2 r).
  { unfold DateFilter.in_range. destruct (time_of r) as [ms|]; [|reflexivity].
    destruct s1, s2, e1, e2; simpl;
      repeat match goal with
        | |- context [(?a <? ?b)%Z] => destruct (Z.ltb_spec a b)
        end; simpl; try reflexivity; lia. }
  rewrite Hr. destruct (in_range s1 e1 r); simpl; [|exact IH].
  destruct (in_range s2 e2 r); simpl; rewrite IH; reflexivity.
Qed.

(** X14: filtering twice, each time with at least one bound given, is
    filtering once with the later start and the earlier end; in particular
    filtering again with the same bounds changes nothing. *)
Theorem filterByDateRange_composes
    (rows : list T) (s1 e1 s2 e2 : Bound)
    (H1 : is_absent s1 && is_absent e1 = false)
    (H2 : is_absent s2 && is_absent e2 = false) :
  filterByDateRange (filterByDateRange rows s1 e1) s2 e2
    = filterByDateRange rows (later_start s1 s2) (earlier_end e1 e2) /\
  filterByDateRange (filterByDateRange rows s1 e1) s1 e1
    = filterByDateRange rows s1 e1.
Proof.
  assert (H12 : is_absent (later_start s1 s2)
                && is_absent (earlier_end e1 e2) = false).
  { destruct s1, s2, e1, e2; simpl in *; congruence. }
  unfold DateFilter.filterByDateRange. rewrite H1, H2, H12. split.
  - apply filter_range_twice.
  - rewrite filter_range_twice. 
    apply filter_ext. intros r. unfold DateFilter.in_range.
    destruct (time_of r) as [ms|]; [|reflexivity].
    destruct s1, e1; simpl;
      repeat match goal with
        | |- context [(?a <? ?b)%Z] => destruct (Z.ltb_spec a b)
        end; simpl; try reflexivity; lia.
Qed.
End DateFilterFacts.

Lemma filterByDateRange_composes_witness :
  DateFilter.filterByDateRange Z Some
    (DateFilter.filterByDateRange Z Some [5; 20; 12; 40] (BoundAt 10) NoBound)
    NoBound (BoundAt 30)
  = [20; 12].
Proof.
  exact (proj1 (filterByDateRange_composes Z Some [5; 20; 12; 40]
                  (BoundAt 10) NoBound NoBound (BoundAt 30)
                  eq_refl eq_refl)).
Defined.

End DateFilterAll.

(** ** export.ts: text for the PDF *)

Section PdfTextFacts.
Import PdfText.
Lemma trimStart_suffix (s : ustring) : exists l, s = l ++ trimStart s.
Proof.
  induction s as [|u s [l IH]]; simpl.
  - exists []. reflexivity.
  - destruct (is_trimmed_unit u).
    + exists (u :: l). simpl. f_equal. exact IH.
    + exists []. reflexivity.
Qed.

Lemma trimStart_Forall (P : N -> Prop) (s : ustring) :
  Forall P s -> Forall P (trimStart s).
Proof.
  intros H. destruct (trimStart_suffix s) as [l E].
  rewrite E in H. apply Forall_app in H as [_ H]. exact H.
Qed.

Lemma trim_Forall (P : N -> Prop) (s : ustring) :
  Forall P s -> Forall P (trim s).
Proof.
  intros H. unfold trim, trimEnd.
  apply Forall_rev, trimStart_Forall, Forall_rev, trimStart_Forall, H.
Qed.

Lemma trimStart_head (s : ustring) :
  match trimStart s with
  | [] => True
  | u :: _ => is_trimmed_unit u = false
  end.
Proof.
  induction s as [|u s IH]; simpl; [exact I|].
  destruct (is_trimmed_unit u) eqn:E; [exact IH|exact E].
Qed.

Lemma trimStart_fixed (s : ustring) :
  match s with
  | [] => True
  | u :: _ => is_trimmed_unit u = false
  end -> trimStart s = s.
Proof. destruct s as [|u s]; simpl; [reflexivity|]. intros ->. reflexivity. Qed.

Lemma trimStart_idem (s : ustring) : trimStart (trimStart s) = trimStart s.
Proof. apply trimStart_fixed, trimStart_head. Qed.

Lemma trimStart_app_kept (s t : ustring) (u : N) :
  is_trimmed_unit u = false ->
  trimStart (s ++ u :: t) = trimStart s ++ u :: t \/
  (trimStart s = [] /\ trimStart (s ++ u :: t) = u :: t).
Proof.
  intros Hu. induction s as [|v s IH]; simpl.
  - rewrite Hu. right. auto.
  - destruct (is_trimmed_unit v); [exact IH|]. left. reflexivity.
Qed.

(** The first code unit of a trimmed text is kept by [trimEnd]. *)
Lemma trimEnd_head (s : ustring) :
  match s with
  | [] => True
  | u :: _ => is_trimmed_unit u = false
  end ->
  match trimEnd s with
  | [] => s = []
  | u :: _ => is_trimmed_unit u = false /\ exists t, s = u :: t
  end.
Proof.
  destruct s as [|u s]; [reflexivity|]. intros Hu. unfold trimEnd.
  simpl rev.
  destruct (trimStart_app_kept (rev s) [] u Hu) as [E|[_ E]]; rewrite E.
  - rewrite rev_app_distr. simpl. split; [exact Hu|eauto].
  - simpl. split; [exact Hu|eauto].
Qed.

Lemma trim_ends (s : ustring) :
  match trim s with
  | [] => True
  | u :: _ => is_trimmed_unit u = false
  end /\
  match rev (trim s) with
  | [] => True
  | u :: _ => is_trimmed_unit u = false
  end.
Proof.
  unfold trim. split.
  - pose proof (trimEnd_head (trimStart s) (trimStart_head s)) as H.
    destruct (trimEnd (trimStart s)); [exact I|]. apply H.
  - unfold trimEnd. rewrite rev_involutive. apply trimStart_head.
Qed.

Lemma trim_fixed (s : ustring) :
  match s with
  | [] => True
  | u :: _ => is_trimmed_unit u = false
  end ->
  match rev s with
  | [] => True
  | u :: _ => is_trimmed_unit u = false
  end -> trim s = s.
Proof.
  intros H1 H2. unfold trim, trimEnd.
  rewrite (trimStart_fixed s H1), (trimStart_fixed (rev s) H2).
  apply rev_involutive.
Qed.

Lemma strip_zero_width_fixed (s : ustring) :
  Forall (fun u => is_clean_unit u = true) s -> strip_zero_width s = s.
Proof.
  induction 1 as [|u s Hu _ IH]; [reflexivity|]. simpl.
  unfold is_clean_unit in Hu. apply andb_true_iff in Hu as [-> _].
  simpl. f_equal. exact IH.
Qed.

Lemma nbsp_to_space_fixed (s : ustring) :
  Forall (fun u => is_clean_unit u = true) s -> nbsp_to_space s = s.
Proof.
  induction 1 as [|u s Hu _ IH]; [reflexivity|]. simpl.
  unfold is_clean_unit in Hu. apply andb_true_iff in Hu as [_ Hu].
  apply negb_true_iff in Hu. rewrite Hu. f_equal. exact IH.
Qed.

Lemma sanitize_clean (text : option ustring) :
  Forall (fun u => is_clean_unit u = true) (sanitizeForPdf text).
Proof.
  unfold sanitizeForPdf. apply trim_Forall.
  induction (default [] text) as [|u s IH]; [constructor|].
  unfold strip_zero_width. simpl.
  destruct (is_zero_width u) eqn:E; simpl; [exact IH|].
  constructor; [|exact IH].
  unfold is_clean_unit. destruct (N.eqb_spec u NBSP) as [->|Hne].
  - reflexivity.
  - rewrite E. simpl. apply negb_true_iff, N.eqb_neq, Hne.
Qed.

(** X15: the text [sanitizeForPdf] returns holds no zero-width code unit
    (U+200B to U+200D, U+FEFF) and no no-break space, neither starts nor ends
    with white space, and is left unchanged by sanitizing it again; a null or
    undefined text gives the empty text. *)
Theorem sanitizeForPdf_clean_and_stable (text : option ustring) :
  let out := sanitizeForPdf text in
  Forall (fun u => is_zero_width u = false /\ u <> NBSP) out /\
  (forall u rest, out = u :: rest -> is_trimmed_unit u = false) /\
  (forall u front, out = front ++ [u] -> is_trimmed_unit u = false) /\
  sanitizeForPdf (Some out) = out /\
  sanitizeForPdf None = [].
Proof.
  intros out. pose proof (sanitize_clean text) as Hc. fold out in Hc.
  assert (Hends := trim_ends (nbsp_to_space (strip_zero_width (default [] text)))).
  change (trim _) with out in Hends. destruct Hends as [Hh Hl].
  split.
  { eapply Forall_impl; [exact Hc|]. intros u Hu. simpl in Hu.
    unfold is_clean_unit in Hu. apply andb_true_iff in Hu as [H1 H2].
    apply negb_true_iff in H1, H2. split; [exact H1|].
    apply N.eqb_neq, H2. }
  split.
  { intros u rest E. rewrite E in Hh. exact Hh. }
  split.
  { intros u front E. rewrite E, rev_app_distr in Hl. exact Hl. }
  split; [|reflexivity].
  unfold sanitizeForPdf at 1. simpl default.
  rewrite strip_zero_width_fixed, nbsp_to_space_fixed by exact Hc.
  apply trim_fixed; assumption.
Qed.

End PdfTextFacts.

(** ** exportHistory.ts: the stored history *)

Section ExportHistoryFacts.
Import ExportHistory.
Lemma normalize_twice {P : Type} (now now' : string) (item : Item P) :
  normalize now' (normalize now item) = normalize now item.
Proof. reflexivity. Qed.

Lemma normalize_new_item {P : Type} (now now' fresh_id : string)
    (item : NewItem P) :
  normalize now' (new_item now fresh_id item) = new_item now fresh_id item.
Proof. reflexivity. Qed.

(** A stored array without a null element is read item by item. *)
Lemma map_or_throw_objects {P : Type} (now : string) (items : list (Item P)) :
  map_or_throw (normalize_element now) (map Some items)
    = Some (map (normalize now) items).
Proof.
  induction items as [|i items IH]; [reflexivity|].
  simpl. rewrite IH. reflexivity.
Qed.

(** A null element makes the callback throw. *)
Lemma map_or_throw_null {P : Type} (now : string)
    (elements : list (option (Item P))) :
  In None elements -> map_or_throw (normalize_element now) elements = None.
Proof.
  induction elements as [|e elements IH]; [intros []|].
  intros [->|Hin]; [reflexivity|]. simpl.
  destruct (normalize_element now e); [|reflexivity].
  rewrite (IH Hin). reflexivity.
Qed.

(** Every item read has been through the callback. *)
Lemma map_or_throw_normalized {P : Type} (now : string)
    (elements : list (option (Item P))) (items : list (Item P)) :
  map_or_throw (normalize_element now) elements = Some items ->
  exists raws, elements = map Some raws /\ items = map (normalize now) raws.
Proof.
  revert items. induction elements as [|e elements IH]; intros items.
  - intros [= <-]. exists []. split; reflexivity.
  - simpl. destruct e as [raw|]; [|discriminate]. simpl.
    destruct (map_or_throw (normalize_element now) elements) as [bs|];
      [|discriminate].
    intros [= <-]. destruct (IH bs eq_refl) as (raws & -> & ->).
    exists (raw :: raws). split; reflexivity.
Qed.

Lemma getExportHistory_cases {P : Type} (now : string) (st : Storage P) :
  getExportHistory now st = [] \/
  exists raws, stored st = Saved (map Some raws) /\
               getExportHistory now st = map (normalize now) raws.
Proof.
  unfold getExportHistory. destruct (stored st) as [| | |elements]; auto.
  destruct (map_or_throw (normalize_element now) elements) as [items|] eqn:E;
    [|auto].
  apply map_or_throw_normalized in E as (raws & -> & ->). eauto.
Qed.

(** X16: after a save that the store accepts, the history read back is the
    new item followed by the history as it was, cut to 50 items: newest
    first, never more than 50, whatever was stored before and whenever it is
    read.  The new item carries the given export time, or the current time
    when none was given, as both [exportedAt] and [timestamp].  A save the
    store refuses changes nothing. *)
Theorem saveExportHistoryItem_newest_first
    (P : Type) (now_read now later fresh_id : string) (item : NewItem P)
    (st : Storage P) :
  let st' := saveExportHistoryItem now_read now fresh_id item st in
  let added := new_item now fresh_id item in
  (writable st = true ->
   getExportHistory later st'
     = take MAX_ITEMS (added :: getExportHistory now_read st) /\
   head (getExportHistory later st') = Some added /\
   (length (getExportHistory later st') <= MAX_ITEMS)%nat) /\
  (exportedAt added = Some (default now (new_exportedAt item)) /\
   timestamp added = exportedAt added /\ id added = Some fresh_id) /\
  (writable st = false -> st' = st).
Proof.
  intros st' added. split; [|split].
  - intros Hw.
    assert (E : getExportHistory later st'
                = take MAX_ITEMS (added :: getExportHistory now_read st)).
    { unfold st', saveExportHistoryItem. rewrite Hw.
      unfold getExportHistory at 1. cbn [stored].
      rewrite map_or_throw_objects.
      fold added. rewrite <- (map_id (take _ _)) at 2.
      apply map_ext_in. intros x Hx%list_elem_of_In%elem_of_take.
      destruct Hx as (i & Hx & _). destruct i as [|i]; simpl in Hx.
      - injection Hx as <-. reflexivity.
      - destruct (getExportHistory_cases now_read st) as [E|(raws & _ & E)];
          rewrite E in Hx; [discriminate|].
        rewrite list_lookup_fmap in Hx.
        destruct (raws !! i); [|discriminate]. injection Hx as <-.
        reflexivity. }
    rewrite E. split; [reflexivity|]. split; [reflexivity|].
    rewrite length_take. lia.
  - repeat split.
  - intros Hw. unfold st', saveExportHistoryItem. rewrite Hw. reflexivity.
Qed.

(** X17: whatever is stored, every item [getExportHistory] returns has an
    [exportedAt], and its [timestamp] is the same.  For a stored array
    without a null element the items come in stored order, one per stored
    element, and the stored [exportedAt] wins over the stored [timestamp],
    which wins over the current time.  A stored array with a null element
    gives the empty history, since the callback throws on it; so do an
    empty, unreadable or non-array store and a store that was just
    cleared. *)
Theorem getExportHistory_normalized
    (P : Type) (now : string) (st : Storage P) (item : Item P) :
  (In item (getExportHistory now st) ->
   timestamp item = exportedAt item /\ exportedAt item <> None) /\
  (forall items, stored st = Saved (map Some items) ->
     getExportHistory now st = map (normalize now) items /\
     map payload (getExportHistory now st) = map payload items /\
     map id (getExportHistory now st) = map id items /\
     map exportedAt (getExportHistory now st)
       = map (fun i => Some (default (default now (timestamp i))
                                     (exportedAt i))) items) /\
  (forall elements,
     stored st = Saved elements -> In None elements ->
     getExportHistory now st = []) /\
  (forall elements,
     stored st = Saved elements ->
     getExportHistory now st = [] \/
     length (getExportHistory now st) = length elements) /\
  (writable st = true ->
   getExportHistory now (clearExportHistory st) = []) /\
  (forall w,
     getExportHistory now (mkStorage (@Missing P) w) = [] /\
     getExportHistory now (mkStorage (@Unreadable P) w) = [] /\
     getExportHistory now (mkStorage (@NotAnArray P) w) = []).
Proof.
  split; [|split; [|split; [|split; [|split]]]].
  - destruct (getExportHistory_cases now st) as [->|(raws & _ & ->)];
      [intros []|].
    intros Hin%in_map_iff. destruct Hin as (raw & <- & _).
    split; [reflexivity|discriminate].
  - intros items E. unfold getExportHistory.
    rewrite E, map_or_throw_objects, !map_map.
    repeat split; reflexivity.
  - intros elements E Hnull. unfold getExportHistory.
    rewrite E, map_or_throw_null by exact Hnull. reflexivity.
  - intros elements E.
    destruct (getExportHistory_cases now st) as [->|(raws & E' & ->)];
      [left; reflexivity|right].
    rewrite E in E'. injection E' as ->. rewrite !length_map. reflexivity.
  - intros Hw. unfold clearExportHistory. rewrite Hw. reflexivity.
  - intros w. repeat split.
Qed.

Lemma saveExportHistoryItem_newest_first_witness :
  getExportHistory "2024-03-06T00:00:00.000Z"
    (saveExportHistoryItem "2024-03-05T09:59:59.999Z"
       "2024-03-05T10:00:00.000Z" "exp_1_abc"
       (mkNewItem None "proposals.csv")
       (mkStorage
          (Saved [Some (mkItem None None (Some "2024-01-01") "old.csv")])
          true))
  = [ mkItem (Some "exp_1_abc") (Some "2024-03-05T10:00:00.000Z")
             (Some "2024-03-05T10:00:00.000Z") "proposals.csv";
      mkItem None (Some "2024-01-01") (Some "2024-01-01") "old.csv" ].
Proof.
  exact (proj1 (proj1 (saveExportHistoryItem_newest_first string
                  "2024-03-05T09:59:59.999Z"
                  "2024-03-05T10:00:00.000Z" "2024-03-06T00:00:00.000Z"
                  "exp_1_abc" (mkNewItem None "proposals.csv")
                  (mkStorage
                     (Saved
                        [Some (mkItem None None (Some "2024-01-01")
                                      "old.csv")])
                     true)) eq_refl)).
Defined.

End ExportHistoryFacts.

(** ** ExportModal.tsx: what the modal exports *)

Section ExportModalFacts.
Import ExportUtils ExportModal.
(** X18: the modal exports nothing exactly when no row passed the filter.
    Otherwise, for the financial summary the CSV reads back as the header
    label, value followed by one record per summary entry; for the other
    data types, when the first row has two or more keys, or has one key and
    the last row's cell under it is not empty, it reads back as the keys of
    the first row followed by every row's cells under those keys, so a field
    that only later rows have is not exported and a field a later row lacks
    is exported empty.  With a single key and an empty cell in the last row
    the text ends with a line break and reads back without the last row. *)
Theorem export_csv_reads_back
    (derive : list Row -> list (string * string))
    (filteredRows : list Row) (dataType : DataType) :
  (export_csv derive filteredRows dataType = None <-> filteredRows = []) /\
  (filteredRows <> [] ->
   exists csv, export_csv derive filteredRows financial_summary = Some csv /\
     csv_parse csv
       = Some (["label"; "value"]
               :: map (fun s => [fst s; snd s]) (derive filteredRows))) /\
  (forall row0 more,
     filteredRows = row0 :: more -> own_keys row0 <> [] ->
     dataType <> financial_summary ->
     (2 <= length (own_keys row0))%nat \/
       ends_with_text (own_keys row0) filteredRows ->
     exists csv, export_csv derive filteredRows dataType = Some csv /\
       csv_parse csv
         = Some (own_keys row0
                 :: map (fun row =>
                           map (fun k => cell_string (get row k))
                               (own_keys row0))
                        filteredRows)) /\
  (forall row0 more init last_row,
     filteredRows = row0 :: more ->
     filteredRows = init ++ [last_row] ->
     dataType <> financial_summary ->
     data_cells (own_keys row0) last_row = [EmptyString] ->
     exists csv, export_csv derive filteredRows dataType = Some csv /\
       csv_parse csv
         = Some (own_keys row0 :: map (data_cells (own_keys row0)) init)).
Proof.
  split; [|split; [|split]].
  - unfold export_csv, getHeadersAndRows.
    destruct filteredRows as [|row0 more]; [split; reflexivity|].
    split; [|discriminate].
    destruct dataType; simpl.
    all: destruct (own_keys row0); discriminate.
  - intros Hne. destruct filteredRows as [|row0 more]; [congruence|].
    unfold export_csv, getHeadersAndRows. eexists. split; [reflexivity|].
    rewrite csv_parse_toCsv by (discriminate || (left; simpl; lia)).
    unfold table_cells, header_cells, data_cells. rewrite map_map.
    reflexivity.
  - intros row0 more -> Hk Hd Hend.
    exists (toCsv (own_keys row0) (row0 :: more)). split.
    + unfold export_csv, getHeadersAndRows.
      destruct dataType; try congruence;
        destruct (own_keys row0); (congruence || reflexivity).
    + rewrite csv_parse_toCsv by assumption. reflexivity.
  - intros row0 more init last_row Hrows Hlast Hd Hblank.
    assert (own_keys row0 <> []) as Hk.
    { intros E. rewrite E in Hblank. discriminate Hblank. }
    exists (toCsv (own_keys row0) filteredRows). split.
    + rewrite Hrows. unfold export_csv, getHeadersAndRows.
      destruct dataType; try congruence;
        destruct (own_keys row0); (congruence || reflexivity).
    + rewrite Hlast, csv_parse_blank_last by assumption. reflexivity.
Qed.

End ExportModalFacts.

(** ** export.ts: the shape of the CSV *)

Section CsvShapeFacts.
Import ExportUtils.

(** X19: two cells are written as the same text only when their string forms
    are the same; and the text of a cell is either the string itself, free
    of quotes, commas and line breaks, or starts with a double quote. *)
Theorem escapeCsvCell_injective (v1 v2 : Cell) :
  (escapeCsvCell v1 = escapeCsvCell v2 -> cell_string v1 = cell_string v2) /\
  (needs_quoting (escapeCsvCell v1) = false /\
   escapeCsvCell v1 = cell_string v1 \/
   exists body, escapeCsvCell v1 = String quote body).
Proof.
  split.
  - intros H. apply (f_equal csv_unescape) in H.
    unfold escapeCsvCell in H.
    rewrite !csv_unescape_escape_string in H. congruence.
  - unfold escapeCsvCell, escape_string.
    destruct (needs_quoting (cell_string v1)) eqn:E; eauto.
Qed.

(** X20: whatever the cells hold, the CSV [toCsv] writes for two or more
    columns, or for one column when the last record is not an empty cell,
    reads back as one record for the headers and one per row, each with
    exactly as many fields as there are headers. *)
Theorem toCsv_is_rectangular
    (headers : list string) (rows : list Row) (Hcols : headers <> [])
    (Hlast : (2 <= length headers)%nat \/ ends_with_text headers rows) :
  exists table,
    csv_parse (toCsv headers rows) = Some table /\
    length table = S (length rows) /\
    Forall (fun record => length record = length headers) table.
Proof.
  exists (table_cells headers rows). split; [|split].
  - apply csv_parse_toCsv; assumption.
  - unfold table_cells. simpl. rewrite length_map. reflexivity.
  - unfold table_cells, header_cells. constructor; [reflexivity|].
    apply Forall_forall. intros r Hr.
    apply list_elem_of_In, in_map_iff in Hr as [row [<- _]].
    unfold data_cells. apply length_map.
Qed.

Lemma toCsv_is_rectangular_witness :
  exists table,
    csv_parse (toCsv ["memo"; "note"] [sample_row; sample_row])
      = Some table /\
    length table = 3%nat /\
    Forall (fun record => length record = 2%nat) table.
Proof.
  exact (toCsv_is_rectangular ["memo"; "note"] [sample_row; sample_row]
           ltac:(discriminate) ltac:(left; simpl; lia)).
Defined.

End CsvShapeFacts.
